(** * Peer-to-peer file sharing: the secure chunked transfer engine

    A shallow embedding of the transfer engine of the browser application
    (App.tsx, lib/encryption.ts, lib/keyExchange.ts, FileTransferItem.tsx)
    and the properties its specification states about it.

    Conventions of the embedding.
    - JavaScript numbers that hold sizes, indices and counters are integers
      ([Z]); numbers that hold rates and times are exact rationals ([Q]),
      an idealisation of IEEE doubles.
    - The refs of the component ([useRef]) and the module-level session-key
      store are fields of one explicit state record; React state set through
      functional updates ([setTransfers (prev => ...)]) is a field updated in
      place, and a read of a state variable inside a closure is a read of the
      snapshot the closure captured.
    - Every handler is split at its [await]s into atomic segments; the event
      loop interleaves the segments.
    - The platform (WebCrypto, the channel) is not part of the repository: its
      primitives are parameters of the development. *)

From Stdlib Require Import ZArith QArith Qround Qminmax Lia Lqa Ascii.
From Stdlib Require Strings.Byte.
From stdpp Require Import base gmap sets list strings.
From stdpp Require Import pretty.

(** ** JavaScript numerics *)

(** [Math.round]: the nearest integer, halves rounded towards +infinity. *)
Definition Math_round (x : Q) : Z := Qfloor (x + (1 # 2))%Q.

(** [Math.ceil]. *)
Definition Math_ceil (x : Q) : Z := Qceiling x.

(** ** Telemetry: estimated time remaining (App.tsx) *)

(** [const speed = transferSpeedRef.current[fileId] || 0]: an absent entry
    reads as 0. *)
Definition speed_of (transferSpeedRef : gmap string Q) (fileId : string) : Q :=
  default 0%Q (transferSpeedRef !! fileId).

Definition remainingBytes (totalSize currentProgress : Z) : Q :=
  (inject_Z totalSize * (1 - inject_Z currentProgress / 100))%Q.

Definition calculateEstimatedTimeRemaining
    (transferSpeedRef : gmap string Q) (fileId : string)
    (currentProgress totalSize : Z) : option Z :=
  let speed := speed_of transferSpeedRef fileId in
  if Qle_bool speed 0 then None
  else
    let estimatedTimeMs :=
      (remainingBytes totalSize currentProgress / speed * 1000)%Q in
    Some (Z.max 0 (Math_round estimatedTimeMs)).


(** ** Bytes, binary strings and typed arrays *)

Abbreviation byte := Byte.byte.

(** The numeric value of a byte, and [new Uint8Array([z])]: a number is
    stored modulo 256. *)
Definition byte_to_Z (b : byte) : Z := Z.of_N (Byte.to_N b).
Definition Z_to_byte (z : Z) : byte :=
  default Byte.x00 (Byte.of_N (Z.to_N (z `mod` 256))).

(** [Array.from(uint8array)] and [new Uint8Array(numbers)]. *)
Definition Array_from (a : list byte) : list Z := map byte_to_Z a.
Definition Uint8Array (a : list Z) : list byte := map Z_to_byte a.

(** [window.crypto.getRandomValues(new Uint8Array(n))]: the array always has
    [n] entries; they come from the entropy the environment supplies. *)
Definition getRandomValues (n : nat) (entropy : list byte) : list byte :=
  take n (entropy ++ replicate n Byte.x00).

(** ** Base64: [btoa] and [atob]

    A binary string (every code unit below 256) is the list of its bytes, so
    [String.fromCharCode(...bytes)] and [c => c.charCodeAt(0)] are the
    identity; [atob] is the forgiving decoder of the HTML standard. *)
Module Base64.

Definition alphabet : list ascii :=
  String.list_ascii_of_string
    "ABCDEFGHIJKLMNOPQRSTUVWXYZabcdefghijklmnopqrstuvwxyz0123456789+/".

Definition digit (s : Z) : ascii := default "="%char (alphabet !! Z.to_nat s).

Fixpoint index_from (c : ascii) (l : list ascii) (i : Z) : option Z :=
  match l with
  | [] => None
  | d :: l' => if decide (c = d) then Some i else index_from c l' (i + 1)
  end.

Definition value (c : ascii) : option Z := index_from c alphabet 0.

(** Three octets make four sextets; one or two trailing octets make two or
    three. *)
Fixpoint sextets (l : list Z) : list Z :=
  match l with
  | a :: b :: c :: r =>
      a `div` 4 :: (a `mod` 4) * 16 + b `div` 16
        :: (b `mod` 16) * 4 + c `div` 64 :: c `mod` 64 :: sextets r
  | [a; b] => [a `div` 4; (a `mod` 4) * 16 + b `div` 16; (b `mod` 16) * 4]
  | [a] => [a `div` 4; (a `mod` 4) * 16]
  | [] => []
  end%Z.

Definition padding (n : nat) : list ascii :=
  replicate ((3 - n `mod` 3) `mod` 3) "="%char.

Definition btoa (data : list byte) : string :=
  String.string_of_list_ascii
    (map digit (sextets (map byte_to_Z data)) ++ padding (length data)).

Definition is_whitespace (c : ascii) : bool :=
  bool_decide (c ∈ ["009"; "010"; "012"; "013"; " "]%char).

Definition drop_eq (rl : list ascii) : list ascii :=
  match rl with
  | c :: r => if decide (c = "="%char) then r else rl
  | [] => rl
  end.

(** When the length is a multiple of four, one or two trailing [=] go. *)
Definition strip_padding (l : list ascii) : list ascii :=
  if decide (length l `mod` 4 = 0)
  then reverse (drop_eq (drop_eq (reverse l)))
  else l.

Fixpoint octets (l : list Z) : list Z :=
  match l with
  | s1 :: s2 :: s3 :: s4 :: r =>
      s1 * 4 + s2 `div` 16 :: (s2 `mod` 16) * 16 + s3 `div` 4
        :: (s3 `mod` 4) * 64 + s4 :: octets r
  | [s1; s2; s3] => [s1 * 4 + s2 `div` 16; (s2 `mod` 16) * 16 + s3 `div` 4]
  | [s1; s2] => [s1 * 4 + s2 `div` 16]
  | _ => []
  end%Z.

(** [None] stands for the [InvalidCharacterError] that [atob] throws. *)
Definition atob (s : string) : option (list byte) :=
  let l :=
    strip_padding
      (filter (λ c, is_whitespace c = false) (String.list_ascii_of_string s)) in
  if decide (length l `mod` 4 = 1) then None
  else v ← mapM value l; Some (map Z_to_byte (octets v)).

End Base64.

(** ** Exceptions *)

Inductive Error :=
  | NoActiveConnection      (* Error('No active connection') *)
  | NoSessionKeyFound       (* Error('No session key found for this session ID') *)
  | MissingSessionKey       (* Error('Missing encryption information: No session
                               key found for this session ID') *)
  | FailedToDecrypt         (* Error('Failed to decrypt file. ...') *)
  | MissingEncryptionInfo   (* Error('Missing encryption information') *)
  | OperationError          (* subtle.decrypt: the authentication tag check failed *)
  | InvalidCharacterError   (* atob *)
  | DataError               (* subtle.importKey *)
  | TypeError.              (* a property read of null or undefined *)

Inductive result (A : Type) :=
  | Ok (a : A)
  | Throw (e : Error).
Arguments Ok {A} a.
Arguments Throw {A} e.

#[global] Instance result_ret : MRet result := λ A a, Ok a.
#[global] Instance result_bind : MBind result := λ A B k r,
  match r with
  | Ok a => k a
  | Throw e => Throw e
  end.

(** ** The platform: WebCrypto

    [window.crypto.subtle] is a browser interface.  AES-GCM is taken as two
    functions on an opaque key type; ECDH over P-256 is scalar multiplication
    in the group of curve points, with the group operation a parameter. *)
Class WebCrypto := {
  (** AES-GCM keys ([CryptoKey]), their raw export and import
      ([None]: [DataError]). *)
  AesKey : Type;
  aes_export_raw : AesKey → list byte;
  aes_import_raw : list byte → option AesKey;
  (** [subtle.encrypt] and [subtle.decrypt] with [{name: 'AES-GCM', iv}]; the
      tag travels at the end of the ciphertext; [None] is the
      [OperationError] of a failed tag check. *)
  aes_gcm_encrypt : AesKey → list byte → list byte → list byte;
  aes_gcm_decrypt : AesKey → list byte → list byte → option (list byte);
  (** The points of the named curve, their addition, its neutral element and
      the generator. *)
  Point : Type;
  point_add : Point → Point → Point;
  point_zero : Point;
  point_base : Point;
  (** SubjectPublicKeyInfo export and import of a public key. *)
  spki_export : Point → list byte;
  spki_import : list byte → option Point;
  (** [deriveKey]: the AES-GCM-256 key made of the shared point. *)
  ecdh_to_aes : Point → AesKey
}.

(** ** Files and blobs *)

Record File := {
  file_name : string;
  file_type : string;
  file_bytes : list byte
}.

Definition file_size (f : File) : Z := Z.of_nat (length (file_bytes f)).

Record Blob := {
  blob_bytes : list byte;
  blob_type : string
}.

(** [new Blob(parts, {type})], [blob.size] and [blob.slice(start, end)] for
    [0 <= start]. *)
Definition new_Blob (parts : list (list byte)) (type : string) : Blob :=
  {| blob_bytes := concat parts; blob_type := type |}.

Definition blob_size (b : Blob) : Z := Z.of_nat (length (blob_bytes b)).

Definition blob_slice (b : Blob) (start stop : Z) : Blob :=
  {| blob_bytes :=
       take (Z.to_nat (stop - start)) (drop (Z.to_nat start) (blob_bytes b));
     blob_type := "" |}.

(** ** lib/keyExchange.ts *)

Section KeyExchange.
Context `{WebCrypto}.

(** [n] times the point [P]. *)
Fixpoint point_mul (n : nat) (P : Point) : Point :=
  match n with
  | O => point_zero
  | S n' => point_add P (point_mul n' P)
  end.

(** An ECDH key pair: a secret scalar and its multiple of the generator. *)
Record CryptoKeyPair := {
  privateKey : nat;
  publicKey : Point
}.

(** [generateKeyPair]; the secret scalar is the randomness of the call. *)
Definition generateKeyPair (secret : nat) : CryptoKeyPair :=
  {| privateKey := secret; publicKey := point_mul secret point_base |}.

Definition exportPublicKey (publicKey : Point) : string :=
  Base64.btoa (spki_export publicKey).

Definition importPublicKey (publicKeyStr : string) : result Point :=
  match Base64.atob publicKeyStr with
  | None => Throw InvalidCharacterError
  | Some keyData =>
      match spki_import keyData with
      | Some P => Ok P
      | None => Throw DataError
      end
  end.

Definition deriveSharedSecret (privateKey : nat) (peerPublicKey : Point)
    : AesKey :=
  ecdh_to_aes (point_mul privateKey peerPublicKey).

(** [byte.toString(16).padStart(2, '0')]. *)
Definition hex_digit (d : Z) : ascii :=
  default "0"%char
    (String.list_ascii_of_string "0123456789abcdef" !! Z.to_nat d).

Definition hex_byte (b : byte) : list ascii :=
  [hex_digit (byte_to_Z b `div` 16); hex_digit (byte_to_Z b `mod` 16)].

Definition generateSessionId (entropy : list byte) : string :=
  String.string_of_list_ascii
    (concat (map hex_byte (getRandomValues 16 entropy))).

(** The module-level store [sessionKeys]. *)
Definition storeSessionKey (sessionKeys : gmap string AesKey)
    (sessionId : string) (key : AesKey) : gmap string AesKey :=
  <[sessionId := key]> sessionKeys.

Definition getSessionKey (sessionKeys : gmap string AesKey)
    (sessionId : string) : option AesKey :=
  sessionKeys !! sessionId.

End KeyExchange.

(** ** lib/encryption.ts *)

Record FileEncryption := {
  fe_data : Blob;
  fe_key : string;
  fe_iv : list Z
}.

Record SecureFileEncryption := {
  sfe_data : Blob;
  sfe_iv : list Z;
  sfe_sessionId : string
}.

Section Encryption.
Context `{WebCrypto}.

Definition exportKey (key : AesKey) : string :=
  Base64.btoa (aes_export_raw key).

Definition importKey (keyStr : string) : result AesKey :=
  match Base64.atob keyStr with
  | None => Throw InvalidCharacterError
  | Some keyData =>
      match aes_import_raw keyData with
      | Some key => Ok key
      | None => Throw DataError
      end
  end.

(** [encryptFile]: [freshKey] is the key [generateEncryptionKey] draws and
    [entropy] feeds the 12-byte IV. *)
Definition encryptFile (freshKey : AesKey) (entropy : list byte)
    (file : File) : FileEncryption :=
  let iv := getRandomValues 12 entropy in
  let encryptedData := aes_gcm_encrypt freshKey iv (file_bytes file) in
  {| fe_data := new_Blob [encryptedData] "";
     fe_iv := Array_from iv;
     fe_key := exportKey freshKey |}.

Definition secureEncryptFile (sessionKeys : gmap string AesKey)
    (entropy : list byte) (file : File) (sessionId : string)
    : result SecureFileEncryption :=
  match getSessionKey sessionKeys sessionId with
  | None => Throw NoSessionKeyFound
  | Some key =>
      let iv := getRandomValues 12 entropy in
      let encryptedData := aes_gcm_encrypt key iv (file_bytes file) in
      Ok {| sfe_data := new_Blob [encryptedData] "";
            sfe_iv := Array_from iv;
            sfe_sessionId := sessionId |}
  end.

Definition decryptFile (encryptedBlob : Blob) (keyStr : string)
    (iv : list Z) (type : string) : result Blob :=
  key ← importKey keyStr;
  match aes_gcm_decrypt key (Uint8Array iv) (blob_bytes encryptedBlob) with
  | Some decryptedData => Ok (new_Blob [decryptedData] type)
  | None => Throw OperationError
  end.

Definition secureDecryptFile (sessionKeys : gmap string AesKey)
    (encryptedBlob : Blob) (sessionId : string) (iv : list Z)
    (type : string) : result Blob :=
  match getSessionKey sessionKeys sessionId with
  | None => Throw MissingSessionKey
  | Some key =>
      match
        aes_gcm_decrypt key (Uint8Array iv) (blob_bytes encryptedBlob)
      with
      | Some decryptedData => Ok (new_Blob [decryptedData] type)
      | None => Throw FailedToDecrypt
      end
  end.
End Encryption.

(** ** types.ts *)

Inductive Status :=
  | pending
  | transferring
  | completed
  | error
  | rejected
  | cancelled.

#[global] Instance Status_eq_dec : EqDecision Status.
Proof. solve_decision. Defined.

Record FileTransfer := {
  ft_id : string;
  ft_name : string;
  ft_size : Z;
  ft_type : string;
  ft_progress : Z;
  ft_status : Status;
  ft_blob : option Blob;
  ft_key : option string;
  ft_iv : option (list Z);
  ft_sessionId : option string;
  ft_estimatedTimeRemaining : option Z;
  ft_secure : option bool
}.

(** [{ ...t, progress, status: 'transferring', estimatedTimeRemaining }] *)
Definition ft_transferring_eta (progress : Z) (eta : option Z)
    (t : FileTransfer) : FileTransfer :=
  {| ft_id := ft_id t; ft_name := ft_name t; ft_size := ft_size t;
     ft_type := ft_type t; ft_progress := progress;
     ft_status := transferring; ft_blob := ft_blob t; ft_key := ft_key t;
     ft_iv := ft_iv t; ft_sessionId := ft_sessionId t;
     ft_estimatedTimeRemaining := eta; ft_secure := ft_secure t |}.

(** [{ ...t, progress, status: 'transferring' }] *)
Definition ft_transferring (progress : Z) (t : FileTransfer) : FileTransfer :=
  ft_transferring_eta progress (ft_estimatedTimeRemaining t) t.

(** [{ ...t, blob, progress: 100, status: 'completed' }] (receiver) and
    [{ ...t, progress: 100, status: 'completed' }] (sender). *)
Definition ft_completed (blob : option Blob) (t : FileTransfer)
    : FileTransfer :=
  {| ft_id := ft_id t; ft_name := ft_name t; ft_size := ft_size t;
     ft_type := ft_type t; ft_progress := 100;
     ft_status := completed; ft_blob := blob; ft_key := ft_key t;
     ft_iv := ft_iv t; ft_sessionId := ft_sessionId t;
     ft_estimatedTimeRemaining := ft_estimatedTimeRemaining t;
     ft_secure := ft_secure t |}.

(** [{ ...t, status: 'cancelled' }] *)
Definition ft_cancelled (t : FileTransfer) : FileTransfer :=
  {| ft_id := ft_id t; ft_name := ft_name t; ft_size := ft_size t;
     ft_type := ft_type t; ft_progress := ft_progress t;
     ft_status := cancelled; ft_blob := ft_blob t; ft_key := ft_key t;
     ft_iv := ft_iv t; ft_sessionId := ft_sessionId t;
     ft_estimatedTimeRemaining := ft_estimatedTimeRemaining t;
     ft_secure := ft_secure t |}.

(** [prev.map(t => t.id === fileId ? f(t) : t)] *)
Definition update_transfer (fileId : string) (f : FileTransfer → FileTransfer)
    (prev : list FileTransfer) : list FileTransfer :=
  map (λ t, if decide (ft_id t = fileId) then f t else t) prev.

(** [transfers.find(t => t.id === fileId)] *)
Definition find_transfer (fileId : string) (ts : list FileTransfer)
    : option FileTransfer :=
  snd <$> list_find (λ t, ft_id t = fileId) ts.

Record PendingTransfer := {
  pt_fileId : string;
  pt_fileName : string;
  pt_fileSize : Z;
  pt_fileType : string;
  pt_secure : bool
}.

(** The messages of the channel, by their [type] tag. *)
Inductive Msg :=
  | key_exchange_init (publicKey sessionId : string)
  | key_exchange_reply (publicKey sessionId : string)
  | key_exchange_complete (sessionId : string)
  | file_request (fileId fileName : string) (fileSize : Z) (fileType : string)
      (key : option string) (iv : option (list Z)) (sessionId : option string)
      (secure : bool)
  | file_accepted (fileId : string)
  | file_rejected (fileId : string)
  | file_start (fileId fileName : string) (fileSize : Z) (fileType : string)
      (key : option string) (iv : option (list Z)) (sessionId : option string)
      (secure : bool)
  | file_chunk (fileId : string) (chunk total : Z) (data : list byte)
  | chunk_ack (fileId : string) (chunk : Z)
  | file_complete (fileId : string)
  | file_cancel (fileId : string)
  | file_cancel_ack (fileId : string).

(** ** JavaScript counters and sparse arrays *)

(** The value of a numeric property: a number or [NaN]; an absent property
    reads as [undefined], here [None]. *)
Inductive jsnum :=
  | JNum (n : Z)
  | JNaN.

(** [v < limit]: false for [undefined] and [NaN]. *)
Definition js_lt (v : option jsnum) (limit : Z) : bool :=
  match v with
  | Some (JNum n) => (n <? limit)%Z
  | _ => false
  end.

(** The value [v++] stores. *)
Definition js_incr (v : option jsnum) : jsnum :=
  match v with
  | Some (JNum n) => JNum (n + 1)
  | _ => JNaN
  end.

(** [if (v) v--]: only a number other than 0 is truthy. *)
Definition js_decr_if_truthy (v : option jsnum) : option jsnum :=
  match v with
  | Some (JNum n) => if decide (n = 0%Z) then v else Some (JNum (n - 1))
  | _ => v
  end.

(** An array with holes: [None] is a hole. *)
Definition new_Array {A} (n : Z) : list (option A) :=
  replicate (Z.to_nat n) None.

(** [a[i] = x]: an index past the end extends the array with holes; a key
    that is not an array index only adds a property, which [filter] never
    visits. *)
Definition array_set {A} (a : list (option A)) (i : Z) (x : A)
    : list (option A) :=
  if decide (0 ≤ i < 2 ^ 32 - 1)%Z then
    <[Z.to_nat i := Some x]> (a ++ replicate (S (Z.to_nat i) - length a) None)
  else a.

(** [a.filter(chunk => chunk !== undefined)] *)
Definition array_defined {A} (a : list (option A)) : list A := omap id a.

(** ** App.tsx: the state of the component *)

Definition CHUNK_SIZE : Z := 2097152.
Definition MAX_CHUNKS_IN_FLIGHT : Z := 30.

(** The data connection [connRef.current]: whether it is open, and every
    message handed to its [send], oldest first. *)
Record Conn := {
  conn_open : bool;
  conn_sent : list Msg
}.

Section App.
Context `{WebCrypto}.

(** The refs and the state the transfer engine reads and writes.  State that
    only the rendering reads (the peer id fields, the preview list, the
    processing set, the displayed speed and connection quality, the transfer
    times, the modal flags) is left out.  [resolvedKeyExchanges] logs the
    calls of the [resolve] callbacks kept in [pendingKeyExchangeRef]. *)
Record AppState := {
  transfers : list FileTransfer;
  pendingTransfers : list PendingTransfer;
  transferSpeedRef : gmap string Q;
  fileChunksRef : gmap string (list (option (list byte)));
  chunksInFlightRef : gmap string jsnum;
  lastChunkTimeRef : Q;
  downloadBytesRef : Z;
  keyPairRef : option CryptoKeyPair;
  pendingKeyExchangeRef : gset string;
  resolvedKeyExchanges : list (string * bool);
  cancelledTransfersRef : gset string;
  connRef : option Conn;
  sessionKeys : gmap string AesKey
}.

Definition setTransfers (f : list FileTransfer → list FileTransfer)
    (st : AppState) : AppState :=
  {| transfers := f (transfers st);
     pendingTransfers := pendingTransfers st;
     transferSpeedRef := transferSpeedRef st;
     fileChunksRef := fileChunksRef st;
     chunksInFlightRef := chunksInFlightRef st;
     lastChunkTimeRef := lastChunkTimeRef st;
     downloadBytesRef := downloadBytesRef st;
     keyPairRef := keyPairRef st;
     pendingKeyExchangeRef := pendingKeyExchangeRef st;
     resolvedKeyExchanges := resolvedKeyExchanges st;
     cancelledTransfersRef := cancelledTransfersRef st;
     connRef := connRef st;
     sessionKeys := sessionKeys st |}.

Definition setPendingTransfers
    (f : list PendingTransfer → list PendingTransfer) (st : AppState)
    : AppState :=
  {| transfers := transfers st;
     pendingTransfers := f (pendingTransfers st);
     transferSpeedRef := transferSpeedRef st;
     fileChunksRef := fileChunksRef st;
     chunksInFlightRef := chunksInFlightRef st;
     lastChunkTimeRef := lastChunkTimeRef st;
     downloadBytesRef := downloadBytesRef st;
     keyPairRef := keyPairRef st;
     pendingKeyExchangeRef := pendingKeyExchangeRef st;
     resolvedKeyExchanges := resolvedKeyExchanges st;
     cancelledTransfersRef := cancelledTransfersRef st;
     connRef := connRef st;
     sessionKeys := sessionKeys st |}.

(** The three telemetry cells are written together by [updateSpeed]. *)
Definition set_telemetry (speeds : gmap string Q) (lastChunkTime : Q)
    (downloadBytes : Z) (st : AppState) : AppState :=
  {| transfers := transfers st;
     pendingTransfers := pendingTransfers st;
     transferSpeedRef := speeds;
     fileChunksRef := fileChunksRef st;
     chunksInFlightRef := chunksInFlightRef st;
     lastChunkTimeRef := lastChunkTime;
     downloadBytesRef := downloadBytes;
     keyPairRef := keyPairRef st;
     pendingKeyExchangeRef := pendingKeyExchangeRef st;
     resolvedKeyExchanges := resolvedKeyExchanges st;
     cancelledTransfersRef := cancelledTransfersRef st;
     connRef := connRef st;
     sessionKeys := sessionKeys st |}.

Definition set_fileChunksRef (m : gmap string (list (option (list byte))))
    (st : AppState) : AppState :=
  {| transfers := transfers st;
     pendingTransfers := pendingTransfers st;
     transferSpeedRef := transferSpeedRef st;
     fileChunksRef := m;
     chunksInFlightRef := chunksInFlightRef st;
     lastChunkTimeRef := lastChunkTimeRef st;
     downloadBytesRef := downloadBytesRef st;
     keyPairRef := keyPairRef st;
     pendingKeyExchangeRef := pendingKeyExchangeRef st;
     resolvedKeyExchanges := resolvedKeyExchanges st;
     cancelledTransfersRef := cancelledTransfersRef st;
     connRef := connRef st;
     sessionKeys := sessionKeys st |}.

Definition set_chunksInFlightRef (m : gmap string jsnum) (st : AppState)
    : AppState :=
  {| transfers := transfers st;
     pendingTransfers := pendingTransfers st;
     transferSpeedRef := transferSpeedRef st;
     fileChunksRef := fileChunksRef st;
     chunksInFlightRef := m;
     lastChunkTimeRef := lastChunkTimeRef st;
     downloadBytesRef := downloadBytesRef st;
     keyPairRef := keyPairRef st;
     pendingKeyExchangeRef := pendingKeyExchangeRef st;
     resolvedKeyExchanges := resolvedKeyExchanges st;
     cancelledTransfersRef := cancelledTransfersRef st;
     connRef := connRef st;
     sessionKeys := sessionKeys st |}.

(** The key-exchange cells: key pair, pending handles, resolutions, keys. *)
Definition set_keys (keyPair : option CryptoKeyPair) (pendingKex : gset string)
    (resolved : list (string * bool)) (keys : gmap string AesKey)
    (st : AppState) : AppState :=
  {| transfers := transfers st;
     pendingTransfers := pendingTransfers st;
     transferSpeedRef := transferSpeedRef st;
     fileChunksRef := fileChunksRef st;
     chunksInFlightRef := chunksInFlightRef st;
     lastChunkTimeRef := lastChunkTimeRef st;
     downloadBytesRef := downloadBytesRef st;
     keyPairRef := keyPair;
     pendingKeyExchangeRef := pendingKex;
     resolvedKeyExchanges := resolved;
     cancelledTransfersRef := cancelledTransfersRef st;
     connRef := connRef st;
     sessionKeys := keys |}.

Definition set_cancelledTransfersRef (c : gset string) (st : AppState)
    : AppState :=
  {| transfers := transfers st;
     pendingTransfers := pendingTransfers st;
     transferSpeedRef := transferSpeedRef st;
     fileChunksRef := fileChunksRef st;
     chunksInFlightRef := chunksInFlightRef st;
     lastChunkTimeRef := lastChunkTimeRef st;
     downloadBytesRef := downloadBytesRef st;
     keyPairRef := keyPairRef st;
     pendingKeyExchangeRef := pendingKeyExchangeRef st;
     resolvedKeyExchanges := resolvedKeyExchanges st;
     cancelledTransfersRef := c;
     connRef := connRef st;
     sessionKeys := sessionKeys st |}.

Definition set_connRef (c : option Conn) (st : AppState) : AppState :=
  {| transfers := transfers st;
     pendingTransfers := pendingTransfers st;
     transferSpeedRef := transferSpeedRef st;
     fileChunksRef := fileChunksRef st;
     chunksInFlightRef := chunksInFlightRef st;
     lastChunkTimeRef := lastChunkTimeRef st;
     downloadBytesRef := downloadBytesRef st;
     keyPairRef := keyPairRef st;
     pendingKeyExchangeRef := pendingKeyExchangeRef st;
     resolvedKeyExchanges := resolvedKeyExchanges st;
     cancelledTransfersRef := cancelledTransfersRef st;
     connRef := c;
     sessionKeys := sessionKeys st |}.

(** [connRef.current?.send(m)]: nothing happens without a connection. *)
Definition send (m : Msg) (st : AppState) : AppState :=
  match connRef st with
  | Some c =>
      set_connRef
        (Some {| conn_open := conn_open c; conn_sent := conn_sent c ++ [m] |})
        st
  | None => st
  end.

(** Every message handed to the channel so far. *)
Definition sent (st : AppState) : list Msg :=
  match connRef st with
  | Some c => conn_sent c
  | None => []
  end.

(** [connRef.current] is an object ([connRef.current.send] does not throw). *)
Definition connected (st : AppState) : bool :=
  match connRef st with
  | Some _ => true
  | None => false
  end.

Definition Qlt_bool (a b : Q) : bool := negb (Qle_bool b a).

(** *** [handleIncomingData]: the key exchange messages *)

(** [if (!keyPairRef.current) await generateAndStoreKeyPair()]; [secret] is
    the scalar a generation would draw. *)
Definition ensure_key_pair (secret : nat) (st : AppState)
    : AppState * CryptoKeyPair :=
  match keyPairRef st with
  | Some kp => (st, kp)
  | None =>
      let kp := generateKeyPair secret in
      (set_keys (Some kp) (pendingKeyExchangeRef st)
         (resolvedKeyExchanges st) (sessionKeys st) st, kp)
  end.

(** ['key-exchange-init']: every exception ends in the [catch], which only
    logs; what was written before it stays. *)
Definition on_key_exchange_init (secret : nat) (st : AppState)
    (publicKeyStr sessionId : string) : AppState :=
  let '(st, kp) := ensure_key_pair secret st in
  match importPublicKey publicKeyStr with
  | Throw _ => st
  | Ok peerPublicKey =>
      let sharedKey := deriveSharedSecret (privateKey kp) peerPublicKey in
      let st :=
        set_keys (keyPairRef st) (pendingKeyExchangeRef st)
          (resolvedKeyExchanges st)
          (storeSessionKey (sessionKeys st) sessionId sharedKey) st in
      send (key_exchange_reply (exportPublicKey (publicKey kp)) sessionId) st
  end.

(** [if (pendingKeyExchangeRef.current[sessionId]) { resolve(b); delete }] *)
Definition resolve_key_exchange (sessionId : string) (b : bool)
    (st : AppState) : AppState :=
  if decide (sessionId ∈ pendingKeyExchangeRef st) then
    set_keys (keyPairRef st) (pendingKeyExchangeRef st ∖ {[sessionId]})
      (resolvedKeyExchanges st ++ [(sessionId, b)]) (sessionKeys st) st
  else st.

(** ['key-exchange-reply']: an import failure, a missing key pair or a
    missing connection throws, and the [catch] resolves the handle with
    [false]. *)
Definition on_key_exchange_reply (st : AppState)
    (publicKeyStr sessionId : string) : AppState :=
  match importPublicKey publicKeyStr, keyPairRef st with
  | Ok peerPublicKey, Some kp =>
      let sharedKey := deriveSharedSecret (privateKey kp) peerPublicKey in
      let st :=
        set_keys (keyPairRef st) (pendingKeyExchangeRef st)
          (resolvedKeyExchanges st)
          (storeSessionKey (sessionKeys st) sessionId sharedKey) st in
      if connected st then
        resolve_key_exchange sessionId true
          (send (key_exchange_complete sessionId) st)
      else resolve_key_exchange sessionId false st
  | _, _ => resolve_key_exchange sessionId false st
  end.

(** *** [handleIncomingData]: the file messages *)

Definition on_file_request (st : AppState) (fileId fileName : string)
    (fileSize : Z) (fileType : string) (secure : bool) : AppState :=
  setPendingTransfers
    (λ prev, prev ++ [ {| pt_fileId := fileId; pt_fileName := fileName;
                          pt_fileSize := fileSize; pt_fileType := fileType;
                          pt_secure := secure |} ]) st.

(** ['file-start'].  [new Array(n)] throws a [RangeError] unless [n] is an
    array length; it is the first statement, so nothing is written then.
    The record of the transfer takes [key] and [iv] from the message. *)
Definition on_file_start (st : AppState) (fileId fileName : string)
    (fileSize : Z) (fileType : string) (key : option string)
    (iv : option (list Z)) : AppState :=
  let n := Math_ceil (inject_Z fileSize / inject_Z CHUNK_SIZE) in
  if decide (0 ≤ n < 2 ^ 32)%Z then
    let st := set_fileChunksRef (<[fileId := new_Array n]> (fileChunksRef st)) st in
    let st :=
      set_telemetry (<[fileId := 0%Q]> (transferSpeedRef st))
        (lastChunkTimeRef st) (downloadBytesRef st) st in
    setTransfers
      (λ prev, prev ++ [ {| ft_id := fileId; ft_name := fileName;
                            ft_size := fileSize; ft_type := fileType;
                            ft_progress := 0; ft_status := pending;
                            ft_blob := None; ft_key := key; ft_iv := iv;
                            ft_sessionId := None;
                            ft_estimatedTimeRemaining := None;
                            ft_secure := None |} ]) st
  else st.

(** The receiver's [updateSpeed]. *)
Definition updateSpeed_download (now : Q) (fileId : string) (st : AppState)
    : AppState :=
  let elapsedSeconds := ((now - lastChunkTimeRef st) / 1000)%Q in
  let speeds :=
    if Qlt_bool 0 elapsedSeconds
    then <[fileId := (inject_Z (downloadBytesRef st) / elapsedSeconds)%Q]>
           (transferSpeedRef st)
    else transferSpeedRef st in
  set_telemetry speeds now 0 st.

(** [transfers.find(...)?.type || 'application/octet-stream'] *)
Definition blob_type_for (fileId : string) (captured : list FileTransfer)
    : string :=
  match find_transfer fileId captured with
  | Some t => if decide (ft_type t = "") then "application/octet-stream"
              else ft_type t
  | None => "application/octet-stream"
  end.

(** ['file-chunk'].  [captured] is the [transfers] snapshot the handler
    closed over.  For [total = 0] the progress JavaScript computes is not a
    finite number; no statement below reads the progress of that case. *)
Definition on_file_chunk (captured : list FileTransfer) (now : Q)
    (st : AppState) (fileId : string) (chunk total : Z) (data : list byte)
    : AppState :=
  if decide (fileId ∈ cancelledTransfersRef st) then st
  else
    let slots := default [] (fileChunksRef st !! fileId) in
    let st :=
      set_fileChunksRef
        (<[fileId := array_set slots chunk data]> (fileChunksRef st)) st in
    let st :=
      set_telemetry (transferSpeedRef st) (lastChunkTimeRef st)
        (downloadBytesRef st + Z.of_nat (length data)) st in
    let st :=
      if (chunk <? 5)%Z || Qlt_bool 1000 (now - lastChunkTimeRef st)
      then updateSpeed_download now fileId st
      else st in
    let progress :=
      Math_round (inject_Z ((chunk + 1) * 100) / inject_Z total) in
    let st :=
      match find_transfer fileId captured with
      | Some transfer =>
          let estimatedTimeRemaining :=
            calculateEstimatedTimeRemaining (transferSpeedRef st) fileId
              progress (ft_size transfer) in
          setTransfers
            (update_transfer fileId
               (ft_transferring_eta progress estimatedTimeRemaining)) st
      | None =>
          setTransfers (update_transfer fileId (ft_transferring progress)) st
      end in
    let st :=
      if decide (fileId ∈ cancelledTransfersRef st) then st
      else send (chunk_ack fileId chunk) st in
    if decide (chunk = total - 1)%Z then
      let chunks := array_defined (default [] (fileChunksRef st !! fileId)) in
      let blob := new_Blob chunks (blob_type_for fileId captured) in
      let st :=
        setTransfers (update_transfer fileId (ft_completed (Some blob))) st in
      set_fileChunksRef (delete fileId (fileChunksRef st)) st
    else st.

(** ['chunk-ack'] *)
Definition on_chunk_ack (st : AppState) (fileId : string) : AppState :=
  match js_decr_if_truthy (chunksInFlightRef st !! fileId) with
  | Some v => set_chunksInFlightRef (<[fileId := v]> (chunksInFlightRef st)) st
  | None => st
  end.

(** ['file-cancel'] *)
Definition on_file_cancel (st : AppState) (fileId : string) : AppState :=
  let st :=
    set_cancelledTransfersRef ({[fileId]} ∪ cancelledTransfersRef st) st in
  let st := setTransfers (update_transfer fileId ft_cancelled) st in
  let st := set_fileChunksRef (delete fileId (fileChunksRef st)) st in
  let st := set_chunksInFlightRef (delete fileId (chunksInFlightRef st)) st in
  send (file_cancel_ack fileId) st.

(** The ['data'] handler registered by [setupConnection].  The tags
    ['file-accepted'], ['file-rejected'] and ['file-complete'] match no
    branch; ['key-exchange-complete'] and ['file-cancel-ack'] only log. *)
Definition handleIncomingData (captured : list FileTransfer) (now : Q)
    (secret : nat) (st : AppState) (data : Msg) : AppState :=
  match data with
  | key_exchange_init publicKey sessionId =>
      on_key_exchange_init secret st publicKey sessionId
  | key_exchange_reply publicKey sessionId =>
      on_key_exchange_reply st publicKey sessionId
  | key_exchange_complete _ => st
  | file_request fileId fileName fileSize fileType _ _ _ secure =>
      on_file_request st fileId fileName fileSize fileType secure
  | file_start fileId fileName fileSize fileType key iv _ _ =>
      on_file_start st fileId fileName fileSize fileType key iv
  | file_chunk fileId chunk total data =>
      on_file_chunk captured now st fileId chunk total data
  | chunk_ack fileId _ => on_chunk_ack st fileId
  | file_cancel fileId => on_file_cancel st fileId
  | file_cancel_ack _ => st
  | file_accepted _ | file_rejected _ | file_complete _ => st
  end.

(** *** The user's actions on a transfer *)

Definition acceptFileTransfer (st : AppState) (fileId : string) : AppState :=
  match list_find (λ p, pt_fileId p = fileId) (pendingTransfers st) with
  | Some _ =>
      if connected st then
        setPendingTransfers (filter (λ p, pt_fileId p ≠ fileId))
          (send (file_accepted fileId) st)
      else st
  | None => st
  end.

Definition rejectFileTransfer (st : AppState) (fileId : string) : AppState :=
  if connected st then
    setPendingTransfers (filter (λ p, pt_fileId p ≠ fileId))
      (send (file_rejected fileId) st)
  else st.

Definition cancelFileTransfer (st : AppState) (fileId : string) : AppState :=
  if connected st then
    let st :=
      set_cancelledTransfersRef ({[fileId]} ∪ cancelledTransfersRef st) st in
    let st := send (file_cancel fileId) st in
    let st := setTransfers (update_transfer fileId ft_cancelled) st in
    set_chunksInFlightRef (delete fileId (chunksInFlightRef st)) st
  else st.

(** *** The chunk pump of [startFileTransfer] and [startSecureFileTransfer]

    Both functions carry the same [sendChunk] and [processNextChunks]; the
    closure is the record [Pump].  [processNextChunks] suspends at
    [await slice.arrayBuffer()] inside [sendChunk] ([Reading]) and between
    two calls scheduled by [setTimeout] ([Sleeping]); once the loop is left
    with every chunk sent no call is scheduled ([Finished]). *)

Inductive Phase :=
  | Sleeping
  | Reading
  | Finished.

#[global] Instance Phase_eq_dec : EqDecision Phase.
Proof. solve_decision. Defined.

Record Pump := {
  pump_blob : Blob;
  pump_fileId : string;
  pump_totalChunks : Z;
  pump_currentChunk : Z;
  pump_lastUpdateTime : Q;
  pump_bytesTransferred : Z;
  pump_transfers : list FileTransfer;
  pump_phase : Phase
}.

Definition set_phase (ph : Phase) (p : Pump) : Pump :=
  {| pump_blob := pump_blob p; pump_fileId := pump_fileId p;
     pump_totalChunks := pump_totalChunks p;
     pump_currentChunk := pump_currentChunk p;
     pump_lastUpdateTime := pump_lastUpdateTime p;
     pump_bytesTransferred := pump_bytesTransferred p;
     pump_transfers := pump_transfers p; pump_phase := ph |}.

(** The locals [currentChunk], [lastUpdateTime] and [bytesTransferred]
    after one chunk. *)
Definition advance (lastUpdateTime : Q) (bytesTransferred : Z) (p : Pump)
    : Pump :=
  {| pump_blob := pump_blob p; pump_fileId := pump_fileId p;
     pump_totalChunks := pump_totalChunks p;
     pump_currentChunk := pump_currentChunk p + 1;
     pump_lastUpdateTime := lastUpdateTime;
     pump_bytesTransferred := bytesTransferred;
     pump_transfers := pump_transfers p; pump_phase := pump_phase p |}.

(** [Math.ceil(encryptedBlob.size / CHUNK_SIZE)] *)
Definition totalChunks_of (size : Z) : Z :=
  Math_ceil (inject_Z size / inject_Z CHUNK_SIZE).

(** The bytes [sendChunk(chunkIndex)] reads:
    [encryptedBlob.slice(start, Math.min(start + CHUNK_SIZE, size))]. *)
Definition chunk_bytes (blob : Blob) (chunkIndex : Z) : list byte :=
  let start := (chunkIndex * CHUNK_SIZE)%Z in
  let stop := Z.min (start + CHUNK_SIZE) (blob_size blob) in
  blob_bytes (blob_slice blob start stop).

(** The message [sendChunk(chunkIndex)] hands to the channel. *)
Definition chunk_message (p : Pump) (chunkIndex : Z) : Msg :=
  file_chunk (pump_fileId p) chunkIndex (pump_totalChunks p)
    (chunk_bytes (pump_blob p) chunkIndex).

(** The condition of the [while] and the two cancellation tests that follow
    it; the second reads the [transfers] the closure captured. *)
Definition loop_guard (st : AppState) (p : Pump) : bool :=
  (pump_currentChunk p <? pump_totalChunks p)%Z
  && js_lt (chunksInFlightRef st !! pump_fileId p) MAX_CHUNKS_IN_FLIGHT.

Definition sees_cancelled (st : AppState) (p : Pump) : bool :=
  bool_decide (pump_fileId p ∈ cancelledTransfersRef st)
  || match find_transfer (pump_fileId p) (pump_transfers p) with
     | Some t => bool_decide (ft_status t = cancelled)
     | None => false
     end.

(** Leaving the loop: [if (currentChunk < totalChunks) setTimeout(...)]. *)
Definition loop_exit (p : Pump) : Pump :=
  if (pump_currentChunk p <? pump_totalChunks p)%Z
  then set_phase Sleeping p
  else set_phase Finished p.

(** [processNextChunks] from the head of the loop to its next suspension. *)
Definition loop_head (st : AppState) (p : Pump) : Pump :=
  if loop_guard st p && negb (sees_cancelled st p)
  then set_phase Reading p
  else loop_exit p.

(** [sendChunk] after the read: the send, the counter, the speed sample. *)
Definition sendChunk (now : Q) (st : AppState) (p : Pump)
    : AppState * Pump :=
  let fileId := pump_fileId p in
  let chunkIndex := pump_currentChunk p in
  let buffer := chunk_bytes (pump_blob p) chunkIndex in
  let st := send (chunk_message p chunkIndex) st in
  let st :=
    set_chunksInFlightRef
      (<[fileId := js_incr (chunksInFlightRef st !! fileId)]>
         (chunksInFlightRef st)) st in
  let bytesTransferred :=
    (pump_bytesTransferred p + Z.of_nat (length buffer))%Z in
  if (chunkIndex <? 5)%Z || Qlt_bool 1000 (now - pump_lastUpdateTime p) then
    let elapsedSeconds := ((now - pump_lastUpdateTime p) / 1000)%Q in
    let speeds :=
      if Qlt_bool 0 elapsedSeconds
      then <[fileId := (inject_Z bytesTransferred / elapsedSeconds)%Q]>
             (transferSpeedRef st)
      else transferSpeedRef st in
    (set_telemetry speeds (lastChunkTimeRef st) (downloadBytesRef st) st,
     advance now 0 p)
  else (st, advance (pump_lastUpdateTime p) bytesTransferred p).

(** The rest of the iteration once [await sendChunk(currentChunk)] returns,
    and on to the next suspension. *)
Definition after_read (now : Q) (st : AppState) (p : Pump)
    : AppState * Pump :=
  let fileId := pump_fileId p in
  let '(st, p) := sendChunk now st p in
  let progress :=
    Math_round (inject_Z (pump_currentChunk p * 100)
                / inject_Z (pump_totalChunks p)) in
  let estimatedTimeRemaining :=
    calculateEstimatedTimeRemaining (transferSpeedRef st) fileId progress
      (blob_size (pump_blob p)) in
  let st :=
    setTransfers
      (update_transfer fileId
         (ft_transferring_eta progress estimatedTimeRemaining)) st in
  if decide (pump_currentChunk p = pump_totalChunks p) then
    let st := send (file_complete fileId) st in
    let st :=
      setTransfers (update_transfer fileId (λ t, ft_completed (ft_blob t) t))
        st in
    let st :=
      set_chunksInFlightRef (delete fileId (chunksInFlightRef st)) st in
    (st, loop_exit p)
  else (st, loop_head st p).

(** *** Starting a transfer *)

(** What both start functions do after they have written their record and
    sent their ['file-start']: the counter, the locals, the first call of
    [processNextChunks]. *)
Definition start_pump (captured : list FileTransfer) (now : Q)
    (st : AppState) (encryptedBlob : Blob) (fileId : string)
    : AppState * Pump :=
  let st :=
    set_chunksInFlightRef (<[fileId := JNum 0]> (chunksInFlightRef st)) st in
  let p :=
    {| pump_blob := encryptedBlob; pump_fileId := fileId;
       pump_totalChunks := totalChunks_of (blob_size encryptedBlob);
       pump_currentChunk := 0; pump_lastUpdateTime := now;
       pump_bytesTransferred := 0; pump_transfers := captured;
       pump_phase := Sleeping |} in
  (st, loop_head st p).

(** [startFileTransfer].  [connRef.current.send] throws when there is no
    connection: the record is written, nothing is sent, no pump starts. *)
Definition startFileTransfer (captured : list FileTransfer) (now : Q)
    (st : AppState) (encryptedBlob : Blob) (fileId fileName fileType : string)
    (key : option string) (iv : option (list Z))
    : AppState * option Pump :=
  let st :=
    setTransfers
      (λ prev, prev ++ [ {| ft_id := fileId; ft_name := fileName;
                            ft_size := blob_size encryptedBlob;
                            ft_type := fileType; ft_progress := 0;
                            ft_status := pending; ft_blob := None;
                            ft_key := key; ft_iv := iv; ft_sessionId := None;
                            ft_estimatedTimeRemaining := None;
                            ft_secure := None |} ]) st in
  if connected st then
    let st :=
      send (file_start fileId fileName (blob_size encryptedBlob) fileType
              key iv None false) st in
    let '(st, p) := start_pump captured now st encryptedBlob fileId in
    (st, Some p)
  else (st, None).

Definition startSecureFileTransfer (captured : list FileTransfer) (now : Q)
    (st : AppState) (encryptedBlob : Blob) (fileId fileName fileType : string)
    (sessionId : string) (iv : option (list Z))
    : AppState * option Pump :=
  let st :=
    setTransfers
      (λ prev, prev ++ [ {| ft_id := fileId; ft_name := fileName;
                            ft_size := blob_size encryptedBlob;
                            ft_type := fileType; ft_progress := 0;
                            ft_status := pending; ft_blob := None;
                            ft_key := None; ft_iv := iv;
                            ft_sessionId := Some sessionId;
                            ft_estimatedTimeRemaining := None;
                            ft_secure := Some true |} ]) st in
  if connected st then
    let st :=
      send (file_start fileId fileName (blob_size encryptedBlob) fileType
              None iv (Some sessionId) true) st in
    let '(st, p) := start_pump captured now st encryptedBlob fileId in
    (st, Some p)
  else (st, None).

(** *** [sendFile] *)

(** The closure of [handleResponse]: the locals of the [sendFile] call that
    registered it. *)
Record Listener := {
  l_file : File;
  l_fileId : string;
  l_encryptedData : Blob;
  l_key : option string;
  l_iv : option (list Z);
  l_sessionId : option string;
  l_secure : bool;
  l_transfers : list FileTransfer
}.

(** What [await initiateKeyExchange(sessionId)] gave: the handle resolved
    with [true] or with [false], or the call threw. *)
Inductive KeyExchangeResult :=
  | KexResolved (success : bool)
  | KexThrew.

(** The randomness one [sendFile] call may draw. *)
Record SendEntropy := {
  ent_sessionId : list byte;
  ent_key : AesKey;
  ent_iv : list byte
}.

(** [sendFile] from its first line to the ['file-request'] message: the
    choice between the session key and a fresh literal key. *)
Definition sendFile_encrypt (secureMode : bool) (kex : KeyExchangeResult)
    (ent : SendEntropy) (keys : gmap string AesKey) (file : File)
    : Blob * option string * list Z * option string * bool :=
  let exchangeSessionId := generateSessionId (ent_sessionId ent) in
  let legacy :=
    let e := encryptFile (ent_key ent) (ent_iv ent) file in
    (fe_data e, Some (fe_key e), fe_iv e, None, false) in
  if secureMode then
    match kex with
    | KexResolved true =>
        match secureEncryptFile keys (ent_iv ent) file exchangeSessionId with
        | Ok e => (sfe_data e, None, sfe_iv e, Some exchangeSessionId, true)
        | Throw _ => legacy
        end
    | _ => legacy
    end
  else legacy.

Definition request_of (file : File) (fileId : string)
    (enc : Blob * option string * list Z * option string * bool) : Msg :=
  let '(encryptedData, key, iv, sessionId, secure) := enc in
  file_request fileId (file_name file) (blob_size encryptedData)
    (file_type file) key (Some iv) sessionId secure.

Definition listener_of (captured : list FileTransfer) (file : File)
    (fileId : string)
    (enc : Blob * option string * list Z * option string * bool)
    : Listener :=
  let '(encryptedData, key, iv, sessionId, secure) := enc in
  {| l_file := file; l_fileId := fileId; l_encryptedData := encryptedData;
     l_key := key; l_iv := Some iv; l_sessionId := sessionId;
     l_secure := secure; l_transfers := captured |}.

(** [sendFile]: [Throw] when there is no open connection, else the state
    after the request and the listener now registered. *)
Definition sendFile (captured : list FileTransfer) (secureMode : bool)
    (kex : KeyExchangeResult) (ent : SendEntropy) (st : AppState)
    (file : File) (fileId : string) : result (AppState * Listener) :=
  match connRef st with
  | Some c =>
      if conn_open c then
        let enc := sendFile_encrypt secureMode kex ent (sessionKeys st) file in
        Ok (send (request_of file fileId enc) st,
            listener_of captured file fileId enc)
      else Throw NoActiveConnection
  | None => Throw NoActiveConnection
  end.

(** [initiateKeyExchange] up to the promise it returns. *)
Definition initiateKeyExchange (secret : nat) (st : AppState)
    (sessionId : string) : result AppState :=
  match connRef st with
  | Some c =>
      if conn_open c then
        let '(st, kp) := ensure_key_pair secret st in
        let st :=
          send (key_exchange_init (exportPublicKey (publicKey kp)) sessionId)
            st in
        Ok (set_keys (keyPairRef st) ({[sessionId]} ∪ pendingKeyExchangeRef st)
              (resolvedKeyExchanges st) (sessionKeys st) st)
      else Throw NoActiveConnection
  | None => Throw NoActiveConnection
  end.

(** What a call of [handleResponse] did with the promise of [sendFile]. *)
Inductive Outcome :=
  | Waiting
  | Resolved (accepted : bool).

(** [secure && sessionId]: the empty string is falsy. *)
Definition truthy (s : option string) : bool :=
  match s with
  | Some x => bool_decide (x ≠ "")
  | None => false
  end.

(** [handleResponse].  Where [connRef.current.send] or [connRef.current.off]
    throws, [off] and [resolve] are not reached. *)
Definition handleResponse (now : Q) (st : AppState) (l : Listener)
    (data : Msg) : AppState * option Pump * Outcome :=
  match data with
  | file_accepted fileId =>
      if decide (fileId = l_fileId l) then
        let '(st, started) :=
          match l_secure l && truthy (l_sessionId l), l_sessionId l with
          | true, Some sessionId =>
              startSecureFileTransfer (l_transfers l) now st
                (l_encryptedData l) (l_fileId l) (file_name (l_file l))
                (file_type (l_file l)) sessionId (l_iv l)
          | _, _ =>
              startFileTransfer (l_transfers l) now st (l_encryptedData l)
                (l_fileId l) (file_name (l_file l)) (file_type (l_file l))
                (l_key l) (l_iv l)
          end in
        match started with
        | Some p => (st, Some p, Resolved true)
        | None => (st, None, Waiting)
        end
      else (st, None, Waiting)
  | file_rejected fileId =>
      if decide (fileId = l_fileId l) then
        let st :=
          setTransfers
            (λ prev, prev ++ [ {| ft_id := l_fileId l;
                                  ft_name := file_name (l_file l);
                                  ft_size := file_size (l_file l);
                                  ft_type := file_type (l_file l);
                                  ft_progress := 0; ft_status := rejected;
                                  ft_blob := None; ft_key := None;
                                  ft_iv := None; ft_sessionId := None;
                                  ft_estimatedTimeRemaining := None;
                                  ft_secure := None |} ]) st in
        (st, None, if connected st then Resolved false else Waiting)
      else (st, None, Waiting)
  | _ => (st, None, Waiting)
  end.

(** *** The engine as a transition system

    One state: the refs, the pump closures alive and the response listeners
    registered on the connection.  One event: one atomic segment of a
    handler. *)

Record Sys := {
  sys_app : AppState;
  sys_pumps : list Pump;
  sys_listeners : list Listener;
  sys_resolved : list (string * bool)
}.

Inductive Event :=
  (** a message arrives; [captured] is the [transfers] snapshot of the
      ['data'] handler, [secret] the scalar of a key pair drawn on demand *)
  | Recv (captured : list FileTransfer) (now : Q) (secret : nat) (m : Msg)
  (** the timer of the [k]-th pump fires *)
  | TimerFires (k : nat)
  (** the read the [k]-th pump awaits completes *)
  | ReadDone (k : nat) (now : Q)
  (** the user accepts, rejects or cancels *)
  | AcceptClicked (fileId : string)
  | RejectClicked (fileId : string)
  | CancelClicked (fileId : string)
  (** [initiateKeyExchange] runs *)
  | KeyExchangeStarted (secret : nat) (sessionId : string)
  (** a [sendFile] call reaches its ['file-request'] *)
  | FileSent (captured : list FileTransfer) (secureMode : bool)
      (kex : KeyExchangeResult) (ent : SendEntropy) (file : File)
      (fileId : string).

Definition set_app (st : AppState) (s : Sys) : Sys :=
  {| sys_app := st; sys_pumps := sys_pumps s;
     sys_listeners := sys_listeners s; sys_resolved := sys_resolved s |}.

(** The listeners see the message in the order of their registration. *)
Fixpoint deliver (now : Q) (m : Msg) (st : AppState) (ls : list Listener)
    : AppState * list Pump * list Listener * list (string * bool) :=
  match ls with
  | [] => (st, [], [], [])
  | l :: ls' =>
      let '(st, started, outcome) := handleResponse now st l m in
      let '(st, ps, keep, res) := deliver now m st ls' in
      match outcome with
      | Waiting => (st, option_list started ++ ps, l :: keep, res)
      | Resolved b =>
          (st, option_list started ++ ps, keep, (l_fileId l, b) :: res)
      end
  end.

Definition step (s : Sys) (e : Event) : Sys :=
  match e with
  | Recv captured now secret m =>
      let st := handleIncomingData captured now secret (sys_app s) m in
      let '(st, ps, keep, res) := deliver now m st (sys_listeners s) in
      {| sys_app := st; sys_pumps := sys_pumps s ++ ps;
         sys_listeners := keep; sys_resolved := sys_resolved s ++ res |}
  | TimerFires k =>
      match sys_pumps s !! k with
      | Some p =>
          if decide (pump_phase p = Sleeping) then
            {| sys_app := sys_app s;
               sys_pumps := <[k := loop_head (sys_app s) p]> (sys_pumps s);
               sys_listeners := sys_listeners s;
               sys_resolved := sys_resolved s |}
          else s
      | None => s
      end
  | ReadDone k now =>
      match sys_pumps s !! k with
      | Some p =>
          if decide (pump_phase p = Reading) then
            let '(st, p) := after_read now (sys_app s) p in
            {| sys_app := st; sys_pumps := <[k := p]> (sys_pumps s);
               sys_listeners := sys_listeners s;
               sys_resolved := sys_resolved s |}
          else s
      | None => s
      end
  | AcceptClicked fileId => set_app (acceptFileTransfer (sys_app s) fileId) s
  | RejectClicked fileId => set_app (rejectFileTransfer (sys_app s) fileId) s
  | CancelClicked fileId => set_app (cancelFileTransfer (sys_app s) fileId) s
  | KeyExchangeStarted secret sessionId =>
      match initiateKeyExchange secret (sys_app s) sessionId with
      | Ok st => set_app st s
      | Throw _ => s
      end
  | FileSent captured secureMode kex ent file fileId =>
      match sendFile captured secureMode kex ent (sys_app s) file fileId with
      | Ok (st, l) =>
          {| sys_app := st; sys_pumps := sys_pumps s;
             sys_listeners := sys_listeners s ++ [l];
             sys_resolved := sys_resolved s |}
      | Throw _ => s
      end
  end.

Definition run (s : Sys) (trace : list Event) : Sys := foldl step s trace.

(** The transfer ids that closures of the state hold. *)
Definition live_ids (s : Sys) : list string :=
  (pump_fileId <$> sys_pumps s) ++ (l_fileId <$> sys_listeners s).

(** [sendFile] is called with an id no live closure holds (the ids are
    drawn at random by [handleSendFiles]). *)
Definition fresh_event (s : Sys) (e : Event) : Prop :=
  match e with
  | FileSent _ _ _ _ _ fileId => fileId ∉ live_ids s
  | _ => True
  end.

Fixpoint fresh_trace (s : Sys) (trace : list Event) : Prop :=
  match trace with
  | [] => True
  | e :: trace' => fresh_event s e ∧ fresh_trace (step s e) trace'
  end.

(** *** FileTransferItem.tsx: the download *)

(** [handleDownload]: [None] when it returns at once for want of a blob or
    an IV, else the decrypted blob or the exception the [catch] reports. *)
Definition handleDownload (keys : gmap string AesKey) (t : FileTransfer)
    : option (result Blob) :=
  match ft_blob t, ft_iv t with
  | Some blob, Some iv =>
      Some
        (match default false (ft_secure t) && truthy (ft_sessionId t),
               ft_sessionId t with
         | true, Some sessionId =>
             secureDecryptFile keys blob sessionId iv (ft_type t)
         | _, _ =>
             match ft_key t with
             | Some key =>
                 if decide (key = "") then Throw MissingEncryptionInfo
                 else decryptFile blob key iv (ft_type t)
             | None => Throw MissingEncryptionInfo
             end
         end)
  | _, _ => None
  end.

End App.

(** ** The contracts of the platform *)

(** AES-GCM as authenticated encryption: a key survives its raw export,
    which is not empty (it has 16, 24 or 32 bytes), decryption inverts
    encryption under the same key and IV, and the tag check rejects every
    other key. *)
Class AesGcmLaws `{WebCrypto} : Prop := {
  aes_import_export k : aes_import_raw (aes_export_raw k) = Some k;
  aes_export_nonempty k : aes_export_raw k ≠ [];
  aes_gcm_decrypt_encrypt k iv p :
    aes_gcm_decrypt k iv (aes_gcm_encrypt k iv p) = Some p;
  aes_gcm_wrong_key k k' iv p :
    k' ≠ k → aes_gcm_decrypt k' iv (aes_gcm_encrypt k iv p) = None
}.

(** The curve points under addition: associative, with a left neutral
    element. *)
Class CurveLaws `{WebCrypto} : Prop := {
  point_add_assoc P Q R :
    point_add P (point_add Q R) = point_add (point_add P Q) R;
  point_add_zero_l P : point_add point_zero P = P
}.

(** A public key survives its SubjectPublicKeyInfo export. *)
Class SpkiLaws `{WebCrypto} : Prop := {
  spki_import_export P : spki_import (spki_export P) = Some P
}.

(** A small instance of the platform, to run the engine on: a key is one
    byte and travels in front of the plaintext as the tag; the curve group
    is the integers under addition. *)
#[global] Instance toy_crypto : WebCrypto := {|
  AesKey := byte;
  aes_export_raw k := [k];
  aes_import_raw raw := match raw with [k] => Some k | _ => None end;
  aes_gcm_encrypt k iv p := k :: p;
  aes_gcm_decrypt k iv c :=
    match c with
    | tag :: p => if Byte.byte_eq_dec tag k then Some p else None
    | [] => None
    end;
  Point := Z;
  point_add := Z.add;
  point_zero := 0%Z;
  point_base := 1%Z;
  spki_export P := [Z_to_byte P];
  spki_import raw := match raw with [b] => Some (byte_to_Z b) | _ => None end;
  ecdh_to_aes P := Z_to_byte P
|}.

Definition is_octet (z : Z) : Prop := (0 ≤ z < 256)%Z.
Definition is_sextet (z : Z) : Prop := (0 ≤ z < 64)%Z.


(** ** The vocabulary of the properties *)

(** A counter of [chunksInFlightRef] that holds a number holds one within
    the window, respectively strictly inside it. *)
Definition counter_ok (v : option jsnum) : Prop :=
  match v with
  | Some (JNum n) => (0 ≤ n ≤ MAX_CHUNKS_IN_FLIGHT)%Z
  | _ => True
  end.

Definition counter_below (v : option jsnum) : Prop :=
  match v with
  | Some (JNum n) => (0 ≤ n < MAX_CHUNKS_IN_FLIGHT)%Z
  | _ => True
  end.

Section Invariants.
Context `{WebCrypto}.

(** The window invariant: every counter is within the window, a pump that
    is reading its next chunk found its counter strictly inside, and no two
    closures hold the same transfer id. *)
Definition window_inv (s : Sys) : Prop :=
  (∀ fileId, counter_ok (chunksInFlightRef (sys_app s) !! fileId))
  ∧ (∀ k p, sys_pumps s !! k = Some p → pump_phase p = Reading →
       counter_below (chunksInFlightRef (sys_app s) !! pump_fileId p))
  ∧ NoDup (live_ids s).

(** A freshly mounted component with a connection. *)
Definition initial_app (open : bool) : AppState :=
  {| transfers := []; pendingTransfers := []; transferSpeedRef := ∅;
     fileChunksRef := ∅; chunksInFlightRef := ∅; lastChunkTimeRef := 0;
     downloadBytesRef := 0; keyPairRef := None; pendingKeyExchangeRef := ∅;
     resolvedKeyExchanges := []; cancelledTransfersRef := ∅;
     connRef := Some {| conn_open := open; conn_sent := [] |};
     sessionKeys := ∅ |}.

Definition initial_sys : Sys :=
  {| sys_app := initial_app true; sys_pumps := []; sys_listeners := [];
     sys_resolved := [] |}.

End Invariants.

(** What one message may do to a counter: nothing, the decrement of an
    acknowledgement, or the deletion of a cancellation. *)
Definition counter_step (v v' : option jsnum) : Prop :=
  v' = v ∨ v' = js_decr_if_truthy v ∨ v' = None.

Section Emissions.
Context `{WebCrypto}.

(** From [st] to [st'] the messages [extra] were handed to the channel, in
    this order, and the connection object stayed. *)
Definition emits (st st' : AppState) (extra : list Msg) : Prop :=
  sent st' = sent st ++ extra ∧ connected st' = connected st.

(** The one message a pump sends to open its transfer. *)
Definition start_message (l : Listener) : Msg :=
  match l_secure l && truthy (l_sessionId l), l_sessionId l with
  | true, Some sessionId =>
      file_start (l_fileId l) (file_name (l_file l))
        (blob_size (l_encryptedData l)) (file_type (l_file l)) None (l_iv l)
        (Some sessionId) true
  | _, _ =>
      file_start (l_fileId l) (file_name (l_file l))
        (blob_size (l_encryptedData l)) (file_type (l_file l)) (l_key l)
        (l_iv l) None false
  end.

(** Which event of which state hands the message [x] to the channel:
    - a chunk and the completion notice come from a pump whose read
      completes, the chunk being the one at its [currentChunk];
    - the start of a transfer comes from a registered listener that sees
      its acceptance;
    - an acknowledgement answers a chunk of a transfer that is not
      cancelled, and a cancellation acknowledgement a cancellation;
    - the rest: the user's answers and the key exchange. *)
Definition emitted_by (s : Sys) (e : Event) (x : Msg) : Prop :=
  match x with
  | file_chunk _ _ _ _ =>
      ∃ k now p, e = ReadDone k now ∧ sys_pumps s !! k = Some p
                 ∧ pump_phase p = Reading
                 ∧ x = chunk_message p (pump_currentChunk p)
  | file_complete fileId =>
      ∃ k now p, e = ReadDone k now ∧ sys_pumps s !! k = Some p
                 ∧ pump_phase p = Reading ∧ pump_fileId p = fileId
                 ∧ (pump_currentChunk p + 1 = pump_totalChunks p)%Z
  | file_start fileId _ _ _ _ _ _ _ =>
      ∃ captured now secret l,
        e = Recv captured now secret (file_accepted fileId)
        ∧ l ∈ sys_listeners s ∧ x = start_message l
  | chunk_ack fileId chunk =>
      ∃ captured now secret total data,
        e = Recv captured now secret (file_chunk fileId chunk total data)
        ∧ fileId ∉ cancelledTransfersRef (sys_app s)
  | file_cancel_ack fileId =>
      ∃ captured now secret, e = Recv captured now secret (file_cancel fileId)
  | file_cancel fileId => e = CancelClicked fileId
  | file_accepted fileId => e = AcceptClicked fileId
  | file_rejected fileId => e = RejectClicked fileId
  | file_request fileId _ _ _ _ _ _ _ =>
      ∃ captured secureMode kex ent file,
        e = FileSent captured secureMode kex ent file fileId
  | key_exchange_init _ sessionId =>
      ∃ secret, e = KeyExchangeStarted secret sessionId
  | key_exchange_reply _ sessionId =>
      ∃ captured now secret publicKey,
        e = Recv captured now secret (key_exchange_init publicKey sessionId)
  | key_exchange_complete sessionId =>
      ∃ captured now secret publicKey,
        e = Recv captured now secret (key_exchange_reply publicKey sessionId)
  end.

End Emissions.

(** The chunk messages of one transfer. *)
Definition is_chunk_of (fileId : string) (m : Msg) : Prop :=
  match m with
  | file_chunk f _ _ _ => f = fileId
  | _ => False
  end.

#[global] Instance is_chunk_of_dec fileId m : Decision (is_chunk_of fileId m).
Proof. destruct m; simpl; apply _. Defined.

Section ChunkInvariant.
Context `{WebCrypto}.

(** The chunk messages of the transfer [fileId] handed to the channel so
    far, oldest first. *)
Definition chunks_sent (fileId : string) (st : AppState) : list Msg :=
  filter (is_chunk_of fileId) (sent st).




End ChunkInvariant.

Section LosslessRun.
Context `{WebCrypto}.



(** The pump is about to read, nothing is in flight, and neither the
    cancellation set nor the snapshot it closed over says cancelled. *)
Definition ready_to_pump (s : Sys) (k : nat) (p : Pump) : Prop :=
  sys_pumps s !! k = Some p
  ∧ pump_phase p = Reading
  ∧ chunksInFlightRef (sys_app s) !! pump_fileId p = Some (JNum 0)
  ∧ sees_cancelled (sys_app s) p = false.

End LosslessRun.

(** ** A sample run *)

(** [connRef.current && connRef.current.open] *)
Definition connection_open `{WebCrypto} (st : AppState) : bool :=
  match connRef st with
  | Some c => conn_open c
  | None => false
  end.

Section Sample.

(** A three-byte file sent with a literal key over the toy platform, its
    acceptance, the read of its only chunk and the acknowledgement. *)
Definition sample_file : File :=
  {| file_name := "notes.txt"; file_type := "text/plain";
     file_bytes := [Byte.x68; Byte.x69; Byte.x21] |}.

Definition sample_entropy : SendEntropy (H := toy_crypto) :=
  {| ent_sessionId := [Byte.x0a; Byte.x0b]; ent_key := Byte.x2a;
     ent_iv := [Byte.x01; Byte.x02; Byte.x03] |}.



Definition sample_trace : list (Event (H := toy_crypto)) :=
  [ FileSent [] false (KexResolved false) sample_entropy sample_file "f1";
    Recv [] 0 0 (file_accepted "f1");
    ReadDone 0 1;
    Recv [] 2 0 (chunk_ack "f1" 0) ].

End Sample.

(** The acknowledgements of the chunks of one transfer. *)
Definition is_ack_of (fileId : string) (m : Msg) : Prop :=
  match m with
  | chunk_ack f _ => f = fileId
  | _ => False
  end.

#[global] Instance is_ack_of_dec fileId m : Decision (is_ack_of fileId m).
Proof. destruct m; simpl; apply _. Defined.

Section CancelVocabulary.
Context `{WebCrypto}.


(** The chunk bytes the reassembly buffer holds for a transfer. *)
Definition buffered (fileId : string) (st : AppState) : list (list byte) :=
  array_defined (default [] (fileChunksRef st !! fileId)).

(** The refs of the receiving side that only the ['data'] handler writes. *)
Definition same_buffers (st st' : AppState) : Prop :=
  cancelledTransfersRef st' = cancelledTransfersRef st
  ∧ fileChunksRef st' = fileChunksRef st.

End CancelVocabulary.

(** The start and the chunks of one transfer. *)
Definition is_start_or_chunk_of (fileId : string) (m : Msg) : Prop :=
  match m with
  | file_start f _ _ _ _ _ _ _ => f = fileId
  | file_chunk f _ _ _ => f = fileId
  | _ => False
  end.

#[global] Instance is_start_or_chunk_of_dec fileId m :
  Decision (is_start_or_chunk_of fileId m).
Proof. destruct m; simpl; apply _. Defined.

Section RejectVocabulary.
Context `{WebCrypto}.







End RejectVocabulary.

(** ** The receiving side of one transfer *)

Section Arrivals.
Context `{WebCrypto}.

(** The ['file-chunk'] messages of one transfer as they arrive on an ordered
    channel: the chunk of index [i] first, each with the time of its
    arrival and its bytes. *)
Fixpoint chunk_events (captured : list FileTransfer) (fileId : string)
    (total : Z) (i : Z) (arrivals : list (Q * list byte)) : list Event :=
  match arrivals with
  | [] => []
  | a :: rest =>
      Recv captured a.1 0 (file_chunk fileId i total a.2)
      :: chunk_events captured fileId total (i + 1) rest
  end.

(** The record of an inbound transfer once its last chunk is in: what
    ['file-start'] wrote, completed, with the blob. *)
Definition received_record (fileId fileName : string) (fileSize : Z)
    (fileType : string) (key : option string) (iv : option (list Z))
    (blob : Blob) (eta : option Z) : FileTransfer :=
  {| ft_id := fileId; ft_name := fileName; ft_size := fileSize;
     ft_type := fileType; ft_progress := 100; ft_status := completed;
     ft_blob := Some blob; ft_key := key; ft_iv := iv; ft_sessionId := None;
     ft_estimatedTimeRemaining := eta; ft_secure := None |}.

End Arrivals.

(** The chunks of [blob] as its pump cuts them, each with the time of its
    arrival at the peer. *)
Definition blob_arrivals (blob : Blob) (times : list Q)
    : list (Q * list byte) :=
  zip times (chunk_bytes blob <$> seqZ 0 (totalChunks_of (blob_size blob))).

(** ** Cancelling on the sending side *)

Section CancelSender.
Context `{WebCrypto}.

(** The pumps of a transfer that are suspended on the read of a chunk. *)
Definition reading_pumps (fileId : string) (s : Sys) : list Pump :=
  filter (λ p, pump_fileId p = fileId ∧ pump_phase p = Reading) (sys_pumps s).

End CancelSender.

(** ** The key exchange *)

(** The key pair of the component, if it has one, was made by
    [generateKeyPair]: its public key is the multiple of the generator by
    its private scalar. *)
Definition key_pair_valid `{WebCrypto} (st : AppState) : Prop :=
  ∀ kp, keyPairRef st = Some kp →
        publicKey kp = point_mul (privateKey kp) point_base.

(** A second small instance of the platform, with a curve group that
    survives its export: the group of two elements. *)
Definition parity_crypto : WebCrypto := {|
  AesKey := byte;
  aes_export_raw k := [k];
  aes_import_raw raw := match raw with [k] => Some k | _ => None end;
  aes_gcm_encrypt k iv p := k :: p;
  aes_gcm_decrypt k iv c :=
    match c with
    | tag :: p => if Byte.byte_eq_dec tag k then Some p else None
    | [] => None
    end;
  Point := bool;
  point_add := xorb;
  point_zero := false;
  point_base := true;
  spki_export P := [if P then Byte.x01 else Byte.x00];
  spki_import raw :=
    match raw with
    | [b] => if Byte.byte_eq_dec b Byte.x01 then Some true
             else if Byte.byte_eq_dec b Byte.x00 then Some false else None
    | _ => None
    end;
  ecdh_to_aes P := if P then Byte.x01 else Byte.x00
|}.

(** ** App.tsx: the connection quality *)




Module ConnectionQuality.
Inductive t :=
  | good
  | fair
  | poor.
End ConnectionQuality.




(** ** FileTransferItem.tsx: the times shown *)

(** A template literal prints an integer below [10^21] in decimal
    ([pretty]). *)
Definition formatTimeRemaining (timeMs : Z) : string :=
  if (timeMs <? 1000)%Z then "Less than 1s"
  else
    let seconds := (timeMs `div` 1000)%Z in
    if (seconds <? 60)%Z then pretty seconds +:+ "s remaining"
    else
      let minutes := (seconds `div` 60)%Z in
      let remainingSeconds := (seconds `mod` 60)%Z in
      if (minutes <? 60)%Z then
        pretty minutes +:+ "m " +:+ pretty remainingSeconds +:+ "s remaining"
      else
        let hours := (minutes `div` 60)%Z in
        let remainingMinutes := (minutes `mod` 60)%Z in
        pretty hours +:+ "h " +:+ pretty remainingMinutes +:+ "m remaining".

(** [formatTransferTime].  [transferTime] is the entry of [transferTimes]
    for the transfer, with its [start] and [end] if they are set; an [end]
    of 0 is falsy, and without a [start] the duration is [NaN]. *)
Definition formatTransferTime (transfer : FileTransfer)
    (transferTime : option (option Z * option Z)) : string :=
  let unfinished :=
    if decide (ft_status transfer = transferring) then
      match ft_estimatedTimeRemaining transfer with
      | Some timeMs => formatTimeRemaining timeMs
      | None => "Calculating time..."
      end
    else if decide (ft_status transfer = pending) then "Waiting to start..."
    else if decide (ft_status transfer = cancelled) then "Cancelled"
    else "In progress" in
  match transferTime with
  | Some (start, Some end_) =>
      if decide (end_ = 0%Z) then unfinished
      else
        match start with
        | None => "NaNm NaNs"
        | Some start =>
            let durationMs := (end_ - start)%Z in
            if (durationMs <? 1000)%Z then pretty durationMs +:+ "ms"
            else
              let seconds := (durationMs `div` 1000)%Z in
              if (seconds <? 60)%Z then pretty seconds +:+ "s"
              else
                pretty (seconds `div` 60)%Z +:+ "m "
                +:+ pretty (seconds `mod` 60)%Z +:+ "s"
        end
  | _ => unfinished
  end.

(** ** The answers of the ['data'] handler *)

(** [x] answers [m]: a reply to a ['key-exchange-init'], a completion to a
    ['key-exchange-reply'], an acknowledgement to a chunk of a transfer
    that is not cancelled, a cancellation acknowledgement to a
    cancellation. *)
Definition answers `{WebCrypto} (st : AppState) (m x : Msg) : Prop :=
  match m with
  | key_exchange_init _ sessionId =>
      ∃ publicKey, x = key_exchange_reply publicKey sessionId
  | key_exchange_reply _ sessionId => x = key_exchange_complete sessionId
  | file_chunk fileId chunk _ _ =>
      x = chunk_ack fileId chunk ∧ fileId ∉ cancelledTransfersRef st
  | file_cancel fileId => x = file_cancel_ack fileId
  | _ => False
  end.

(** ** A transfer of more than thirty chunks *)

(** Sixty-five million bytes: 31 chunks of 2 MiB. *)
Definition big_blob : Blob :=
  {| blob_bytes := replicate (Z.to_nat 65000000) Byte.x00; blob_type := "" |}.

(** The state right after [startFileTransfer] of a blob on a fresh, open
    connection, and the pump it has started. *)
Definition streaming_sys (blob : Blob) : Sys (H := toy_crypto) :=
  let r :=
    startFileTransfer [] 0 (initial_app true) blob "f1" "big.bin"
      "application/octet-stream" (Some "2a") (Some [1; 2; 3]%Z) in
  {| sys_app := r.1; sys_pumps := option_list r.2; sys_listeners := [];
     sys_resolved := [] |}.

Definition streaming_pump (blob : Blob) : Pump :=
  {| pump_blob := blob; pump_fileId := "f1";
     pump_totalChunks := totalChunks_of (blob_size blob);
     pump_currentChunk := 0; pump_lastUpdateTime := 0;
     pump_bytesTransferred := 0; pump_transfers := [];
     pump_phase := Reading |}.

(** * Properties *)

(** ** Base64 round trip *)

Import Base64.

Section list_ind3.
Context {A : Type} (P : list A → Prop).
Hypothesis H0 : P [].
Hypothesis H1 : ∀ a, P [a].
Hypothesis H2 : ∀ a b, P [a; b].
Hypothesis H3 : ∀ a b c r, P r → P (a :: b :: c :: r).

(** Induction on a list three elements at a time. *)
Lemma list_ind3 l : P l.
Proof.
  assert (∀ n l, length l ≤ n → P l) as Hn; [|by eapply Hn].
  clear l. induction n as [|n IH]; intros l Hl.
  - destruct l; [done | simpl in Hl; lia].
  - destruct l as [|a [|b [|c r]]]; auto.
    apply H3, IH. simpl in Hl. lia.
Qed.
End list_ind3.

Lemma byte_to_Z_octet b : is_octet (byte_to_Z b).
Proof.
  unfold is_octet, byte_to_Z. pose proof (Byte.to_N_bounded b). lia.
Qed.

Lemma Z_to_byte_to_Z b : Z_to_byte (byte_to_Z b) = b.
Proof.
  unfold Z_to_byte. pose proof (byte_to_Z_octet b) as Hb. unfold is_octet in Hb.
  rewrite Z.mod_small by lia. unfold byte_to_Z. rewrite N2Z.id.
  by rewrite Byte.of_to_N.
Qed.

Ltac octet_hyps H :=
  repeat (let Hx := fresh "Hx" in apply Forall_cons in H as [Hx H]);
  unfold is_octet, is_sextet in *.

Lemma sextets_range l : Forall is_octet l → Forall is_sextet (sextets l).
Proof.
  induction l as [| a | a b | a b c r IH] using list_ind3; intros Hl; simpl;
    octet_hyps Hl; repeat (apply Forall_cons_2; [Z.div_mod_to_equations; lia|]); auto.
Qed.

Lemma octets_sextets l : Forall is_octet l → octets (sextets l) = l.
Proof.
  induction l as [| a | a b | a b c r IH] using list_ind3; intros Hl; simpl;
    octet_hyps Hl; rewrite ?IH by done; repeat (f_equal; try (Z.div_mod_to_equations; lia)).
Qed.

Lemma sextets_length l :
  ∃ q k, length l = 3 * q + k ∧ k < 3 ∧
         length (sextets l) = 4 * q + (if decide (k = 0) then 0 else S k).
Proof.
  induction l as [| a | a b | a b c r IH] using list_ind3.
  - exists 0, 0. case_decide; cbn; lia.
  - exists 0, 1. case_decide; cbn; lia.
  - exists 0, 2. case_decide; cbn; lia.
  - destruct IH as (q & k & Hl & Hk & Hs). exists (S q), k.
    cbn [length sextets]. rewrite Hl, Hs. case_decide; lia.
Qed.

(** A decidable property of every sextet is checked on the 64 of them. *)
Lemma forall_sextet (P : Z → Prop) `{!∀ s, Decision (P s)} :
  forallb (λ s, bool_decide (P s)) (seqZ 0 64) = true →
  ∀ s, is_sextet s → P s.
Proof.
  intros Hall s Hs. rewrite forallb_forall in Hall.
  eapply bool_decide_eq_true_1, Hall, list_elem_of_In, elem_of_seqZ.
  unfold is_sextet in Hs. lia.
Qed.

Lemma value_digit s : is_sextet s → value (digit s) = Some s.
Proof.
  revert s. apply (forall_sextet (λ s, value (digit s) = Some s)).
  by vm_compute.
Qed.

Lemma digit_not_eq s : is_sextet s → digit s ≠ "="%char.
Proof.
  revert s. apply (forall_sextet (λ s, digit s ≠ "="%char)). by vm_compute.
Qed.

Lemma digit_not_whitespace s : is_sextet s → is_whitespace (digit s) = false.
Proof.
  revert s. apply (forall_sextet (λ s, is_whitespace (digit s) = false)).
  by vm_compute.
Qed.

Lemma mapM_value_digit l : Forall is_sextet l → mapM value (map digit l) = Some l.
Proof.
  induction 1 as [|s l Hs _ IH]; [done|].
  simpl. rewrite value_digit by done. simpl. by rewrite IH.
Qed.

Lemma filter_Forall_id {A} (P : A → Prop) `{!∀ x, Decision (P x)} (l : list A) :
  Forall P l → filter P l = l.
Proof.
  induction 1 as [|x l Hx _ IH]; [done|].
  rewrite filter_cons_True by done. by rewrite IH.
Qed.

Lemma padding_length n : length (padding n) = (3 - n `mod` 3) `mod` 3.
Proof. apply length_replicate. Qed.

Lemma strip_padding_digits (ds : list ascii) k :
  Forall (λ c, c ≠ "="%char) ds → k ≤ 2 →
  (length ds + k) `mod` 4 = 0 →
  strip_padding (ds ++ replicate k "="%char) = ds.
Proof.
  intros Hds Hk Hlen. unfold strip_padding.
  rewrite length_app, length_replicate, decide_True by done.
  rewrite reverse_app, reverse_replicate.
  apply Forall_reverse in Hds.
  assert (drop_eq (reverse ds) = reverse ds) as Hfix.
  { destruct (reverse ds) as [|c r]; [done|]. simpl.
    apply Forall_cons in Hds as [Hc _]. by rewrite decide_False. }
  destruct k as [|[|[|k]]]; simpl; [| | |lia].
  - by rewrite !Hfix, reverse_involutive.
  - by rewrite Hfix, reverse_involutive.
  - by rewrite reverse_involutive.
Qed.

Lemma atob_btoa data : atob (btoa data) = Some data.
Proof.
  unfold atob, btoa.
  rewrite String.list_ascii_of_string_of_list_ascii.
  set (zs := map byte_to_Z data).
  assert (Forall is_octet zs) as Hzs.
  { apply Forall_map, Forall_forall. intros b _. apply byte_to_Z_octet. }
  pose proof (sextets_range _ Hzs) as Hss.
  destruct (sextets_length zs) as (q & k & Hl & Hk & Hs).
  assert (length zs = length data) as Hzd by apply length_map.
  rewrite filter_Forall_id.
  2:{ apply Forall_app. split.
      - apply Forall_map. eapply Forall_impl; [exact Hss|].
        intros s ?. by apply digit_not_whitespace.
      - apply Forall_replicate. done. }
  unfold padding. rewrite strip_padding_digits.
  - rewrite length_map, Hs, decide_False.
    2:{ destruct (decide (k = 0)); [subst|]; intros Hm.
        - rewrite Nat.add_0_r, Nat.mul_comm, Nat.Div0.mod_mul in Hm. lia.
        - assert (k = 1 ∨ k = 2) as [-> | ->] by lia.
          + replace (4 * q + 2) with (2 + q * 4) in Hm by lia.
            rewrite Nat.Div0.mod_add in Hm. done.
          + replace (4 * q + 3) with (3 + q * 4) in Hm by lia.
            rewrite Nat.Div0.mod_add in Hm. done. }
    rewrite mapM_value_digit by done. simpl.
    rewrite octets_sextets by done. unfold zs.
    rewrite map_map. f_equal.
    rewrite <- (map_id data) at 2. apply map_ext. intros b. apply Z_to_byte_to_Z.
  - apply Forall_map. eapply Forall_impl; [exact Hss|].
    intros s ?. by apply digit_not_eq.
  - pose proof (Nat.mod_upper_bound (3 - length data `mod` 3) 3). lia.
  - rewrite length_map, Hs, <- Hzd, Hl.
    replace ((3 * q + k) `mod` 3) with k.
    2:{ replace (3 * q + k) with (k + q * 3) by lia.
        rewrite Nat.Div0.mod_add. by rewrite Nat.mod_small. }
    assert ((3 - k) `mod` 3 = if decide (k = 0) then 0 else 3 - k) as ->.
    { destruct k as [|[|[|k]]]; [done..|lia]. }
    case_decide.
    + replace (4 * q + 0 + 0) with (q * 4) by lia. apply Nat.Div0.mod_mul.
    + replace (4 * q + S k + (3 - k)) with ((q + 1) * 4) by lia.
      apply Nat.Div0.mod_mul.
Qed.

(** ** The toy platform keeps the AES-GCM and curve contracts *)

Lemma toy_aes_laws : @AesGcmLaws toy_crypto.
Proof.
  split; simpl.
  - done.
  - done.
  - intros k iv p. by destruct (Byte.byte_eq_dec k k).
  - intros k k' iv p Hk. by destruct (Byte.byte_eq_dec k k').
Qed.

Lemma toy_curve_laws : @CurveLaws toy_crypto.
Proof. split; simpl; intros; lia. Qed.

(** ** Typed arrays *)

Lemma Uint8Array_Array_from a : Uint8Array (Array_from a) = a.
Proof.
  unfold Uint8Array, Array_from. rewrite map_map.
  rewrite <- (map_id a) at 2. apply map_ext. intros b. apply Z_to_byte_to_Z.
Qed.

Lemma getRandomValues_length n entropy : length (getRandomValues n entropy) = n.
Proof.
  unfold getRandomValues. rewrite length_take, length_app, length_replicate. lia.
Qed.

Lemma blob_bytes_new_Blob_1 bytes type :
  blob_bytes (new_Blob [bytes] type) = bytes.
Proof. simpl. apply app_nil_r. Qed.

(** ** lib/encryption.ts *)

Section EncryptionProps.
Context `{WebCrypto} {aes_laws : AesGcmLaws}.

Lemma importKey_exportKey key : importKey (exportKey key) = Ok key.
Proof.
  unfold importKey, exportKey. rewrite atob_btoa. by rewrite aes_import_export.
Qed.

Lemma decryptFile_encryptFile key entropy file type :
  decryptFile (fe_data (encryptFile key entropy file))
    (fe_key (encryptFile key entropy file))
    (fe_iv (encryptFile key entropy file)) type
  = Ok (new_Blob [file_bytes file] type).
Proof.
  unfold decryptFile. cbn [encryptFile fe_data fe_key fe_iv].
  rewrite importKey_exportKey. cbn [mbind result_bind].
  rewrite Uint8Array_Array_from, blob_bytes_new_Blob_1.
  by rewrite aes_gcm_decrypt_encrypt.
Qed.

Lemma decryptFile_wrong_key key entropy file type keyStr' key' :
  importKey keyStr' = Ok key' → key' ≠ key →
  decryptFile (fe_data (encryptFile key entropy file)) keyStr'
    (fe_iv (encryptFile key entropy file)) type
  = Throw OperationError.
Proof.
  intros Himp Hne. unfold decryptFile. rewrite Himp.
  cbn [mbind result_bind encryptFile fe_data fe_iv].
  rewrite Uint8Array_Array_from, blob_bytes_new_Blob_1.
  by rewrite aes_gcm_wrong_key.
Qed.

(** C1. Decrypting what [encryptFile] or [secureEncryptFile] produced, with
    the same key and the IV that came with it, gives back the plaintext byte
    for byte, and the IV has 96 bits; with a different key the decryption
    returns no plaintext: it throws the error of the failed tag check. *)
Theorem encrypt_decrypt_round_trip
    (key : AesKey) (entropy : list byte) (file : File) (type : string)
    (sessionId : string) (keys : gmap string AesKey) :
  (* the literal-key pair *)
  (length (Uint8Array (fe_iv (encryptFile key entropy file))) = 12
   ∧ decryptFile (fe_data (encryptFile key entropy file))
       (fe_key (encryptFile key entropy file))
       (fe_iv (encryptFile key entropy file)) type
     = Ok (new_Blob [file_bytes file] type)
   ∧ ∀ keyStr' key', importKey keyStr' = Ok key' → key' ≠ key →
       decryptFile (fe_data (encryptFile key entropy file)) keyStr'
         (fe_iv (encryptFile key entropy file)) type
       = Throw OperationError)
  (* the session-key pair *)
  ∧ ∃ e, secureEncryptFile (<[sessionId := key]> keys) entropy file sessionId
         = Ok e
      ∧ length (Uint8Array (sfe_iv e)) = 12
      ∧ secureDecryptFile (<[sessionId := key]> keys) (sfe_data e) sessionId
          (sfe_iv e) type
        = Ok (new_Blob [file_bytes file] type)
      ∧ ∀ key', key' ≠ key →
          secureDecryptFile (<[sessionId := key']> keys) (sfe_data e)
            sessionId (sfe_iv e) type
          = Throw FailedToDecrypt.
Proof.
  split.
  - split; [|split].
    + cbn [encryptFile fe_iv]. rewrite Uint8Array_Array_from.
      apply getRandomValues_length.
    + apply decryptFile_encryptFile.
    + intros. by eapply decryptFile_wrong_key.
  - unfold secureEncryptFile, secureDecryptFile, getSessionKey.
    rewrite lookup_insert_eq. eexists. split; [reflexivity|].
    cbn [sfe_data sfe_iv].
    rewrite !Uint8Array_Array_from, !blob_bytes_new_Blob_1.
    split; [apply getRandomValues_length|].
    split.
    + by rewrite ?lookup_insert_eq, aes_gcm_decrypt_encrypt.
    + intros key' Hne. by rewrite ?lookup_insert_eq, aes_gcm_wrong_key.
Qed.

End EncryptionProps.

Lemma encrypt_decrypt_round_trip_witness :
  (length (Uint8Array (fe_iv (encryptFile (H := toy_crypto) Byte.x2a [Byte.x01] sample_file))) = 12
   ∧ decryptFile (fe_data (encryptFile (H := toy_crypto) Byte.x2a [Byte.x01] sample_file))
       (fe_key (encryptFile (H := toy_crypto) Byte.x2a [Byte.x01] sample_file))
       (fe_iv (encryptFile (H := toy_crypto) Byte.x2a [Byte.x01] sample_file)) "text/plain"
     = Ok (new_Blob [file_bytes sample_file] "text/plain")
   ∧ ∀ keyStr' key', importKey keyStr' = Ok key' → key' ≠ Byte.x2a →
       decryptFile (fe_data (encryptFile (H := toy_crypto) Byte.x2a [Byte.x01] sample_file)) keyStr'
         (fe_iv (encryptFile (H := toy_crypto) Byte.x2a [Byte.x01] sample_file)) "text/plain"
       = Throw OperationError)
  ∧ ∃ e, secureEncryptFile (<["abc123" := Byte.x2a]> ∅) [Byte.x01] sample_file "abc123"
         = Ok e
      ∧ length (Uint8Array (sfe_iv e)) = 12
      ∧ secureDecryptFile (<["abc123" := Byte.x2a]> ∅) (sfe_data e) "abc123"
          (sfe_iv e) "text/plain"
        = Ok (new_Blob [file_bytes sample_file] "text/plain")
      ∧ ∀ key', key' ≠ Byte.x2a →
          secureDecryptFile (<["abc123" := key']> ∅) (sfe_data e)
            "abc123" (sfe_iv e) "text/plain"
          = Throw FailedToDecrypt.
Proof.
  exact (encrypt_decrypt_round_trip (aes_laws := toy_aes_laws)
           Byte.x2a [Byte.x01] sample_file "text/plain" "abc123" ∅).
Defined.

(** ** The session-key store and [secureDecryptFile] *)

Section SessionKeyProps.
Context `{WebCrypto}.





End SessionKeyProps.

(** ** ECDH *)

Section EcdhProps.
Context `{WebCrypto} {curve_laws : CurveLaws}.

Lemma point_mul_add m n P :
  point_mul (m + n) P = point_add (point_mul m P) (point_mul n P).
Proof.
  induction m as [|m IH]; simpl.
  - by rewrite point_add_zero_l.
  - by rewrite IH, point_add_assoc.
Qed.

Lemma point_mul_mul m n P : point_mul m (point_mul n P) = point_mul (m * n) P.
Proof.
  induction m as [|m IH]; simpl; [done|].
  by rewrite IH, point_mul_add.
Qed.

Lemma point_mul_comm m n P :
  point_mul m (point_mul n P) = point_mul n (point_mul m P).
Proof. by rewrite !point_mul_mul, Nat.mul_comm. Qed.

Lemma deriveSharedSecret_comm a b :
  deriveSharedSecret (privateKey (generateKeyPair a))
    (publicKey (generateKeyPair b))
  = deriveSharedSecret (privateKey (generateKeyPair b))
      (publicKey (generateKeyPair a)).
Proof.
  unfold deriveSharedSecret. simpl. by rewrite point_mul_comm.
Qed.

Context {aes_laws : AesGcmLaws}.

(** C8. For two key pairs generated from any two secrets, each peer's
    [deriveSharedSecret] on its own private key and the other's public key
    gives the same AES-GCM key, so what one peer encrypts under its derived
    key the other decrypts under its own. *)
Theorem deriveSharedSecret_agree (a b : nat) (iv plaintext : list byte) :
  let A := generateKeyPair a in
  let B := generateKeyPair b in
  deriveSharedSecret (privateKey A) (publicKey B)
  = deriveSharedSecret (privateKey B) (publicKey A)
  ∧ aes_gcm_decrypt (deriveSharedSecret (privateKey B) (publicKey A)) iv
      (aes_gcm_encrypt (deriveSharedSecret (privateKey A) (publicKey B)) iv
         plaintext)
    = Some plaintext.
Proof.
  intros A B. split; [apply deriveSharedSecret_comm|].
  unfold A, B. rewrite deriveSharedSecret_comm.
  apply aes_gcm_decrypt_encrypt.
Qed.

End EcdhProps.

Lemma deriveSharedSecret_agree_witness :
  deriveSharedSecret (H := toy_crypto) (privateKey (generateKeyPair 3))
    (publicKey (generateKeyPair 5))
  = deriveSharedSecret (privateKey (generateKeyPair 5))
      (publicKey (generateKeyPair 3))
  ∧ aes_gcm_decrypt
      (deriveSharedSecret (privateKey (generateKeyPair 5))
         (publicKey (generateKeyPair 3))) [Byte.x01]
      (aes_gcm_encrypt
         (deriveSharedSecret (privateKey (generateKeyPair 3))
            (publicKey (generateKeyPair 5))) [Byte.x01] [Byte.x68; Byte.x69])
    = Some [Byte.x68; Byte.x69].
Proof.
  exact (deriveSharedSecret_agree (curve_laws := toy_curve_laws)
           (aes_laws := toy_aes_laws) 3 5 [Byte.x01] [Byte.x68; Byte.x69]).
Defined.

(** ** Telemetry *)




Lemma Qle_bool_false a b : Qle_bool a b = false ↔ (b < a)%Q.
Proof.
  split.
  - intros Hf. apply Qnot_le_lt. intros Hle.
    apply Qle_bool_iff in Hle. congruence.
  - intros Hlt. destruct (Qle_bool a b) eqn:Hb; [|done].
    apply Qle_bool_iff in Hb. lra.
Qed.



(** ** How the handlers touch the refs *)

Section Frames.
Context `{WebCrypto}.

Lemma send_chunksInFlightRef m st :
  chunksInFlightRef (send m st) = chunksInFlightRef st.
Proof. unfold send. by destruct (connRef st). Qed.

Lemma send_cancelledTransfersRef m st :
  cancelledTransfersRef (send m st) = cancelledTransfersRef st.
Proof. unfold send. by destruct (connRef st). Qed.

Lemma send_fileChunksRef m st : fileChunksRef (send m st) = fileChunksRef st.
Proof. unfold send. by destruct (connRef st). Qed.

Lemma send_transfers m st : transfers (send m st) = transfers st.
Proof. unfold send. by destruct (connRef st). Qed.

Lemma send_transferSpeedRef m st :
  transferSpeedRef (send m st) = transferSpeedRef st.
Proof. unfold send. by destruct (connRef st). Qed.

Lemma send_sessionKeys m st : sessionKeys (send m st) = sessionKeys st.
Proof. unfold send. by destruct (connRef st). Qed.

Lemma connected_send m st : connected (send m st) = connected st.
Proof.
  unfold send, connected. destruct (connRef st) eqn:E; simpl; by rewrite ?E.
Qed.

Lemma sent_send m st :
  connected st = true → sent (send m st) = sent st ++ [m].
Proof.
  unfold send, sent, connected. by destruct (connRef st) eqn:E.
Qed.

Lemma sent_send_cases m st :
  sent (send m st) = sent st ++ (if connected st then [m] else []).
Proof.
  unfold send, sent, connected.
  destruct (connRef st) eqn:E; simpl; by rewrite ?E.
Qed.

End Frames.

(** ** The window of chunks in flight *)

Lemma counter_step_ok v v' : counter_step v v' → counter_ok v → counter_ok v'.
Proof.
  intros [-> | [-> | ->]] Hv; [done| |done].
  destruct v as [[n|]|]; simpl in *; [|done..].
  case_decide; simpl; unfold MAX_CHUNKS_IN_FLIGHT in *; lia.
Qed.

Lemma counter_step_below v v' :
  counter_step v v' → counter_below v → counter_below v'.
Proof.
  intros [-> | [-> | ->]] Hv; [done| |done].
  destruct v as [[n|]|]; simpl in *; [|done..].
  case_decide; simpl; unfold MAX_CHUNKS_IN_FLIGHT in *; lia.
Qed.

Lemma counter_below_ok v : counter_below v → counter_ok v.
Proof. destruct v as [[n|]|]; simpl; [lia|done..]. Qed.

Lemma js_lt_below v :
  js_lt v MAX_CHUNKS_IN_FLIGHT = true → counter_ok v → counter_below v.
Proof. destruct v as [[n|]|]; simpl; [lia|done..]. Qed.

Lemma js_incr_ok v : counter_below v → counter_ok (Some (js_incr v)).
Proof. destruct v as [[n|]|]; simpl; [lia|done..]. Qed.

Section Window.
Context `{WebCrypto}.

Lemma ensure_key_pair_chunksInFlightRef secret st :
  chunksInFlightRef (ensure_key_pair secret st).1 = chunksInFlightRef st.
Proof. unfold ensure_key_pair. by destruct (keyPairRef st). Qed.

Lemma resolve_key_exchange_chunksInFlightRef sessionId b st :
  chunksInFlightRef (resolve_key_exchange sessionId b st)
  = chunksInFlightRef st.
Proof. unfold resolve_key_exchange. by case_decide. Qed.

Lemma handleIncomingData_counter captured now secret st m fileId :
  counter_step (chunksInFlightRef st !! fileId)
    (chunksInFlightRef (handleIncomingData captured now secret st m)
       !! fileId).
Proof.
  destruct m; simpl; try by left.
  - (* key-exchange-init *)
    unfold on_key_exchange_init.
    pose proof (ensure_key_pair_chunksInFlightRef secret st) as He.
    destruct (ensure_key_pair secret st) as [st1 kp]. simpl in He.
    destruct (importPublicKey _); rewrite ?send_chunksInFlightRef;
      simpl; rewrite He; by left.
  - (* key-exchange-reply *)
    unfold on_key_exchange_reply.
    repeat case_match;
      rewrite ?resolve_key_exchange_chunksInFlightRef,
        ?send_chunksInFlightRef; by left.
  - (* file-start *)
    unfold on_file_start. case_decide; by left.
  - (* file-chunk *)
    unfold on_file_chunk, updateSpeed_download.
    repeat (case_decide || case_match); simpl;
      rewrite ?send_chunksInFlightRef; by left.
  - (* chunk-ack *)
    unfold on_chunk_ack.
    destruct (js_decr_if_truthy (chunksInFlightRef st !! fileId0)) eqn:Hd;
      simpl.
    + destruct (decide (fileId = fileId0)) as [->|Hne].
      * rewrite lookup_insert_eq. right; left. done.
      * rewrite lookup_insert_ne by done. by left.
    + by left.
  - (* file-cancel *)
    unfold on_file_cancel. rewrite send_chunksInFlightRef. simpl.
    destruct (decide (fileId = fileId0)) as [->|Hne].
    + rewrite lookup_delete_eq. by right; right.
    + rewrite lookup_delete_ne by done. by left.
Qed.

End Window.

Lemma NoDup_submseteq_inv {A} (l k : list A) : l ⊆+ k → NoDup k → NoDup l.
Proof.
  intros [k' Hk]%submseteq_Permutation Hnd. rewrite Hk in Hnd.
  by apply NoDup_app in Hnd as [? _].
Qed.

Section Window2.
Context `{WebCrypto}.

Lemma pump_fileId_loop_exit p : pump_fileId (loop_exit p) = pump_fileId p.
Proof. unfold loop_exit. by case_match. Qed.

Lemma pump_fileId_loop_head st p : pump_fileId (loop_head st p) = pump_fileId p.
Proof. unfold loop_head. case_match; [done|apply pump_fileId_loop_exit]. Qed.

Lemma pump_phase_loop_exit p : pump_phase (loop_exit p) ≠ Reading.
Proof. unfold loop_exit. by case_match. Qed.

(** The loop only suspends on a read after it found the counter strictly
    below the limit, a chunk left to send, and no cancellation. *)
Lemma loop_head_reading st p :
  pump_phase (loop_head st p) = Reading →
  js_lt (chunksInFlightRef st !! pump_fileId p) MAX_CHUNKS_IN_FLIGHT = true
  ∧ (pump_currentChunk p < pump_totalChunks p)%Z
  ∧ pump_fileId p ∉ cancelledTransfersRef st.
Proof.
  unfold loop_head. destruct (loop_guard st p && negb (sees_cancelled st p))
    eqn:Hg.
  - intros _. apply andb_prop in Hg as [Hg Hc].
    apply andb_prop in Hg as [Hlt Hjs].
    apply negb_true_iff, orb_false_iff in Hc as [Hc _].
    apply bool_decide_eq_false in Hc. split; [done|]. split; [lia|done].
  - intros Hp. by apply pump_phase_loop_exit in Hp.
Qed.

Lemma start_pump_spec captured now st blob fileId :
  chunksInFlightRef (start_pump captured now st blob fileId).1
  = <[fileId := JNum 0]> (chunksInFlightRef st)
  ∧ pump_fileId (start_pump captured now st blob fileId).2 = fileId.
Proof. unfold start_pump. simpl. by rewrite pump_fileId_loop_head. Qed.

(** A listener touches a counter only to start it at 0; it starts at most
    one pump, under its own id, and is then deregistered. *)
Lemma handleResponse_window now st l m st' started outcome :
  handleResponse now st l m = (st', started, outcome) →
  (∀ fileId,
     chunksInFlightRef st' !! fileId = chunksInFlightRef st !! fileId
     ∨ chunksInFlightRef st' !! fileId = Some (JNum 0))
  ∧ match started with
    | Some p =>
        pump_fileId p = l_fileId l ∧ outcome = Resolved true
        ∧ chunksInFlightRef st' !! l_fileId l = Some (JNum 0)
    | None => True
    end.
Proof.
  unfold handleResponse, startFileTransfer, startSecureFileTransfer.
  intros Hr.
  destruct m; try (injection Hr as <- <- <-; split; [by left|done]).
  - (* file-accepted *)
    case_decide; [|injection Hr as <- <- <-; split; [by left|done]].
    repeat case_match; simplify_eq; simpl;
      try (split; [by left|done]).
    all: match goal with
         | Hs : start_pump ?c ?n ?s ?b ?f = (_, _) |- _ =>
             pose proof (start_pump_spec c n s b f) as [Hc Hid];
             rewrite Hs in Hc, Hid; simpl in Hc, Hid
         end.
    all: rewrite send_chunksInFlightRef in Hc; simpl in Hc.
    all: split; [|by rewrite Hc, lookup_insert_eq].
    all: intros fid; rewrite Hc;
      destruct (decide (fid = l_fileId l)) as [->|Hne];
      [right; apply lookup_insert_eq | left; by rewrite lookup_insert_ne].
  - (* file-rejected *)
    case_decide; injection Hr as <- <- <-; split; by try left.
Qed.

Lemma deliver_window now m ls : ∀ st st' ps keep res,
  deliver now m st ls = (st', ps, keep, res) →
  (∀ fileId,
     chunksInFlightRef st' !! fileId = chunksInFlightRef st !! fileId
     ∨ chunksInFlightRef st' !! fileId = Some (JNum 0))
  ∧ (pump_fileId <$> ps) ++ (l_fileId <$> keep) ⊆+ l_fileId <$> ls
  ∧ Forall (λ p, chunksInFlightRef st' !! pump_fileId p = Some (JNum 0)) ps.
Proof.
  induction ls as [|l ls IH]; intros st st' ps keep res Hd; simpl in Hd.
  - injection Hd as <- <- <- <-. split; [by left|]. split; [done|constructor].
  - destruct (handleResponse now st l m) as [[st1 started] outcome] eqn:Hr.
    destruct (deliver now m st1 ls) as [[[st2 ps2] keep2] res2] eqn:Hd2.
    apply handleResponse_window in Hr as [Hc1 Hs].
    apply IH in Hd2 as (Hc2 & Hids & Hps).
    assert (∀ fileId,
              chunksInFlightRef st2 !! fileId = chunksInFlightRef st !! fileId
              ∨ chunksInFlightRef st2 !! fileId = Some (JNum 0)) as Hc.
    { intros fid. destruct (Hc2 fid) as [-> | ->]; [apply Hc1 | by right]. }
    destruct started as [p|].
    + destruct Hs as (Hid & -> & H0). injection Hd as <- <- <- <-.
      split; [done|]. split.
      * simpl. rewrite Hid. by apply submseteq_skip.
      * simpl. constructor; [|done]. rewrite Hid.
        destruct (Hc2 (l_fileId l)) as [-> | ->]; done.
    + destruct outcome; injection Hd as <- <- <- <-; simpl.
      * split; [done|]. split; [|done].
        rewrite <- (Permutation_middle). by apply submseteq_skip.
      * split; [done|]. split; [|done]. by apply submseteq_cons.
Qed.

Lemma fmap_insert_same_id (ps : list Pump) k p p' :
  ps !! k = Some p → pump_fileId p' = pump_fileId p →
  pump_fileId <$> <[k := p']> ps = pump_fileId <$> ps.
Proof.
  intros Hk Hid. rewrite list_fmap_insert, Hid.
  apply list_insert_id. by rewrite list_lookup_fmap, Hk.
Qed.

End Window2.

Section Window3.
Context `{WebCrypto}.

Lemma acceptFileTransfer_chunksInFlightRef st fileId :
  chunksInFlightRef (acceptFileTransfer st fileId) = chunksInFlightRef st.
Proof.
  unfold acceptFileTransfer. repeat case_match; simpl;
    by rewrite ?send_chunksInFlightRef.
Qed.

Lemma rejectFileTransfer_chunksInFlightRef st fileId :
  chunksInFlightRef (rejectFileTransfer st fileId) = chunksInFlightRef st.
Proof.
  unfold rejectFileTransfer. case_match; simpl;
    by rewrite ?send_chunksInFlightRef.
Qed.

Lemma cancelFileTransfer_counter st fileId other :
  counter_step (chunksInFlightRef st !! other)
    (chunksInFlightRef (cancelFileTransfer st fileId) !! other).
Proof.
  unfold cancelFileTransfer. case_match; [|by left]. simpl.
  rewrite send_chunksInFlightRef. simpl.
  destruct (decide (other = fileId)) as [->|Hne].
  - rewrite lookup_delete_eq. by right; right.
  - rewrite lookup_delete_ne by done. by left.
Qed.

Lemma initiateKeyExchange_chunksInFlightRef secret st sessionId st' :
  initiateKeyExchange secret st sessionId = Ok st' →
  chunksInFlightRef st' = chunksInFlightRef st.
Proof.
  unfold initiateKeyExchange. intros Hi.
  pose proof (ensure_key_pair_chunksInFlightRef secret st) as He.
  destruct (ensure_key_pair secret st) as [st1 kp]. simpl in He.
  repeat case_match; simplify_eq. simpl.
  by rewrite send_chunksInFlightRef.
Qed.

Lemma sendFile_spec captured secureMode kex ent st file fileId st' l :
  sendFile captured secureMode kex ent st file fileId = Ok (st', l) →
  st' = send (request_of file fileId
                (sendFile_encrypt secureMode kex ent (sessionKeys st) file))
          st
  ∧ l = listener_of captured file fileId
          (sendFile_encrypt secureMode kex ent (sessionKeys st) file)
  ∧ l_fileId l = fileId
  ∧ connected st = true.
Proof.
  unfold sendFile, connected. intros Hs. repeat case_match; simplify_eq.
  repeat split; try done.
  unfold listener_of. by repeat case_match.
Qed.

Lemma pump_fileId_sendChunk now st p :
  pump_fileId (sendChunk now st p).2 = pump_fileId p.
Proof. unfold sendChunk. by case_match. Qed.

Lemma sendChunk_chunksInFlightRef now st p :
  chunksInFlightRef (sendChunk now st p).1
  = <[pump_fileId p := js_incr (chunksInFlightRef st !! pump_fileId p)]>
      (chunksInFlightRef st).
Proof.
  unfold sendChunk. case_match; simpl; by rewrite send_chunksInFlightRef.
Qed.

(** One iteration of the pump: the counter of its transfer is incremented,
    or deleted when the last chunk went out; no other counter moves; and the
    pump suspends on the next read only below the limit. *)
Lemma after_read_window now st p :
  pump_fileId (after_read now st p).2 = pump_fileId p
  ∧ (∀ other, other ≠ pump_fileId p →
       chunksInFlightRef (after_read now st p).1 !! other
       = chunksInFlightRef st !! other)
  ∧ (chunksInFlightRef (after_read now st p).1 !! pump_fileId p
     = Some (js_incr (chunksInFlightRef st !! pump_fileId p))
     ∨ chunksInFlightRef (after_read now st p).1 !! pump_fileId p = None)
  ∧ (pump_phase (after_read now st p).2 = Reading →
     js_lt (chunksInFlightRef (after_read now st p).1 !! pump_fileId p)
       MAX_CHUNKS_IN_FLIGHT = true).
Proof.
  unfold after_read.
  pose proof (pump_fileId_sendChunk now st p) as Hid.
  pose proof (sendChunk_chunksInFlightRef now st p) as Hc.
  destruct (sendChunk now st p) as [st1 p1]. simpl in Hid, Hc.
  case_decide; simpl.
  - rewrite send_chunksInFlightRef. simpl. rewrite Hc.
    rewrite pump_fileId_loop_exit, Hid. split; [done|]. split; [|split].
    + intros other Hne.
      by rewrite lookup_delete_ne, lookup_insert_ne.
    + right. apply lookup_delete_eq.
    + intros Hp. by apply pump_phase_loop_exit in Hp.
  - rewrite pump_fileId_loop_head, Hid, Hc. split; [done|]. split; [|split].
    + intros other Hne. by rewrite lookup_insert_ne.
    + left. apply lookup_insert_eq.
    + intros Hp. apply loop_head_reading in Hp as (Hjs & _).
      simpl in Hjs. by rewrite Hid, Hc in Hjs.
Qed.

Lemma live_ids_lookup_pump s k k' p p' :
  NoDup (live_ids s) →
  sys_pumps s !! k = Some p → sys_pumps s !! k' = Some p' →
  pump_fileId p = pump_fileId p' → k = k'.
Proof.
  intros Hnd Hk Hk' Hid. apply NoDup_app in Hnd as (Hnd & _).
  eapply NoDup_lookup; [exact Hnd| |];
    rewrite list_lookup_fmap; [by rewrite Hk | by rewrite Hk', Hid].
Qed.

(** No event makes two closures hold the same transfer id, provided a new
    send uses an id no live closure holds. *)
Lemma step_NoDup s e :
  NoDup (live_ids s) → fresh_event s e → NoDup (live_ids (step s e)).
Proof.
  intros Hnd Hfresh. destruct e as
    [captured now secret m | k | k now | fileId | fileId | fileId
    | secret sessionId | captured secureMode kex ent file fileId]; simpl;
    try done.
  - destruct (deliver now m (handleIncomingData captured now secret (sys_app s) m)
                (sys_listeners s)) as [[[st2 ps] keep] res] eqn:Hd.
    apply deliver_window in Hd as (_ & Hids & _).
    unfold live_ids in *. simpl. rewrite fmap_app, <- app_assoc.
    eapply NoDup_submseteq_inv; [|exact Hnd]. by apply submseteq_skips_l.
  - destruct (sys_pumps s !! k) as [p|] eqn:Hk; [|done].
    case_decide; [|done]. unfold live_ids in *. simpl.
    rewrite (fmap_insert_same_id _ _ p); [done..|].
    apply pump_fileId_loop_head.
  - destruct (sys_pumps s !! k) as [p|] eqn:Hk; [|done].
    case_decide as Hph; [|done].
    pose proof (after_read_window now (sys_app s) p) as (Hid & _).
    destruct (after_read now (sys_app s) p) as [st' p']. simpl in Hid.
    unfold live_ids in *. simpl. by rewrite (fmap_insert_same_id _ _ p).
  - by destruct (initiateKeyExchange secret (sys_app s) sessionId).
  - destruct (sendFile captured secureMode kex ent (sys_app s) file fileId)
      as [[st' l]|] eqn:Hs; [|done].
    apply sendFile_spec in Hs as (-> & _ & Hid & _).
    unfold live_ids in *. simpl in *. rewrite fmap_app, app_assoc. simpl.
    rewrite Hid. apply NoDup_app. split; [done|]. split.
    + intros x Hx. rewrite list_elem_of_singleton. by intros ->.
    + apply NoDup_singleton.
Qed.

(** The window invariant is kept by every event, provided a new send uses a
    transfer id no live closure holds. *)
Lemma step_window s e : window_inv s → fresh_event s e → window_inv (step s e).
Proof.
  intros (Hok & Hrd & Hnd) Hfresh.
  split; [|split; [|by apply step_NoDup]].
  - (* every counter stays within the window *)
    destruct e as
      [captured now secret m | k | k now | fileId | fileId | fileId
      | secret sessionId | captured secureMode kex ent file fileId]; simpl.
    + destruct (deliver now m
                  (handleIncomingData captured now secret (sys_app s) m)
                  (sys_listeners s)) as [[[st2 ps] keep] res] eqn:Hd.
      apply deliver_window in Hd as (Hc & _). simpl.
      intros fid. destruct (Hc fid) as [-> | ->]; [|simpl; done].
      eapply counter_step_ok; [apply handleIncomingData_counter|apply Hok].
    + by repeat case_match.
    + destruct (sys_pumps s !! k) as [p|] eqn:Hk; [|done].
      case_decide as Hph; [|done].
      pose proof (after_read_window now (sys_app s) p) as (_ & Hoth & Hown & _).
      destruct (after_read now (sys_app s) p) as [st' p']. simpl in *.
      intros fid. destruct (decide (fid = pump_fileId p)) as [->|Hne].
      * destruct Hown as [-> | ->]; [|done]. apply js_incr_ok. by eapply Hrd.
      * rewrite Hoth by done. apply Hok.
    + by rewrite acceptFileTransfer_chunksInFlightRef.
    + by rewrite rejectFileTransfer_chunksInFlightRef.
    + intros fid. eapply counter_step_ok;
        [apply cancelFileTransfer_counter|apply Hok].
    + destruct (initiateKeyExchange secret (sys_app s) sessionId) as [st'|]
        eqn:Hi; [|done].
      apply initiateKeyExchange_chunksInFlightRef in Hi. simpl. by rewrite Hi.
    + destruct (sendFile captured secureMode kex ent (sys_app s) file fileId)
        as [[st' l]|] eqn:Hs; [|done].
      apply sendFile_spec in Hs as (-> & _). simpl.
      by rewrite send_chunksInFlightRef.
  - (* a pump that reads found its counter strictly inside *)
    destruct e as
      [captured now secret m | k | k now | fileId | fileId | fileId
      | secret sessionId | captured secureMode kex ent file fileId]; simpl.
    + destruct (deliver now m
                  (handleIncomingData captured now secret (sys_app s) m)
                  (sys_listeners s)) as [[[st2 ps] keep] res] eqn:Hd.
      apply deliver_window in Hd as (Hc & _ & Hps). simpl.
      intros k p Hk Hp. apply lookup_app_Some in Hk as [Hk | [_ Hk]].
      * destruct (Hc (pump_fileId p)) as [-> | ->]; [|simpl; done].
        eapply counter_step_below;
          [apply handleIncomingData_counter|by eapply Hrd].
      * rewrite Forall_lookup in Hps. by rewrite (Hps _ _ Hk).
    + destruct (sys_pumps s !! k) as [p|] eqn:Hk; [|done].
      case_decide; [|done]. simpl.
      intros k' p' Hk' Hp'. destruct (decide (k' = k)) as [->|Hne].
      * rewrite list_lookup_insert_eq in Hk' by by eapply lookup_lt_Some.
        injection Hk' as <-. rewrite pump_fileId_loop_head.
        apply loop_head_reading in Hp' as (Hjs & _). by apply js_lt_below.
      * rewrite list_lookup_insert_ne in Hk' by done. by eapply Hrd.
    + destruct (sys_pumps s !! k) as [p|] eqn:Hk; [|done].
      case_decide as Hph; [|done].
      pose proof (after_read_window now (sys_app s) p)
        as (Hid & Hoth & Hown & Hjs).
      destruct (after_read now (sys_app s) p) as [st' p']. simpl in *.
      intros k' p2 Hk' Hp2. destruct (decide (k' = k)) as [->|Hne].
      * rewrite list_lookup_insert_eq in Hk' by by eapply lookup_lt_Some.
        injection Hk' as <-. rewrite Hid. apply js_lt_below; [auto|].
        destruct Hown as [-> | ->]; [|done]. apply js_incr_ok. by eapply Hrd.
      * rewrite list_lookup_insert_ne in Hk' by done.
        rewrite Hoth; [by eapply Hrd|].
        intros Heq. apply Hne. by eapply live_ids_lookup_pump.
    + by rewrite acceptFileTransfer_chunksInFlightRef.
    + by rewrite rejectFileTransfer_chunksInFlightRef.
    + intros k p Hk Hp. eapply counter_step_below;
        [apply cancelFileTransfer_counter|by eapply Hrd].
    + destruct (initiateKeyExchange secret (sys_app s) sessionId) as [st'|]
        eqn:Hi; [|done].
      apply initiateKeyExchange_chunksInFlightRef in Hi. simpl. by rewrite Hi.
    + destruct (sendFile captured secureMode kex ent (sys_app s) file fileId)
        as [[st' l]|] eqn:Hs; [|done].
      apply sendFile_spec in Hs as (-> & _). simpl.
      by rewrite send_chunksInFlightRef.
Qed.

Lemma run_window trace : ∀ s,
  window_inv s → fresh_trace s trace → window_inv (run s trace).
Proof.
  induction trace as [|e trace IH]; intros s Hinv Hfresh; [done|].
  destruct Hfresh as [He Ht]. simpl. apply IH; [by apply step_window|done].
Qed.

Lemma initial_window : window_inv initial_sys.
Proof.
  split; [|split]; simpl.
  - intros fid. by rewrite lookup_empty.
  - intros k p Hk. by rewrite lookup_nil in Hk.
  - constructor.
Qed.

End Window3.

(** ** What each event hands to the channel *)

Section Emit.
Context `{WebCrypto}.

Lemma emits_refl st : emits st st [].
Proof. split; [by rewrite app_nil_r|done]. Qed.

Lemma emits_trans st1 st2 st3 e1 e2 :
  emits st1 st2 e1 → emits st2 st3 e2 → emits st1 st3 (e1 ++ e2).
Proof.
  intros [Hs1 Hc1] [Hs2 Hc2]. split; [|congruence].
  by rewrite Hs2, Hs1, app_assoc.
Qed.

Lemma emits_send m st : emits st (send m st) (if connected st then [m] else []).
Proof. split; [apply sent_send_cases|apply connected_send]. Qed.

Lemma emits_same st st' :
  connRef st' = connRef st → emits st st' [].
Proof.
  intros Hc. split; unfold sent, connected; rewrite Hc; [|done].
  by rewrite app_nil_r.
Qed.

Lemma emits_silent_l st1 st2 st3 e :
  connRef st2 = connRef st1 → emits st2 st3 e → emits st1 st3 e.
Proof.
  intros Hc He. apply (emits_trans st1 st2 st3 [] e); [by apply emits_same|done].
Qed.

Lemma emits_silent_r st1 st2 st3 e :
  emits st1 st2 e → connRef st3 = connRef st2 → emits st1 st3 e.
Proof.
  intros He Hc. rewrite <- (app_nil_r e).
  apply (emits_trans _ st2); [done|by apply emits_same].
Qed.

Lemma emits_send_connected m st :
  connected st = true → emits st (send m st) [m].
Proof. intros Hc. pose proof (emits_send m st) as He. by rewrite Hc in He. Qed.

Lemma connRef_ensure_key_pair secret st :
  connRef (ensure_key_pair secret st).1 = connRef st.
Proof. unfold ensure_key_pair. by destruct (keyPairRef st). Qed.

Lemma connRef_resolve_key_exchange sessionId b st :
  connRef (resolve_key_exchange sessionId b st) = connRef st.
Proof. unfold resolve_key_exchange. by case_decide. Qed.

(** What the ['data'] handler sends: one reply, to the message it got. *)
Lemma handleIncomingData_emits captured now secret st m :
  ∃ extra,
    emits st (handleIncomingData captured now secret st m) extra
    ∧ Forall
        (λ x,
           match x with
           | key_exchange_reply _ sessionId =>
               ∃ publicKey, m = key_exchange_init publicKey sessionId
           | key_exchange_complete sessionId =>
               ∃ publicKey, m = key_exchange_reply publicKey sessionId
           | chunk_ack fileId chunk =>
               (∃ total data, m = file_chunk fileId chunk total data)
               ∧ fileId ∉ cancelledTransfersRef st
           | file_cancel_ack fileId => m = file_cancel fileId
           | _ => False
           end) extra.
Proof.
  destruct m; simpl;
    try (exists []; split; [apply emits_refl|constructor]).
  - (* key-exchange-init *)
    unfold on_key_exchange_init.
    pose proof (connRef_ensure_key_pair secret st) as He.
    destruct (ensure_key_pair secret st) as [st1 kp]. simpl in He.
    destruct (importPublicKey _).
    + eexists. split.
      * eapply emits_silent_l; [|apply emits_send]. done.
      * case_match; repeat constructor. by eexists.
    + exists []. split; [by apply emits_same|constructor].
  - (* key-exchange-reply *)
    unfold on_key_exchange_reply.
    destruct (importPublicKey _) as [P|];
      [destruct (keyPairRef st) as [kp|] eqn:Hkp|].
    + match goal with |- context [connected ?s] => set (st1 := s) end.
      destruct (connected st1) eqn:Hc.
      * exists [key_exchange_complete sessionId]. split.
        -- eapply (emits_silent_l _ st1); [done|].
           eapply emits_silent_r; [by apply emits_send_connected|].
           apply connRef_resolve_key_exchange.
        -- repeat constructor. by eexists.
      * exists []. split; [|constructor].
        apply emits_same. by rewrite connRef_resolve_key_exchange.
    + exists []. split; [|constructor].
      apply emits_same, connRef_resolve_key_exchange.
    + exists []. split; [|constructor].
      apply emits_same, connRef_resolve_key_exchange.
  - (* file-request *)
    exists []. split; [by apply emits_same|constructor].
  - (* file-start *)
    exists []. split; [|constructor].
    unfold on_file_start. case_decide; by apply emits_same.
  - (* file-chunk *)
    unfold on_file_chunk. case_decide as Hcan.
    { exists []. split; [apply emits_refl|constructor]. }
    match goal with
    | |- context [send (chunk_ack fileId chunk) ?s] => set (st1 := s)
    end.
    assert (connRef st1 = connRef st ∧
            cancelledTransfersRef st1 = cancelledTransfersRef st) as [Hc1 Hx1].
    { unfold st1, updateSpeed_download. by repeat case_match. }
    assert (fileId ∉ cancelledTransfersRef st1) as Hcan1 by by rewrite Hx1.
    rewrite (decide_False (P := fileId ∈ cancelledTransfersRef st1)) by done.
    exists (if connected st1 then [chunk_ack fileId chunk] else []). split.
    + eapply (emits_silent_l _ st1); [done|].
      eapply emits_silent_r; [apply emits_send|].
      by case_decide.
    + case_match; repeat constructor; [by do 2 eexists|done].
  - (* chunk-ack *)
    exists []. split; [|constructor].
    unfold on_chunk_ack. case_match; by apply emits_same.
  - (* file-cancel *)
    unfold on_file_cancel.
    match goal with |- context [send _ ?s] => set (st1 := s) end.
    exists (if connected st1 then [file_cancel_ack fileId] else []). split.
    + eapply (emits_silent_l _ st1); [done|apply emits_send].
    + case_match; repeat constructor.
Qed.

End Emit.

Section Emit2.
Context `{WebCrypto}.

Lemma start_pump_emits captured now st blob fileId :
  connRef (start_pump captured now st blob fileId).1 = connRef st.
Proof. done. Qed.

(** A listener sends nothing but the start of its own transfer, and only
    when it sees its acceptance. *)
Lemma handleResponse_emits now st l m st' started outcome :
  handleResponse now st l m = (st', started, outcome) →
  ∃ extra,
    emits st st' extra
    ∧ Forall (λ x, x = start_message l ∧ m = file_accepted (l_fileId l)) extra
    ∧ (is_Some started → extra = [start_message l]).
Proof.
  unfold handleResponse, startFileTransfer, startSecureFileTransfer,
    start_message.
  intros Hr.
  destruct m;
    try (injection Hr as <- <- <-; exists []; split; [apply emits_refl|];
         split; [constructor|by intros [? [=]]]).
  - (* file-accepted *)
    case_decide as Hid;
      [subst fileId
      |injection Hr as <- <- <-; exists []; split; [apply emits_refl|];
       split; [constructor|by intros [? [=]]]].
    destruct (l_secure l && truthy (l_sessionId l)) eqn:Hsec;
      [destruct (l_sessionId l) as [sessionId|] eqn:Hsid|].
    all: match type of Hr with
         | context [connected ?s] =>
             set (st1 := s) in *;
             assert (connRef st1 = connRef st) as Hc1 by done;
             destruct (connected st1) eqn:Hconn
         end.
    all: simpl in Hr; injection Hr as <- <- <-.
    all: try (exists []; split; [by apply emits_same|];
              split; [constructor|by intros [? [=]]]).
    all: eexists; split;
      [eapply (emits_silent_l _ st1); [done|];
       eapply emits_silent_r; [by apply emits_send_connected|done]|].
    all: split; [by repeat constructor|done].
  - (* file-rejected *)
    case_decide; injection Hr as <- <- <-; exists [];
      (split; [by apply emits_same|]);
      (split; [constructor|by intros [? [=]]]).
Qed.

Lemma deliver_emits now m ls : ∀ st st' ps keep res,
  deliver now m st ls = (st', ps, keep, res) →
  ∃ extra,
    emits st st' extra
    ∧ Forall (λ x, ∃ l, l ∈ ls ∧ x = start_message l
                        ∧ m = file_accepted (l_fileId l)) extra.
Proof.
  induction ls as [|l ls IH]; intros st st' ps keep res Hd; simpl in Hd.
  - injection Hd as <- <- <- <-. exists []. split; [apply emits_refl|done].
  - destruct (handleResponse now st l m) as [[st1 started] outcome] eqn:Hr.
    destruct (deliver now m st1 ls) as [[[st2 ps2] keep2] res2] eqn:Hd2.
    apply handleResponse_emits in Hr as (e1 & He1 & Hf1 & _).
    apply IH in Hd2 as (e2 & He2 & Hf2).
    assert (st' = st2) as -> by (destruct outcome; by injection Hd).
    exists (e1 ++ e2). split; [by eapply emits_trans|].
    apply Forall_app. split.
    + eapply Forall_impl; [exact Hf1|]. intros x [-> ->]. exists l.
      split; [apply list_elem_of_here|done].
    + eapply Forall_impl; [exact Hf2|]. intros x (l' & Hl' & ? & ?).
      exists l'. split; [by apply list_elem_of_further|done].
Qed.

Lemma connected_sendChunk now st p :
  connRef (sendChunk now st p).1
  = connRef (send (chunk_message p (pump_currentChunk p)) st).
Proof. unfold sendChunk. by case_match. Qed.

Lemma sendChunk_pump now st p :
  pump_currentChunk (sendChunk now st p).2 = (pump_currentChunk p + 1)%Z
  ∧ pump_totalChunks (sendChunk now st p).2 = pump_totalChunks p
  ∧ pump_blob (sendChunk now st p).2 = pump_blob p
  ∧ pump_phase (sendChunk now st p).2 = pump_phase p.
Proof. unfold sendChunk. by case_match. Qed.

(** One iteration sends the chunk at [currentChunk] and, after the last
    chunk, the completion notice. *)
Lemma after_read_emits now st p :
  emits st (after_read now st p).1
    (if connected st then
       chunk_message p (pump_currentChunk p)
       :: (if decide (pump_currentChunk p + 1 = pump_totalChunks p)%Z
           then [file_complete (pump_fileId p)] else [])
     else []).
Proof.
  unfold after_read.
  pose proof (connected_sendChunk now st p) as Hc.
  pose proof (sendChunk_pump now st p) as (Hcur & Htot & _).
  destruct (sendChunk now st p) as [st1 p1]. simpl in *.
  rewrite Hcur, Htot.
  assert (emits st st1 (if connected st
                        then [chunk_message p (pump_currentChunk p)]
                        else [])) as H1.
  { eapply emits_silent_r; [apply emits_send|done]. }
  case_decide.
  - match goal with |- context [send (file_complete _) ?s] => set (st2 := s) end.
    assert (connected st2 = connected st) as Hc2 by apply H1.
    pose proof (emits_send (file_complete (pump_fileId p)) st2) as H3.
    rewrite Hc2 in H3.
    apply (emits_silent_l _ _ _ _ (eq_refl : connRef st2 = connRef st1)) in H3.
    pose proof (emits_trans _ _ _ _ _ H1 H3) as H4.
    eapply emits_silent_r in H4; [|reflexivity].
    destruct (connected st); exact H4.
  - eapply emits_silent_r; [|reflexivity].
    destruct (connected st); exact H1.
Qed.

End Emit2.

Section Emit3.
Context `{WebCrypto}.

Lemma acceptFileTransfer_emits st fileId :
  ∃ extra, emits st (acceptFileTransfer st fileId) extra
           ∧ Forall (λ x, x = file_accepted fileId) extra.
Proof.
  unfold acceptFileTransfer. repeat case_match;
    try (exists []; split; [apply emits_refl|constructor]).
  exists [file_accepted fileId]. split; [|by repeat constructor].
  eapply emits_silent_r; [by apply emits_send_connected|done].
Qed.

Lemma rejectFileTransfer_emits st fileId :
  emits st (rejectFileTransfer st fileId)
    (if connected st then [file_rejected fileId] else []).
Proof.
  unfold rejectFileTransfer. destruct (connected st) eqn:Hc;
    [|apply emits_refl].
  eapply emits_silent_r; [by apply emits_send_connected|done].
Qed.

Lemma cancelFileTransfer_emits st fileId :
  emits st (cancelFileTransfer st fileId)
    (if connected st then [file_cancel fileId] else []).
Proof.
  unfold cancelFileTransfer. destruct (connected st) eqn:Hc;
    [|apply emits_refl].
  match goal with |- context [send _ ?s] => set (st1 := s) end.
  eapply (emits_silent_l _ st1); [done|].
  eapply emits_silent_r; [by apply emits_send_connected|done].
Qed.

Lemma initiateKeyExchange_emits secret st sessionId st' :
  initiateKeyExchange secret st sessionId = Ok st' →
  ∃ publicKey, emits st st' [key_exchange_init publicKey sessionId].
Proof.
  unfold initiateKeyExchange. intros Hi.
  pose proof (connRef_ensure_key_pair secret st) as He.
  destruct (ensure_key_pair secret st) as [st1 kp]. simpl in He.
  destruct (connRef st) as [c|] eqn:Hc; [|done].
  destruct (conn_open c); [|done]. injection Hi as <-.
  eexists. eapply (emits_silent_l _ st1); [congruence|].
  eapply emits_silent_r; [apply emits_send_connected|done].
  unfold connected. by rewrite He.
Qed.

Lemma start_message_shape l :
  ∃ fileName fileSize fileType key iv sessionId secure,
    start_message l
    = file_start (l_fileId l) fileName fileSize fileType key iv sessionId
        secure.
Proof. unfold start_message. repeat case_match; by do 7 eexists. Qed.

(** Every message handed to the channel, by the event that sent it. *)
Lemma step_emits s e :
  ∃ extra, emits (sys_app s) (sys_app (step s e)) extra
           ∧ Forall (emitted_by s e) extra.
Proof.
  destruct e as
    [captured now secret m | k | k now | fileId | fileId | fileId
    | secret sessionId | captured secureMode kex ent file fileId]; simpl.
  - (* a message arrives *)
    destruct (handleIncomingData_emits captured now secret (sys_app s) m)
      as (e1 & He1 & Hf1).
    destruct (deliver now m (handleIncomingData captured now secret (sys_app s) m)
                (sys_listeners s)) as [[[st2 ps] keep] res] eqn:Hd.
    apply deliver_emits in Hd as (e2 & He2 & Hf2). simpl.
    exists (e1 ++ e2). split; [by eapply emits_trans|].
    apply Forall_app. split.
    + eapply Forall_impl; [exact Hf1|]. intros x Hx.
      destruct x; simpl in *; try done.
      * destruct Hx as [pk ->]. by do 4 eexists.
      * destruct Hx as [pk ->]. by do 4 eexists.
      * destruct Hx as [(total & data & ->) Hn]. do 5 eexists.
        split; [reflexivity|assumption].
      * subst m. do 3 eexists. reflexivity.
    + eapply Forall_impl; [exact Hf2|]. intros x (l & Hl & -> & ->).
      destruct (start_message_shape l) as (a & b & c & d & e & f & g & Hsm).
      rewrite Hsm. exists captured, now, secret, l. by rewrite Hsm.
  - (* a timer fires *)
    exists []. split; [|constructor]. repeat case_match; apply emits_refl.
  - (* a read completes *)
    destruct (sys_pumps s !! k) as [p|] eqn:Hk;
      [|exists []; split; [apply emits_refl|constructor]].
    case_decide as Hph;
      [|exists []; split; [apply emits_refl|constructor]].
    pose proof (after_read_emits now (sys_app s) p) as He.
    destruct (after_read now (sys_app s) p) as [st' p']. simpl in *.
    eexists. split; [exact He|].
    destruct (connected (sys_app s)); [|constructor].
    constructor; [by exists k, now, p|].
    case_decide; constructor; [|constructor]. by exists k, now, p.
  - (* accept *)
    destruct (acceptFileTransfer_emits (sys_app s) fileId) as (ex & He & Hf).
    exists ex. split; [done|]. eapply Forall_impl; [exact Hf|].
    by intros x ->.
  - (* reject *)
    eexists. split; [apply rejectFileTransfer_emits|].
    case_match; by repeat constructor.
  - (* cancel *)
    eexists. split; [apply cancelFileTransfer_emits|].
    case_match; by repeat constructor.
  - (* a key exchange starts *)
    destruct (initiateKeyExchange secret (sys_app s) sessionId) as [st'|]
      eqn:Hi; [|exists []; split; [apply emits_refl|constructor]].
    apply initiateKeyExchange_emits in Hi as [pk He].
    eexists. split; [exact He|]. repeat constructor. by eexists.
  - (* a file is sent *)
    destruct (sendFile captured secureMode kex ent (sys_app s) file fileId)
      as [[st' l]|] eqn:Hs;
      [|exists []; split; [apply emits_refl|constructor]].
    apply sendFile_spec in Hs as (-> & _ & _ & Hc). simpl.
    eexists. split; [by apply emits_send_connected|].
    repeat constructor. unfold request_of.
    destruct (sendFile_encrypt _ _ _ _ _) as [[[[? ?] ?] ?] ?].
    by do 5 eexists.
Qed.

End Emit3.

(** ** The chunks of an outbound transfer *)

Lemma CHUNK_SIZE_pos : (0 < CHUNK_SIZE)%Z.
Proof. done. Qed.

(** [Math.ceil(size / CHUNK_SIZE)] is the integer quotient rounded up. *)
Lemma totalChunks_of_div size :
  totalChunks_of size = (- ((- size) `div` CHUNK_SIZE))%Z.
Proof.
  unfold totalChunks_of, Math_ceil, Qceiling. f_equal.
  rewrite Zdiv_Qdiv. apply Qfloor_comp.
  rewrite inject_Z_opp. unfold Qdiv. ring.
Qed.

Lemma totalChunks_of_bounds size :
  (0 ≤ size)%Z →
  (0 ≤ totalChunks_of size)%Z
  ∧ (size ≤ totalChunks_of size * CHUNK_SIZE < size + CHUNK_SIZE)%Z.
Proof.
  intros Hs. rewrite totalChunks_of_div. pose proof CHUNK_SIZE_pos.
  generalize dependent CHUNK_SIZE. intros C HC.
  Z.div_mod_to_equations. nia.
Qed.

Lemma blob_size_nonneg blob : (0 ≤ blob_size blob)%Z.
Proof. unfold blob_size. lia. Qed.

Section Chunks.
Context `{WebCrypto}.

Lemma chunk_message_ext p p' :
  pump_fileId p' = pump_fileId p → pump_totalChunks p' = pump_totalChunks p →
  pump_blob p' = pump_blob p → chunk_message p' = chunk_message p.
Proof.
  intros Hid Ht Hb. unfold chunk_message. by rewrite Hid, Ht, Hb.
Qed.

Lemma loop_exit_pump p :
  pump_currentChunk (loop_exit p) = pump_currentChunk p
  ∧ pump_totalChunks (loop_exit p) = pump_totalChunks p
  ∧ pump_blob (loop_exit p) = pump_blob p
  ∧ pump_fileId (loop_exit p) = pump_fileId p
  ∧ (pump_phase (loop_exit p) = Finished →
     (pump_totalChunks p ≤ pump_currentChunk p)%Z)
  ∧ pump_phase (loop_exit p) ≠ Reading.
Proof.
  unfold loop_exit. destruct (pump_currentChunk p <? pump_totalChunks p)%Z
    eqn:Hlt; simpl; repeat split; try done. lia.
Qed.

Lemma loop_head_pump st p :
  pump_currentChunk (loop_head st p) = pump_currentChunk p
  ∧ pump_totalChunks (loop_head st p) = pump_totalChunks p
  ∧ pump_blob (loop_head st p) = pump_blob p
  ∧ pump_fileId (loop_head st p) = pump_fileId p
  ∧ (pump_phase (loop_head st p) = Finished →
     (pump_totalChunks p ≤ pump_currentChunk p)%Z)
  ∧ (pump_phase (loop_head st p) = Reading →
     (pump_currentChunk p < pump_totalChunks p)%Z).
Proof.
  pose proof (loop_head_reading st p) as Hr.
  unfold loop_head in *.
  destruct (loop_guard st p && negb (sees_cancelled st p)).
  - simpl. repeat split; try done. intros _. by apply Hr.
  - pose proof (loop_exit_pump p) as (? & ? & ? & ? & ? & ?).
    repeat split; try done.
Qed.

Lemma after_read_pump now st p :
  pump_currentChunk (after_read now st p).2 = (pump_currentChunk p + 1)%Z
  ∧ pump_totalChunks (after_read now st p).2 = pump_totalChunks p
  ∧ pump_blob (after_read now st p).2 = pump_blob p
  ∧ pump_fileId (after_read now st p).2 = pump_fileId p
  ∧ (pump_phase (after_read now st p).2 = Finished →
     (pump_totalChunks p ≤ pump_currentChunk p + 1)%Z)
  ∧ (pump_phase (after_read now st p).2 = Reading →
     (pump_currentChunk p + 1 < pump_totalChunks p)%Z).
Proof.
  unfold after_read.
  pose proof (sendChunk_pump now st p) as (Hcur & Htot & Hblob & _).
  pose proof (pump_fileId_sendChunk now st p) as Hid.
  destruct (sendChunk now st p) as [st1 p1]. simpl in *.
  case_decide; simpl.
  - pose proof (loop_exit_pump p1) as (-> & -> & -> & -> & Hf & Hr).
    rewrite Hcur, Htot in *. by repeat split.
  - match goal with |- context [loop_head ?s p1] =>
      pose proof (loop_head_pump s p1) as (-> & -> & -> & -> & Hf & Hr)
    end.
    rewrite Hcur, Htot in *. by repeat split.
Qed.

Lemma chunks_sent_emits fileId st st' extra :
  emits st st' extra →
  chunks_sent fileId st'
  = chunks_sent fileId st ++ filter (is_chunk_of fileId) extra.
Proof.
  intros [Hs _]. unfold chunks_sent. by rewrite Hs, filter_app.
Qed.

Lemma filter_nil_Forall {A} (P : A → Prop) `{!∀ x, Decision (P x)} l :
  Forall (λ x, ¬ P x) l → filter P l = [].
Proof.
  induction 1 as [|x l Hx _ IH]; [done|].
  by rewrite filter_cons_False.
Qed.

(** Only a completed read hands a chunk to the channel. *)
Lemma step_chunks_sent_other s e fileId :
  (∀ k now, e ≠ ReadDone k now) →
  chunks_sent fileId (sys_app (step s e)) = chunks_sent fileId (sys_app s).
Proof.
  intros Hne. destruct (step_emits s e) as (extra & He & Hf).
  rewrite (chunks_sent_emits _ _ _ _ He), filter_nil_Forall;
    [by rewrite app_nil_r|].
  eapply Forall_impl; [exact Hf|]. intros x Hx Hc.
  destruct x; try done. destruct Hx as (k & now & p & -> & _).
  by eapply Hne.
Qed.






End Chunks.

Section Chunks2.
Context `{WebCrypto}.








End Chunks2.

(** ** The byte ranges of the chunks *)

(** Cutting a list into pieces of [c] elements and gluing the pieces. *)
Lemma concat_pieces {A} (c : nat) : ∀ (k : nat) (l : list A),
  length l ≤ k * c →
  concat ((λ i, take c (drop (i * c) l)) <$> seq 0 k) = l.
Proof.
  induction k as [|k IH]; intros l Hl.
  - destruct l; [done|simpl in Hl; lia].
  - simpl. rewrite drop_0, <- fmap_S_seq, <- list_fmap_compose.
    rewrite <- (take_drop c l) at 2. f_equal.
    rewrite <- (IH (drop c l)) by (rewrite length_drop; lia).
    f_equal. apply list_fmap_ext. intros _ i _. simpl.
    rewrite drop_drop. do 2 f_equal; lia.
Qed.

Lemma chunk_bytes_range blob i :
  chunk_bytes blob i
  = take (Z.to_nat (Z.min ((i + 1) * CHUNK_SIZE) (blob_size blob)
                    - i * CHUNK_SIZE))
      (drop (Z.to_nat (i * CHUNK_SIZE)) (blob_bytes blob)).
Proof.
  unfold chunk_bytes, blob_slice. simpl. do 3 f_equal. lia.
Qed.

Lemma chunk_bytes_piece blob (i : nat) :
  chunk_bytes blob (Z.of_nat i)
  = take (Z.to_nat CHUNK_SIZE)
      (drop (i * Z.to_nat CHUNK_SIZE) (blob_bytes blob)).
Proof.
  rewrite chunk_bytes_range. pose proof CHUNK_SIZE_pos as HC.
  unfold blob_size.
  set (l := blob_bytes blob). generalize dependent CHUNK_SIZE. intros C HC.
  replace (Z.to_nat (Z.of_nat i * C)) with (i * Z.to_nat C) by nia.
  destruct (decide ((Z.of_nat i + 1) * C ≤ Z.of_nat (length l))%Z).
  - rewrite Z.min_l by done. f_equal. nia.
  - rewrite Z.min_r by lia.
    rewrite !take_ge; [done| |]; rewrite length_drop; nia.
Qed.

(** The chunks of a blob, in the order of their indices, make the blob. *)
Lemma concat_chunk_bytes blob :
  concat (chunk_bytes blob <$> seqZ 0 (totalChunks_of (blob_size blob)))
  = blob_bytes blob.
Proof.
  pose proof (totalChunks_of_bounds _ (blob_size_nonneg blob)) as [Hnn Hb].
  pose proof CHUNK_SIZE_pos as HC.
  unfold seqZ. rewrite <- list_fmap_compose.
  rewrite <- (concat_pieces (Z.to_nat CHUNK_SIZE)
                (Z.to_nat (totalChunks_of (blob_size blob)))
                (blob_bytes blob)) at 1.
  - f_equal. apply list_fmap_ext. intros _ i _. simpl.
    rewrite Z.add_0_r. apply chunk_bytes_piece.
  - unfold blob_size in *. nia.
Qed.

Lemma chunk_bytes_length blob i :
  (0 ≤ i)%Z → (Z.of_nat (length (chunk_bytes blob i)) ≤ CHUNK_SIZE)%Z.
Proof.
  intros Hi. rewrite chunk_bytes_range, length_take. pose proof CHUNK_SIZE_pos.
  lia.
Qed.

(** ** A lossless run sends every chunk *)

Section Lossless.
Context `{WebCrypto}.

Lemma deliver_ignores now m st ls :
  (∀ f, m ≠ file_accepted f) → (∀ f, m ≠ file_rejected f) →
  deliver now m st ls = (st, [], ls, []).
Proof.
  intros Ha Hr. induction ls as [|l ls IH]; [done|]. simpl.
  assert (handleResponse now st l m = (st, None, Waiting)) as ->.
  { destruct m; try done; [by destruct (Ha fileId)|by destruct (Hr fileId)]. }
  by rewrite IH.
Qed.

Lemma sendChunk_frame now st p :
  cancelledTransfersRef (sendChunk now st p).1 = cancelledTransfersRef st
  ∧ pump_transfers (sendChunk now st p).2 = pump_transfers p.
Proof.
  unfold sendChunk. case_match; simpl; by rewrite send_cancelledTransfersRef.
Qed.

Lemma sees_cancelled_ext st st' p p' :
  cancelledTransfersRef st' = cancelledTransfersRef st →
  pump_fileId p' = pump_fileId p → pump_transfers p' = pump_transfers p →
  sees_cancelled st' p' = sees_cancelled st p.
Proof. intros Hc Hid Ht. unfold sees_cancelled. by rewrite Hc, Hid, Ht. Qed.


(** The acknowledgement of a chunk brings the counter back. *)
Lemma on_chunk_ack_ready st fileId :
  cancelledTransfersRef (on_chunk_ack st fileId) = cancelledTransfersRef st
  ∧ (chunksInFlightRef st !! fileId = Some (JNum 1) →
     chunksInFlightRef (on_chunk_ack st fileId) !! fileId = Some (JNum 0))
  ∧ (chunksInFlightRef st !! fileId = None → on_chunk_ack st fileId = st).
Proof.
  unfold on_chunk_ack. split; [by case_match|]. split.
  - intros ->. simpl. by rewrite lookup_insert_eq.
  - by intros ->.
Qed.

Lemma step_ReadDone s k now p :
  sys_pumps s !! k = Some p → pump_phase p = Reading →
  step s (ReadDone k now)
  = {| sys_app := (after_read now (sys_app s) p).1;
       sys_pumps := <[k := (after_read now (sys_app s) p).2]> (sys_pumps s);
       sys_listeners := sys_listeners s;
       sys_resolved := sys_resolved s |}.
Proof.
  intros Hk Hph. simpl. rewrite Hk, decide_True by done.
  by destruct (after_read now (sys_app s) p).
Qed.

Lemma step_Recv_chunk_ack s captured now secret fileId chunk :
  step s (Recv captured now secret (chunk_ack fileId chunk))
  = {| sys_app := on_chunk_ack (sys_app s) fileId;
       sys_pumps := sys_pumps s;
       sys_listeners := sys_listeners s;
       sys_resolved := sys_resolved s |}.
Proof.
  simpl. rewrite deliver_ignores by done. by rewrite !app_nil_r.
Qed.

Lemma run_app s t1 t2 : run s (t1 ++ t2) = run (run s t1) t2.
Proof. apply foldl_app. Qed.



End Lossless.

(** ** Traces *)

Section Traces.
Context `{WebCrypto}.

Lemma fresh_trace_app t1 : ∀ s t2,
  fresh_trace s t1 → fresh_trace (run s t1) t2 → fresh_trace s (t1 ++ t2).
Proof.
  induction t1 as [|e t1 IH]; intros s t2 H1 H2; [done|].
  destruct H1 as [He H1]. split; [done|]. by apply IH.
Qed.


(** C3. The window limit is 30.  From a state where every counter is within
    the window, after any run of events in which every send uses a fresh
    transfer id: every per-transfer counter of chunks in flight that holds
    a number holds one between 0 and the limit; a pump goes on to send a
    chunk only after it read its counter as a number strictly below the
    limit, and a pump that is suspended on a read still finds its counter
    below the limit; and a chunk acknowledgement lowers a counter that is
    not zero by one. *)
Theorem chunks_in_flight_within_window (s : Sys) (trace : list Event) :
  window_inv s → fresh_trace s trace →
  MAX_CHUNKS_IN_FLIGHT = 30%Z
  ∧ (∀ fileId n,
       chunksInFlightRef (sys_app (run s trace)) !! fileId = Some (JNum n) →
       (0 ≤ n ≤ MAX_CHUNKS_IN_FLIGHT)%Z)
  ∧ (∀ k p,
       sys_pumps (run s trace) !! k = Some p →
       (pump_phase (loop_head (sys_app (run s trace)) p) = Reading →
        ∃ n, chunksInFlightRef (sys_app (run s trace)) !! pump_fileId p
             = Some (JNum n)
             ∧ (0 ≤ n < MAX_CHUNKS_IN_FLIGHT)%Z)
       ∧ (pump_phase p = Reading →
          ∀ n, chunksInFlightRef (sys_app (run s trace)) !! pump_fileId p
               = Some (JNum n) →
               (0 ≤ n < MAX_CHUNKS_IN_FLIGHT)%Z))
  ∧ (∀ captured now secret fileId chunk n,
       chunksInFlightRef (sys_app (run s trace)) !! fileId = Some (JNum n) →
       n ≠ 0%Z →
       chunksInFlightRef
         (handleIncomingData captured now secret (sys_app (run s trace))
            (chunk_ack fileId chunk)) !! fileId
       = Some (JNum (n - 1))).
Proof.
  intros Hinv Hfresh.
  destruct (run_window trace s Hinv Hfresh) as (Hok & Hrd & _).
  split; [done|]. split; [|split].
  - intros fid n Hn. specialize (Hok fid). by rewrite Hn in Hok.
  - intros k p Hk. split.
    + intros Hph. apply loop_head_reading in Hph as (Hjs & _).
      specialize (Hok (pump_fileId p)).
      destruct (chunksInFlightRef (sys_app (run s trace)) !! pump_fileId p)
        as [[n|]|]; try done.
      exists n. split; [done|]. simpl in *. lia.
    + intros Hph n Hn. specialize (Hrd k p Hk Hph). by rewrite Hn in Hrd.
  - intros captured now secret fid chunk n Hn Hn0. simpl.
    unfold on_chunk_ack. rewrite Hn. simpl. rewrite decide_False by done.
    simpl. apply lookup_insert_eq.
Qed.


End Traces.

Lemma sample_trace_fresh : fresh_trace initial_sys sample_trace.
Proof.
  cbn [sample_trace fresh_trace fresh_event]. repeat split.
  cbn. apply not_elem_of_nil.
Qed.

Lemma chunks_in_flight_within_window_witness :
  window_inv (H := toy_crypto) initial_sys
  ∧ fresh_trace initial_sys sample_trace
  ∧ MAX_CHUNKS_IN_FLIGHT = 30%Z
  ∧ (∀ fileId n,
       chunksInFlightRef (sys_app (run initial_sys sample_trace)) !! fileId
       = Some (JNum n) →
       (0 ≤ n ≤ MAX_CHUNKS_IN_FLIGHT)%Z)
  ∧ (∀ k p,
       sys_pumps (run initial_sys sample_trace) !! k = Some p →
       (pump_phase (loop_head (sys_app (run initial_sys sample_trace)) p)
        = Reading →
        ∃ n, chunksInFlightRef (sys_app (run initial_sys sample_trace))
               !! pump_fileId p = Some (JNum n)
             ∧ (0 ≤ n < MAX_CHUNKS_IN_FLIGHT)%Z)
       ∧ (pump_phase p = Reading →
          ∀ n, chunksInFlightRef (sys_app (run initial_sys sample_trace))
                 !! pump_fileId p = Some (JNum n) →
               (0 ≤ n < MAX_CHUNKS_IN_FLIGHT)%Z))
  ∧ (∀ captured now secret fileId chunk n,
       chunksInFlightRef (sys_app (run initial_sys sample_trace)) !! fileId
       = Some (JNum n) →
       n ≠ 0%Z →
       chunksInFlightRef
         (handleIncomingData captured now secret
            (sys_app (run initial_sys sample_trace))
            (chunk_ack fileId chunk)) !! fileId
       = Some (JNum (n - 1))).
Proof.
  split; [exact initial_window|]. split; [exact sample_trace_fresh|].
  exact (chunks_in_flight_within_window initial_sys sample_trace
           initial_window sample_trace_fresh).
Defined.


(** ** Cancellation *)

Section Cancel.
Context `{WebCrypto}.

Lemma array_defined_new_Array {A} n : array_defined (new_Array (A := A) n) = [].
Proof.
  unfold array_defined, new_Array. induction (Z.to_nat n) as [|k IH]; done.
Qed.

Lemma same_buffers_refl st : same_buffers st st.
Proof. done. Qed.

Lemma same_buffers_trans st1 st2 st3 :
  same_buffers st1 st2 → same_buffers st2 st3 → same_buffers st1 st3.
Proof. intros [? ?] [? ?]. split; congruence. Qed.

Lemma same_buffers_send m st : same_buffers st (send m st).
Proof.
  split; [apply send_cancelledTransfersRef|apply send_fileChunksRef].
Qed.

Lemma handleResponse_same_buffers now st l m st' started outcome :
  handleResponse now st l m = (st', started, outcome) → same_buffers st st'.
Proof.
  unfold handleResponse, startFileTransfer, startSecureFileTransfer,
    start_pump.
  intros Hr. destruct m; try by injection Hr as <- <- <-.
  - repeat case_match; simplify_eq; try done.
    all: split; simpl;
      by rewrite ?send_cancelledTransfersRef, ?send_fileChunksRef.
  - case_decide; by injection Hr as <- <- <-.
Qed.

Lemma deliver_same_buffers now m ls : ∀ st st' ps keep res,
  deliver now m st ls = (st', ps, keep, res) → same_buffers st st'.
Proof.
  induction ls as [|l ls IH]; intros st st' ps keep res Hd; simpl in Hd.
  - by injection Hd as <- <- <- <-.
  - destruct (handleResponse now st l m) as [[st1 started] outcome] eqn:Hr.
    destruct (deliver now m st1 ls) as [[[st2 ps2] keep2] res2] eqn:Hd2.
    apply handleResponse_same_buffers in Hr. apply IH in Hd2.
    assert (st' = st2) as -> by (destruct outcome; by injection Hd).
    by eapply same_buffers_trans.
Qed.

Lemma after_read_same_buffers now st p :
  same_buffers st (after_read now st p).1.
Proof.
  unfold after_read, sendChunk.
  repeat case_match; simplify_eq; split; simpl;
    by rewrite ?send_cancelledTransfersRef, ?send_fileChunksRef;
    simpl; rewrite ?send_cancelledTransfersRef, ?send_fileChunksRef.
Qed.

Lemma ensure_key_pair_same_buffers secret st :
  same_buffers st (ensure_key_pair secret st).1.
Proof. unfold ensure_key_pair. by destruct (keyPairRef st). Qed.

Lemma resolve_key_exchange_same_buffers sessionId b st :
  same_buffers st (resolve_key_exchange sessionId b st).
Proof. unfold resolve_key_exchange. by case_decide. Qed.

(** What the ['data'] handler does to the cancellation set and to the
    buffer of a transfer that is cancelled. *)
Lemma handleIncomingData_cancelled captured now secret st m fileId :
  fileId ∈ cancelledTransfersRef st →
  fileId ∈ cancelledTransfersRef (handleIncomingData captured now secret st m)
  ∧ (buffered fileId st = [] →
     buffered fileId (handleIncomingData captured now secret st m) = []).
Proof.
  intros Hin. destruct m; simpl; try done.
  - (* key-exchange-init *)
    unfold on_key_exchange_init.
    pose proof (ensure_key_pair_same_buffers secret st) as [Hc Hf].
    destruct (ensure_key_pair secret st) as [st1 kp]. simpl in *.
    unfold buffered.
    destruct (importPublicKey _); simpl;
      rewrite ?send_cancelledTransfersRef, ?send_fileChunksRef; simpl;
      by rewrite Hc, Hf.
  - (* key-exchange-reply *)
    unfold on_key_exchange_reply, buffered.
    repeat case_match;
      rewrite ?(proj1 (resolve_key_exchange_same_buffers _ _ _)),
        ?(proj2 (resolve_key_exchange_same_buffers _ _ _)),
        ?send_cancelledTransfersRef, ?send_fileChunksRef; done.
  - (* file-start *)
    unfold on_file_start, buffered. case_decide; [|done]. simpl.
    split; [done|]. intros Hb.
    destruct (decide (fileId0 = fileId)) as [->|Hne].
    + rewrite lookup_insert_eq. apply array_defined_new_Array.
    + by rewrite lookup_insert_ne.
  - (* file-chunk *)
    unfold on_file_chunk. case_decide as Hcan; [done|].
    assert (fileId0 ≠ fileId) as Hne by by intros ->.
    match goal with
    | |- context [send (chunk_ack fileId0 chunk) ?s] => set (st1 := s)
    end.
    assert (cancelledTransfersRef st1 = cancelledTransfersRef st
            ∧ fileChunksRef st1 !! fileId = fileChunksRef st !! fileId)
      as [Hc1 Hf1].
    { unfold st1, updateSpeed_download.
      repeat case_match; simpl; by rewrite lookup_insert_ne. }
    unfold buffered.
    repeat case_decide; simpl;
      rewrite ?send_cancelledTransfersRef, ?send_fileChunksRef,
        ?lookup_delete_ne, ?Hc1, ?Hf1 by done; done.
  - (* chunk-ack *)
    unfold on_chunk_ack, buffered. by case_match.
  - (* file-cancel *)
    unfold on_file_cancel, buffered.
    rewrite send_cancelledTransfersRef, send_fileChunksRef. simpl.
    split; [set_solver|]. intros Hb.
    destruct (decide (fileId0 = fileId)) as [->|Hne].
    + by rewrite lookup_delete_eq.
    + by rewrite lookup_delete_ne.
Qed.

Lemma acceptFileTransfer_same_buffers st fileId :
  same_buffers st (acceptFileTransfer st fileId).
Proof.
  unfold acceptFileTransfer. repeat case_match; try done.
  split; simpl; by rewrite ?send_cancelledTransfersRef, ?send_fileChunksRef.
Qed.

Lemma rejectFileTransfer_same_buffers st fileId :
  same_buffers st (rejectFileTransfer st fileId).
Proof.
  unfold rejectFileTransfer. case_match; [|done].
  split; simpl; by rewrite ?send_cancelledTransfersRef, ?send_fileChunksRef.
Qed.

Lemma cancelFileTransfer_buffers st fileId :
  cancelledTransfersRef st ⊆ cancelledTransfersRef (cancelFileTransfer st fileId)
  ∧ fileChunksRef (cancelFileTransfer st fileId) = fileChunksRef st.
Proof.
  unfold cancelFileTransfer. case_match; [|done]. simpl.
  rewrite send_cancelledTransfersRef, send_fileChunksRef. simpl.
  split; [set_solver|done].
Qed.

Lemma initiateKeyExchange_same_buffers secret st sessionId st' :
  initiateKeyExchange secret st sessionId = Ok st' → same_buffers st st'.
Proof.
  unfold initiateKeyExchange. intros Hi.
  pose proof (ensure_key_pair_same_buffers secret st) as [Hc Hf].
  destruct (ensure_key_pair secret st) as [st1 kp]. simpl in *.
  repeat case_match; simplify_eq.
  split; simpl; by rewrite ?send_cancelledTransfersRef, ?send_fileChunksRef.
Qed.

(** Once a transfer is in the cancellation set it stays there, and its
    buffer stays without bytes, whatever happens. *)
Lemma step_cancelled s e fileId :
  fileId ∈ cancelledTransfersRef (sys_app s) →
  fileId ∈ cancelledTransfersRef (sys_app (step s e))
  ∧ (buffered fileId (sys_app s) = [] →
     buffered fileId (sys_app (step s e)) = []).
Proof.
  intros Hin. destruct e as
    [captured now secret m | k | k now | f | f | f
    | secret sessionId | captured secureMode kex ent file f]; simpl.
  - destruct (handleIncomingData_cancelled captured now secret (sys_app s) m
                fileId Hin) as [Hc Hb].
    destruct (deliver now m
                (handleIncomingData captured now secret (sys_app s) m)
                (sys_listeners s)) as [[[st2 ps] keep] res] eqn:Hd.
    apply deliver_same_buffers in Hd as [Hc2 Hf2]. simpl.
    unfold buffered in *. by rewrite Hc2, Hf2.
  - by repeat case_match.
  - destruct (sys_pumps s !! k) as [p|]; [|done]. case_decide; [|done].
    pose proof (after_read_same_buffers now (sys_app s) p) as [Hc Hf].
    destruct (after_read now (sys_app s) p) as [st' p']. simpl in *.
    unfold buffered. by rewrite Hc, Hf.
  - destruct (acceptFileTransfer_same_buffers (sys_app s) f) as [Hc Hf].
    unfold buffered. by rewrite Hc, Hf.
  - destruct (rejectFileTransfer_same_buffers (sys_app s) f) as [Hc Hf].
    unfold buffered. by rewrite Hc, Hf.
  - destruct (cancelFileTransfer_buffers (sys_app s) f) as [Hc Hf].
    unfold buffered. rewrite Hf. split; [set_solver|done].
  - destruct (initiateKeyExchange secret (sys_app s) sessionId) as [st'|]
      eqn:Hi; [|done].
    apply initiateKeyExchange_same_buffers in Hi as [Hc Hf]. simpl.
    unfold buffered. by rewrite Hc, Hf.
  - destruct (sendFile captured secureMode kex ent (sys_app s) file f)
      as [[st' l]|] eqn:Hs; [|done].
    apply sendFile_spec in Hs as (-> & _). simpl. unfold buffered.
    by rewrite send_cancelledTransfersRef, send_fileChunksRef.
Qed.




End Cancel.


(** ** The last chunk *)

Section LastChunk.
Context `{WebCrypto}.

Lemma elem_of_update_transfer fileId f ts t' :
  t' ∈ update_transfer fileId f ts →
  ∃ t, t ∈ ts ∧ t' = if decide (ft_id t = fileId) then f t else t.
Proof.
  unfold update_transfer. intros Ht.
  apply list_elem_of_In, in_map_iff in Ht as (t & <- & Hin).
  exists t. split; [by apply list_elem_of_In|done].
Qed.


End LastChunk.


(** ** Rejection *)

Section Reject.
Context `{WebCrypto}.













Lemma chunk_message_id p i : is_start_or_chunk_of (pump_fileId p) (chunk_message p i).
Proof. done. Qed.







(** The receiving side of a rejection: [rejectFileTransfer] answers
    ['file-rejected'], forgets the pending request and writes no record. *)
Lemma rejectFileTransfer_spec st fileId :
  connected st = true →
  sent (rejectFileTransfer st fileId) = sent st ++ [file_rejected fileId]
  ∧ transfers (rejectFileTransfer st fileId) = transfers st
  ∧ fileChunksRef (rejectFileTransfer st fileId) = fileChunksRef st
  ∧ Forall (λ p, pt_fileId p ≠ fileId)
      (pendingTransfers (rejectFileTransfer st fileId)).
Proof.
  intros Hc. split.
  { pose proof (rejectFileTransfer_emits st fileId) as [Hs _].
    by rewrite Hc in Hs. }
  unfold rejectFileTransfer. rewrite Hc.
  cbn [transfers fileChunksRef pendingTransfers setPendingTransfers].
  rewrite send_transfers, send_fileChunksRef.
  repeat split; try done.
  apply Forall_forall. intros p Hp. by apply list_elem_of_filter in Hp as [? _].
Qed.

End Reject.


(** ** The fallback to a literal key *)

Lemma btoa_nonempty data : data ≠ [] → Base64.btoa data ≠ "".
Proof.
  intros Hd. unfold Base64.btoa. destruct data as [|a [|b [|c r]]]; done.
Qed.

Section Fallback.
Context `{WebCrypto} {aes_laws : AesGcmLaws}.

Lemma exportKey_nonempty key : exportKey key ≠ "".
Proof. apply btoa_nonempty, aes_export_nonempty. Qed.

Lemma sendFile_encrypt_fallback kex ent keys file :
  kex ≠ KexResolved true →
  sendFile_encrypt true kex ent keys file
  = (fe_data (encryptFile (ent_key ent) (ent_iv ent) file),
     Some (fe_key (encryptFile (ent_key ent) (ent_iv ent) file)),
     fe_iv (encryptFile (ent_key ent) (ent_iv ent) file), None, false).
Proof. intros Hk. unfold sendFile_encrypt. by destruct kex as [[]|]. Qed.

Lemma resolve_key_exchange_pending sessionId b st :
  sessionId ∈ pendingKeyExchangeRef st →
  resolvedKeyExchanges (resolve_key_exchange sessionId b st)
  = resolvedKeyExchanges st ++ [(sessionId, b)].
Proof. intros Hin. unfold resolve_key_exchange. by rewrite decide_True. Qed.

(** C6. A send in secure mode whose key exchange failed (the handle
    resolved with [false], or [initiateKeyExchange] threw) uses the literal
    key: the file is encrypted by [encryptFile] under the freshly generated
    key; the ['file-request'] that [sendFile] sends and the ['file-start']
    that [handleResponse] sends on acceptance carry that key, exported,
    with [secure = false] and no [sessionId]; [decryptFile] with that key
    and IV gives back the bytes of the file, and so does [handleDownload]
    on a record that holds the key and IV of the ['file-start'] and a blob
    of the ciphertext bytes.  The handle of a pending exchange resolves
    with [false] when the import of the peer's key throws or there is no
    key pair. *)
Theorem key_exchange_failure_falls_back_to_literal_key
    (captured : list FileTransfer) (kex : KeyExchangeResult)
    (ent : SendEntropy) (st : AppState) (file : File) (fileId : string) :
  kex ≠ KexResolved true →
  connection_open st = true →
  let e := encryptFile (ent_key ent) (ent_iv ent) file in
  let request :=
    file_request fileId (file_name file) (blob_size (fe_data e))
      (file_type file) (Some (fe_key e)) (Some (fe_iv e)) None false in
  let start :=
    file_start fileId (file_name file) (blob_size (fe_data e))
      (file_type file) (Some (fe_key e)) (Some (fe_iv e)) None false in
  fe_key e = exportKey (ent_key ent)
  ∧ fe_key e ≠ ""
  ∧ (∃ st' l,
       sendFile captured true kex ent st file fileId = Ok (st', l)
       ∧ sent st' = sent st ++ [request]
       ∧ l_fileId l = fileId
       ∧ l_encryptedData l = fe_data e
       ∧ l_key l = Some (fe_key e)
       ∧ l_iv l = Some (fe_iv e)
       ∧ l_sessionId l = None
       ∧ l_secure l = false
       ∧ ∀ now st2, connected st2 = true →
           ∃ st3 p,
             handleResponse now st2 l (file_accepted fileId)
             = (st3, Some p, Resolved true)
             ∧ sent st3 = sent st2 ++ [start])
  ∧ decryptFile (fe_data e) (fe_key e) (fe_iv e) (file_type file)
    = Ok (new_Blob [file_bytes file] (file_type file))
  ∧ (∀ keys t blob,
       ft_blob t = Some blob →
       blob_bytes blob = blob_bytes (fe_data e) →
       ft_key t = Some (fe_key e) →
       ft_iv t = Some (fe_iv e) →
       ft_sessionId t = None →
       handleDownload keys t = Some (Ok (new_Blob [file_bytes file] (ft_type t))))
  ∧ (∀ st0 publicKeyStr sessionId,
       sessionId ∈ pendingKeyExchangeRef st0 →
       (∃ err, importPublicKey publicKeyStr = Throw err) ∨ keyPairRef st0 = None →
       resolvedKeyExchanges (on_key_exchange_reply st0 publicKeyStr sessionId)
       = resolvedKeyExchanges st0 ++ [(sessionId, false)]).
Proof.
  intros Hkex Hopen e request start.
  split; [done|]. split; [apply exportKey_nonempty|].
  split; [|split; [|split]].
  - unfold sendFile, connection_open in *.
    destruct (connRef st) as [c|] eqn:Hc; [|done]. rewrite Hopen.
    rewrite sendFile_encrypt_fallback by done.
    do 2 eexists. split; [reflexivity|].
    cbn [request_of listener_of l_fileId l_encryptedData l_key l_iv
           l_sessionId l_secure].
    split; [unfold sent, send; by rewrite Hc|].
    do 6 (split; [done|]).
    intros now st2 Hconn.
    cbn [handleResponse l_fileId l_encryptedData l_key l_iv l_sessionId
           l_secure l_transfers l_file andb].
    rewrite decide_True by done.
    unfold startFileTransfer.
    change (connected (setTransfers ?f st2)) with (connected st2).
    rewrite Hconn.
    match goal with
    | |- context [start_pump ?a ?b ?c ?d ?f] =>
        pose proof (start_pump_emits a b c d f) as Hem;
        destruct (start_pump a b c d f) as [st3 p]
    end.
    do 2 eexists. split; [reflexivity|].
    unfold sent. cbn [fst] in Hem. rewrite Hem.
    unfold send, connected in *. cbn [connRef setTransfers].
    by destruct (connRef st2).
  - apply decryptFile_encryptFile.
  - intros keys t blob Hb Hbytes Hk Hiv Hsid.
    unfold handleDownload. rewrite Hb, Hiv, Hsid, Hk.
    cbn [truthy andb]. rewrite andb_false_r.
    rewrite decide_False by apply exportKey_nonempty.
    f_equal.
    pose proof (decryptFile_encryptFile (ent_key ent) (ent_iv ent) file
                  (ft_type t)) as Hd.
    unfold decryptFile in *. by rewrite Hbytes.
  - intros st0 pk sid Hin Hfail.
    unfold on_key_exchange_reply.
    destruct Hfail as [[err ->]| ->].
    + by apply resolve_key_exchange_pending.
    + destruct (importPublicKey pk); by apply resolve_key_exchange_pending.
Qed.

End Fallback.

Lemma key_exchange_failure_falls_back_to_literal_key_witness :
  KexThrew ≠ KexResolved true
  ∧ connection_open (H := toy_crypto) (initial_app true) = true
  ∧ (∃ st' l,
       sendFile [] true KexThrew sample_entropy (initial_app true)
         sample_file "f1" = Ok (st', l)
       ∧ l_key l
         = Some (fe_key (encryptFile (ent_key sample_entropy)
                           (ent_iv sample_entropy) sample_file))
       ∧ l_sessionId l = None
       ∧ l_secure l = false)
  ∧ decryptFile
      (fe_data (encryptFile (ent_key sample_entropy) (ent_iv sample_entropy)
                  sample_file))
      (fe_key (encryptFile (ent_key sample_entropy) (ent_iv sample_entropy)
                 sample_file))
      (fe_iv (encryptFile (ent_key sample_entropy) (ent_iv sample_entropy)
                sample_file))
      (file_type sample_file)
    = Ok (new_Blob [file_bytes sample_file] (file_type sample_file)).
Proof.
  assert (KexThrew ≠ KexResolved true) as H1 by discriminate.
  assert (connection_open (H := toy_crypto) (initial_app true) = true) as H2
    by reflexivity.
  split; [exact H1|]. split; [exact H2|].
  pose proof (key_exchange_failure_falls_back_to_literal_key
                (aes_laws := toy_aes_laws) [] KexThrew sample_entropy
                (initial_app true) sample_file "f1" H1 H2)
    as (_ & _ & (st' & l & Hsend & _ & _ & _ & Hkey & _ & Hsid & Hsec & _)
        & Hdec & _).
  split; [|exact Hdec].
  exists st', l. by repeat split.
Defined.

(** ** Reassembly on the receiving side *)

Section Reassembly.
Context `{WebCrypto}.

Lemma step_Recv_data s captured now secret m :
  (∀ f, m ≠ file_accepted f) → (∀ f, m ≠ file_rejected f) →
  step s (Recv captured now secret m)
  = set_app (handleIncomingData captured now secret (sys_app s) m) s.
Proof.
  intros Ha Hr. cbn [step]. rewrite deliver_ignores by done.
  unfold set_app. by rewrite !app_nil_r.
Qed.

(** Filling the slot [i] of a buffer whose first [i] slots are filled. *)
Lemma array_set_next {A} (got : list A) (h : nat) (i : Z) (x : A) :
  i = Z.of_nat (length got) → (i < 2 ^ 32 - 1)%Z →
  array_set ((Some <$> got) ++ replicate h None) i x
  = (Some <$> (got ++ [x])) ++ replicate (pred h) None.
Proof.
  intros -> Hi. unfold array_set. rewrite decide_True by lia.
  rewrite Nat2Z.id, length_app, length_fmap, length_replicate.
  destruct h as [|h]; simpl.
  - rewrite Nat.add_0_r, !app_nil_r.
    replace (S (length got) - length got) with 1 by lia. simpl.
    rewrite fmap_app. simpl.
    rewrite insert_app_r_alt by (rewrite length_fmap; lia).
    rewrite length_fmap, Nat.sub_diag. done.
  - replace (S (length got) - (length got + S h)) with 0 by lia.
    simpl. rewrite app_nil_r, fmap_app. simpl.
    rewrite insert_app_r_alt by (rewrite length_fmap; lia).
    rewrite length_fmap, Nat.sub_diag. simpl. by rewrite <- app_assoc.
Qed.

Lemma array_defined_filled {A} (got : list A) (h : nat) :
  array_defined ((Some <$> got) ++ replicate h None) = got.
Proof.
  unfold array_defined. rewrite omap_app.
  assert (omap id (replicate h (@None A)) = []) as ->.
  { induction h; simpl; auto. }
  rewrite app_nil_r. induction got; simpl; [done|]. by f_equal.
Qed.


(** One chunk of a transfer that is not cancelled. *)
Lemma on_file_chunk_live captured now st fileId chunk total data :
  fileId ∉ cancelledTransfersRef st →
  let slots := array_set (default [] (fileChunksRef st !! fileId)) chunk data in
  let blob := new_Blob (array_defined slots) (blob_type_for fileId captured) in
  let st' := on_file_chunk captured now st fileId chunk total data in
  cancelledTransfersRef st' = cancelledTransfersRef st
  ∧ connRef st' = connRef (send (chunk_ack fileId chunk) st)
  ∧ fileChunksRef st' !! fileId
    = (if decide (chunk = total - 1)%Z then None else Some slots)
  ∧ length (transfers st') = length (transfers st)
  ∧ (∀ j t, transfers st !! j = Some t → ft_id t = fileId →
      ∃ p e, transfers st' !! j
             = Some (if decide (chunk = total - 1)%Z
                     then ft_completed (Some blob) (ft_transferring_eta p e t)
                     else ft_transferring_eta p e t))
  ∧ (∀ j t, transfers st !! j = Some t → ft_id t ≠ fileId →
       transfers st' !! j = Some t).
Proof.
  intros Hlive slots blob st'. subst st'. unfold on_file_chunk.
  rewrite decide_False by done. cbv zeta.
  match goal with
  | |- context [if ?b then updateSpeed_download ?n ?f ?x else ?x] =>
      set (st3 := if b then updateSpeed_download n f x else x)
  end.
  assert (cancelledTransfersRef st3 = cancelledTransfersRef st
          ∧ connRef st3 = connRef st
          ∧ fileChunksRef st3 = <[fileId := slots]> (fileChunksRef st)
          ∧ transfers st3 = transfers st) as (Hc3 & Hn3 & Hf3 & Ht3).
  { subst st3. by destruct (_ || _). }
  clearbody st3.
  set (progress := Math_round _).
  set (st4 := match find_transfer fileId captured with
              | Some transfer => _
              | None => _
              end).
  assert (cancelledTransfersRef st4 = cancelledTransfersRef st
          ∧ connRef st4 = connRef st
          ∧ fileChunksRef st4 = <[fileId := slots]> (fileChunksRef st)
          ∧ length (transfers st4) = length (transfers st)
          ∧ (∀ j t, transfers st !! j = Some t → ft_id t = fileId →
              ∃ p e, transfers st4 !! j = Some (ft_transferring_eta p e t))
          ∧ (∀ j t, transfers st !! j = Some t → ft_id t ≠ fileId →
               transfers st4 !! j = Some t))
    as (Hc4 & Hn4 & Hf4 & Hl4 & Ht4 & Ho4).
  { subst st4. destruct (find_transfer fileId captured) as [tr|];
      cbn [setTransfers cancelledTransfersRef connRef fileChunksRef transfers];
      rewrite Ht3; unfold update_transfer;
      (split; [done|]; split; [done|]; split; [done|];
       split; [by rewrite length_map|]; split);
      intros j t Hj Hid; rewrite list_lookup_fmap, Hj; simpl;
      [rewrite decide_True by done; by do 2 eexists
      |by rewrite decide_False
      |rewrite decide_True by done; by do 2 eexists
      |by rewrite decide_False]. }
  clearbody st4.
  rewrite !(decide_False (P := fileId ∈ cancelledTransfersRef st4))
    by (by rewrite Hc4).
  destruct (decide (chunk = total - 1)%Z) as [Hlast|Hlast].
  - cbn [set_fileChunksRef setTransfers cancelledTransfersRef connRef
           fileChunksRef transfers].
    rewrite send_cancelledTransfersRef, send_fileChunksRef, send_transfers.
    rewrite Hf4, lookup_insert_eq. cbn [default].
    split; [done|]. split.
    { unfold send. rewrite Hn4.
      destruct (connRef st) as [c|] eqn:E; cbn [connRef set_connRef];
        [done|congruence]. }
    split; [by rewrite lookup_delete_eq|].
    split; [by unfold update_transfer; rewrite length_map|].
    split.
    + intros j t Hj Hid. destruct (Ht4 j t Hj Hid) as (p & e & Hj4).
      exists p, e. unfold update_transfer.
      rewrite list_lookup_fmap, Hj4. simpl. by rewrite decide_True.
    + intros j t Hj Hid. unfold update_transfer.
      rewrite list_lookup_fmap, (Ho4 j t Hj Hid). simpl.
      by rewrite decide_False.
  - rewrite send_cancelledTransfersRef, send_fileChunksRef, send_transfers.
    split; [done|]. split.
    { unfold send. rewrite Hn4.
      destruct (connRef st) as [c|] eqn:E; cbn [connRef set_connRef];
        [done|congruence]. }
    split; [by rewrite Hf4, lookup_insert_eq|]. by repeat split.
Qed.

Lemma connRef_sent st st' : connRef st' = connRef st → sent st' = sent st.
Proof. unfold sent. by intros ->. Qed.

Lemma connRef_connected st st' :
  connRef st' = connRef st → connected st' = connected st.
Proof. unfold connected. by intros ->. Qed.

(** The chunks of a transfer arriving in order, the buffer holding the
    chunks before them. *)
Lemma receive_chunks captured fileId total j :
  ∀ arrivals i s got h t,
    arrivals ≠ [] →
    fileId ∉ cancelledTransfersRef (sys_app s) →
    fileChunksRef (sys_app s) !! fileId
    = Some ((Some <$> got) ++ replicate h None) →
    i = Z.of_nat (length got) →
    total = (i + Z.of_nat (length arrivals))%Z →
    (total < 2 ^ 32)%Z →
    transfers (sys_app s) !! j = Some t → ft_id t = fileId →
    let s' := run s (chunk_events captured fileId total i arrivals) in
    fileChunksRef (sys_app s') !! fileId = None
    ∧ (∃ p e,
         transfers (sys_app s') !! j
         = Some (ft_completed
                   (Some (new_Blob (got ++ arrivals.*2)
                            (blob_type_for fileId captured)))
                   (ft_transferring_eta p e t)))
    ∧ (∀ j' t', transfers (sys_app s) !! j' = Some t' → ft_id t' ≠ fileId →
         transfers (sys_app s') !! j' = Some t')
    ∧ length (transfers (sys_app s')) = length (transfers (sys_app s))
    ∧ sent (sys_app s')
      = sent (sys_app s)
        ++ (if connected (sys_app s)
            then chunk_ack fileId <$> seqZ i (Z.of_nat (length arrivals))
            else [])
    ∧ sys_pumps s' = sys_pumps s
    ∧ sys_listeners s' = sys_listeners s
    ∧ sys_resolved s' = sys_resolved s.
Proof.
  induction arrivals as [|a rest IH];
    intros i s got h t Hne Hlive Hbuf Hi Htot Hbound Hj Hid; [done|].
  cbn [chunk_events run foldl]. fold (run (step s (Recv captured a.1 0
    (file_chunk fileId i total a.2)))
    (chunk_events captured fileId total (i + 1) rest)).
  rewrite step_Recv_data by done. cbn [handleIncomingData].
  pose proof (on_file_chunk_live captured a.1 (sys_app s) fileId i total a.2
                Hlive) as Hstep.
  cbn zeta in Hstep. rewrite Hbuf in Hstep. cbn [default id] in Hstep.
  rewrite (array_set_next got h i a.2) in Hstep
    by (cbn [length] in Htot; lia).
  rewrite array_defined_filled in Hstep.
  set (st1 := on_file_chunk captured a.1 (sys_app s) fileId i total a.2) in *.
  destruct Hstep as (Hc & Hn & Hf & Hl & Ht & Ho).
  destruct (Ht j t Hj Hid) as (p & e & Hj1).
  assert (sent st1 = sent (sys_app s)
                     ++ (if connected (sys_app s)
                         then [chunk_ack fileId i] else [])) as Hsent.
  { rewrite (connRef_sent _ _ Hn). apply sent_send_cases. }
  assert (connected st1 = connected (sys_app s)) as Hconn.
  { rewrite (connRef_connected _ _ Hn). apply connected_send. }
  destruct rest as [|b rest'].
  - (* the last chunk *)
    cbn [length] in Htot.
    rewrite decide_True in Hf by lia. rewrite decide_True in Hj1 by lia.
    cbn [chunk_events run foldl set_app sys_app sys_pumps sys_listeners
           sys_resolved fmap list_fmap].
    split; [done|]. split; [by exists p, e|]. split; [done|].
    split; [done|]. split; [|done].
    rewrite Hsent. destruct (connected (sys_app s)); [|done].
    by cbn [length].
  - cbn [length] in Htot.
    rewrite decide_False in Hf by lia. rewrite decide_False in Hj1 by lia.
    specialize (IH (i + 1)%Z (set_app st1 s) (got ++ [a.2]) (pred h)
                  (ft_transferring_eta p e t)).
    cbn [set_app sys_app sys_pumps sys_listeners sys_resolved] in IH.
    destruct IH as (Hb' & (p' & e' & Hj') & Ho' & Hl' & Hs' & Hp' & Hls' & Hr');
      [done|by rewrite Hc|done|rewrite length_app; simpl; lia
      |cbn [length]; lia|done|done|done|].
    split; [done|]. split.
    { exists p', e'. rewrite Hj'. cbn [fmap list_fmap].
      by rewrite <- app_assoc. }
    split; [intros j' t' Hj'' Hid'; apply Ho'; [by apply Ho|done]|].
    split; [by rewrite Hl'|]. split; [|done].
    rewrite Hs', Hsent, Hconn. destruct (connected (sys_app s)).
    + rewrite <- app_assoc. f_equal. simpl.
      rewrite (seqZ_cons i) by (cbn [length]; lia). simpl. f_equal.
      f_equal. f_equal; cbn [length]; lia.
    + by rewrite app_nil_r.
Qed.


Lemma on_file_start_spec st fileId fileName fileSize fileType key iv :
  (0 ≤ Math_ceil (inject_Z fileSize / inject_Z CHUNK_SIZE) < 2 ^ 32)%Z →
  let st' := on_file_start st fileId fileName fileSize fileType key iv in
  cancelledTransfersRef st' = cancelledTransfersRef st
  ∧ connRef st' = connRef st
  ∧ fileChunksRef st' !! fileId
    = Some (replicate
              (Z.to_nat (Math_ceil (inject_Z fileSize / inject_Z CHUNK_SIZE)))
              None)
  ∧ transfers st'
    = transfers st
      ++ [ {| ft_id := fileId; ft_name := fileName; ft_size := fileSize;
              ft_type := fileType; ft_progress := 0; ft_status := pending;
              ft_blob := None; ft_key := key; ft_iv := iv;
              ft_sessionId := None; ft_estimatedTimeRemaining := None;
              ft_secure := None |} ].
Proof.
  intros Hn. unfold on_file_start. rewrite decide_True by done.
  cbn [setTransfers set_telemetry set_fileChunksRef cancelledTransfersRef
         connRef fileChunksRef transfers].
  by rewrite lookup_insert_eq.
Qed.

(** X1. A ['file-start'] followed by the chunks of the transfer in the order
    of their indices, the last one carrying the index [total - 1], on a side
    that has not cancelled the transfer: the record that ['file-start']
    appended ends completed with the progress 100 and a blob that is the
    concatenation of the chunks received, whatever size was announced; the
    records of other transfers are as before, the buffer of the transfer is
    gone, and one acknowledgement per chunk went out, in the order of the
    chunks. *)
Theorem in_order_chunks_reassemble
    (s : Sys) (captured : list FileTransfer) (now : Q) (secret : nat)
    (fileId fileName : string) (fileSize : Z) (fileType : string)
    (key : option string) (iv : option (list Z)) (sessionId : option string)
    (secure : bool) (arrivals : list (Q * list byte)) :
  fileId ∉ cancelledTransfersRef (sys_app s) →
  arrivals ≠ [] →
  (0 ≤ Math_ceil (inject_Z fileSize / inject_Z CHUNK_SIZE) < 2 ^ 32)%Z →
  (Z.of_nat (length arrivals) < 2 ^ 32)%Z →
  let s' :=
    run s
      (Recv captured now secret
         (file_start fileId fileName fileSize fileType key iv sessionId secure)
       :: chunk_events captured fileId (Z.of_nat (length arrivals)) 0
            arrivals) in
  (∃ eta,
     transfers (sys_app s') !! length (transfers (sys_app s))
     = Some (received_record fileId fileName fileSize fileType key iv
               (new_Blob arrivals.*2 (blob_type_for fileId captured)) eta))
  ∧ length (transfers (sys_app s')) = S (length (transfers (sys_app s)))
  ∧ (∀ j t, transfers (sys_app s) !! j = Some t → ft_id t ≠ fileId →
       transfers (sys_app s') !! j = Some t)
  ∧ fileChunksRef (sys_app s') !! fileId = None
  ∧ sent (sys_app s')
    = sent (sys_app s)
      ++ (if connected (sys_app s)
          then chunk_ack fileId <$> seqZ 0 (Z.of_nat (length arrivals))
          else []).
Proof.
  intros Hlive Hne Hsize Hlen s'. subst s'.
  cbn [run foldl].
  fold (run (step s (Recv captured now secret
                       (file_start fileId fileName fileSize fileType key iv
                          sessionId secure)))
          (chunk_events captured fileId (Z.of_nat (length arrivals)) 0
             arrivals)).
  rewrite step_Recv_data by done. cbn [handleIncomingData].
  pose proof (on_file_start_spec (sys_app s) fileId fileName fileSize fileType
                key iv Hsize) as Hstart.
  cbn zeta in Hstart.
  set (st1 := on_file_start (sys_app s) fileId fileName fileSize fileType key
                iv) in *.
  destruct Hstart as (Hc & Hn & Hf & Ht).
  pose proof (receive_chunks captured fileId (Z.of_nat (length arrivals))
                (length (transfers (sys_app s))) arrivals 0 (set_app st1 s)
                []
                (Z.to_nat
                   (Math_ceil (inject_Z fileSize / inject_Z CHUNK_SIZE)))
                {| ft_id := fileId; ft_name := fileName; ft_size := fileSize;
                   ft_type := fileType; ft_progress := 0;
                   ft_status := pending; ft_blob := None; ft_key := key;
                   ft_iv := iv; ft_sessionId := None;
                   ft_estimatedTimeRemaining := None; ft_secure := None |}
                Hne) as Hrun.
  cbn [set_app sys_app sys_pumps sys_listeners sys_resolved] in Hrun.
  destruct Hrun as (Hb' & (p & e & Hj') & Ho' & Hl' & Hs' & _);
    [by rewrite Hc|exact Hf|done|lia|done
    |by rewrite Ht, lookup_app_r, Nat.sub_diag by lia|done|].
  split; [by exists e|].
  split; [by rewrite Hl', Ht, length_app, Nat.add_1_r|].
  split.
  { intros j t Hj Hid. apply Ho'; [|done].
    rewrite Ht. by apply lookup_app_l_Some. }
  split; [done|].
  by rewrite Hs', (connRef_sent _ _ Hn), (connRef_connected _ _ Hn).
Qed.

End Reassembly.

Lemma in_order_chunks_reassemble_witness :
  ("f1" ∉ cancelledTransfersRef (sys_app (H := toy_crypto) initial_sys))
  ∧ [(1%Q, [Byte.x68]); (2%Q, [Byte.x69; Byte.x21])] ≠ []
  ∧ (0 ≤ Math_ceil (inject_Z 3 / inject_Z CHUNK_SIZE) < 2 ^ 32)%Z
  ∧ (Z.of_nat (length [(1%Q, [Byte.x68]); (2%Q, [Byte.x69; Byte.x21])])
     < 2 ^ 32)%Z
  ∧ sent
      (sys_app
         (run initial_sys
            (Recv [] 0 0
               (file_start "f1" "notes.txt" 3 "text/plain" None None None
                  false)
             :: chunk_events [] "f1" 2 0
                  [(1%Q, [Byte.x68]); (2%Q, [Byte.x69; Byte.x21])])))
    = [chunk_ack "f1" 0; chunk_ack "f1" 1].
Proof.
  assert ("f1" ∉ cancelledTransfersRef (sys_app (H := toy_crypto) initial_sys))
    as H1 by set_solver.
  assert ([(1%Q, [Byte.x68]); (2%Q, [Byte.x69; Byte.x21])] ≠ []) as H2 by done.
  assert (0 ≤ Math_ceil (inject_Z 3 / inject_Z CHUNK_SIZE) < 2 ^ 32)%Z as H3
    by (vm_compute; split; [discriminate|reflexivity]).
  assert (Z.of_nat (length [(1%Q, [Byte.x68]); (2%Q, [Byte.x69; Byte.x21])])
          < 2 ^ 32)%Z as H4 by (vm_compute; reflexivity).
  do 4 (split; [assumption|]).
  pose proof (in_order_chunks_reassemble initial_sys [] 0 0 "f1" "notes.txt" 3
                "text/plain" None None None false
                [(1%Q, [Byte.x68]); (2%Q, [Byte.x69; Byte.x21])] H1 H2 H3 H4)
    as (_ & _ & _ & _ & Hsent).
  exact Hsent.
Defined.

(** ** A transfer from end to end *)

Lemma snd_zip_same_length {A B} (l : list A) (k : list B) :
  length l = length k → (zip l k).*2 = k.
Proof. intros Hl. apply snd_zip. lia. Qed.

Section EndToEnd.
Context `{WebCrypto}.

Lemma blob_arrivals_spec blob times :
  length times = Z.to_nat (totalChunks_of (blob_size blob)) →
  (blob_arrivals blob times).*2
  = chunk_bytes blob <$> seqZ 0 (totalChunks_of (blob_size blob))
  ∧ length (blob_arrivals blob times)
    = Z.to_nat (totalChunks_of (blob_size blob))
  ∧ concat (blob_arrivals blob times).*2 = blob_bytes blob.
Proof.
  intros Hl. unfold blob_arrivals.
  assert (length (chunk_bytes blob <$> seqZ 0 (totalChunks_of (blob_size blob)))
          = length times) as Hk
    by by rewrite length_fmap, length_seqZ.
  rewrite snd_zip_same_length by done.
  split; [done|]. split.
  - rewrite length_zip_with, Hk. lia.
  - apply concat_chunk_bytes.
Qed.

Context {aes_laws : AesGcmLaws}.

(** X2. A file encrypted by [encryptFile], announced by the ['file-start']
    that [startFileTransfer] sends and received chunk by chunk as the pump
    cuts it: the record of the receiving side ends completed, its blob has
    the bytes of the ciphertext, and [handleDownload] gives back the bytes
    of the file under the type of the file. *)
Theorem literal_key_transfer_downloads
    (s : Sys) (captured : list FileTransfer) (now : Q) (secret : nat)
    (freshKey : AesKey) (entropy : list byte) (file : File)
    (fileId : string) (times : list Q) (keys : gmap string AesKey) :
  let e := encryptFile freshKey entropy file in
  let n := totalChunks_of (blob_size (fe_data e)) in
  fileId ∉ cancelledTransfersRef (sys_app s) →
  (0 < blob_size (fe_data e))%Z →
  (n < 2 ^ 32)%Z →
  length times = Z.to_nat n →
  let s' :=
    run s
      (Recv captured now secret
         (file_start fileId (file_name file) (blob_size (fe_data e))
            (file_type file) (Some (fe_key e)) (Some (fe_iv e)) None false)
       :: chunk_events captured fileId n 0 (blob_arrivals (fe_data e) times))
  in
  ∃ t,
    transfers (sys_app s') !! length (transfers (sys_app s)) = Some t
    ∧ ft_status t = completed
    ∧ ft_name t = file_name file
    ∧ (∃ blob, ft_blob t = Some blob
               ∧ blob_bytes blob = blob_bytes (fe_data e))
    ∧ handleDownload keys t
      = Some (Ok (new_Blob [file_bytes file] (file_type file))).
Proof.
  intros e n Hlive Hpos Hn Htimes s'.
  destruct (blob_arrivals_spec (fe_data e) times Htimes) as (Hsnd & Hlen & Hcat).
  destruct (totalChunks_of_bounds (blob_size (fe_data e))) as [Hn0 Hn1];
    [lia|]. fold n in Hn0, Hn1, Hlen.
  assert (0 < n)%Z as Hn2 by (pose proof CHUNK_SIZE_pos; nia).
  assert (Z.of_nat (length (blob_arrivals (fe_data e) times)) = n) as Hlen'
    by lia.
  pose proof (in_order_chunks_reassemble s captured now secret fileId
                (file_name file) (blob_size (fe_data e)) (file_type file)
                (Some (fe_key e)) (Some (fe_iv e)) None false
                (blob_arrivals (fe_data e) times) Hlive) as Hre.
  rewrite Hlen' in Hre.
  destruct Hre as ((eta & Ht) & _);
    [intros Hnil; rewrite Hnil in Hlen'; simpl in Hlen'; lia
    |fold (totalChunks_of (blob_size (fe_data e))); fold n; lia|lia|].
  eexists. split; [exact Ht|].
  split; [done|]. split; [done|]. split.
  { eexists. split; [reflexivity|]. exact Hcat. }
  unfold handleDownload, received_record.
  cbn [ft_blob ft_iv ft_secure ft_sessionId ft_key ft_type default truthy
         andb].
  rewrite decide_False by apply exportKey_nonempty.
  f_equal.
  pose proof (decryptFile_encryptFile freshKey entropy file (file_type file))
    as Hd.
  unfold decryptFile in *. cbn [blob_bytes new_Blob]. fold e in Hd.
  by rewrite Hcat.
Qed.

End EndToEnd.

Section SecureDownload.
Context `{WebCrypto}.

(** X3. A transfer started by [startSecureFileTransfer]: its ['file-start']
    carries the session id and no key, and the record the receiving side
    keeps of it has neither; once the chunks are in, the record is completed
    with a blob, and [handleDownload] throws 'Missing encryption
    information' whatever session keys the store holds. *)
Theorem secure_transfer_download_fails
    (sender : AppState) (captured' : list FileTransfer) (now' : Q)
    (encryptedBlob : Blob) (s : Sys) (captured : list FileTransfer) (now : Q)
    (secret : nat) (fileId fileName fileType sessionId : string)
    (iv : list Z) (arrivals : list (Q * list byte)) :
  connected sender = true →
  fileId ∉ cancelledTransfersRef (sys_app s) →
  arrivals ≠ [] →
  (0 ≤ totalChunks_of (blob_size encryptedBlob) < 2 ^ 32)%Z →
  (Z.of_nat (length arrivals) < 2 ^ 32)%Z →
  let start :=
    file_start fileId fileName (blob_size encryptedBlob) fileType None
      (Some iv) (Some sessionId) true in
  let s' :=
    run s
      (Recv captured now secret start
       :: chunk_events captured fileId (Z.of_nat (length arrivals)) 0
            arrivals) in
  sent (startSecureFileTransfer captured' now' sender encryptedBlob fileId
          fileName fileType sessionId (Some iv)).1
  = sent sender ++ [start]
  ∧ ∃ t blob,
      transfers (sys_app s') !! length (transfers (sys_app s)) = Some t
      ∧ ft_status t = completed
      ∧ ft_blob t = Some blob
      ∧ blob_bytes blob = concat arrivals.*2
      ∧ ft_key t = None ∧ ft_sessionId t = None ∧ ft_secure t = None
      ∧ ∀ keys, handleDownload keys t = Some (Throw MissingEncryptionInfo).
Proof.
  intros Hconn Hlive Hne Hsize Hlen start s'. split.
  - unfold startSecureFileTransfer.
    change (connected (setTransfers ?f sender)) with (connected sender).
    rewrite Hconn.
    match goal with
    | |- context [start_pump ?a ?b ?c ?d ?f] =>
        pose proof (start_pump_emits a b c d f) as Hem;
        destruct (start_pump a b c d f) as [st3 p]
    end.
    cbn [fst] in *. rewrite (connRef_sent _ _ Hem).
    unfold sent, send, connected in *. cbn [connRef setTransfers].
    by destruct (connRef sender).
  - destruct (in_order_chunks_reassemble s captured now secret fileId fileName
                (blob_size encryptedBlob) fileType None (Some iv)
                (Some sessionId) true arrivals Hlive Hne Hsize Hlen)
      as ((eta & Ht) & _).
    do 2 eexists. split; [exact Ht|]. by repeat split.
Qed.

End SecureDownload.

Lemma literal_key_transfer_downloads_witness :
  ("f1" ∉ cancelledTransfersRef (sys_app (H := toy_crypto) initial_sys))
  ∧ (0 < blob_size (fe_data (encryptFile Byte.x2a [] sample_file)))%Z
  ∧ (totalChunks_of (blob_size (fe_data (encryptFile Byte.x2a [] sample_file)))
     < 2 ^ 32)%Z
  ∧ length [1%Q]
    = Z.to_nat
        (totalChunks_of
           (blob_size (fe_data (encryptFile Byte.x2a [] sample_file))))
  ∧ ∃ t,
      transfers
        (sys_app
           (run initial_sys
              (Recv [] 0 0
                 (file_start "f1" (file_name sample_file)
                    (blob_size (fe_data (encryptFile Byte.x2a [] sample_file)))
                    (file_type sample_file)
                    (Some (fe_key (encryptFile Byte.x2a [] sample_file)))
                    (Some (fe_iv (encryptFile Byte.x2a [] sample_file))) None
                    false)
               :: chunk_events [] "f1"
                    (totalChunks_of
                       (blob_size
                          (fe_data (encryptFile Byte.x2a [] sample_file))))
                    0
                    (blob_arrivals
                       (fe_data (encryptFile Byte.x2a [] sample_file))
                       [1%Q]))))
      !! length (transfers (sys_app (H := toy_crypto) initial_sys)) = Some t
      ∧ handleDownload ∅ t
        = Some (Ok (new_Blob [file_bytes sample_file] (file_type sample_file))).
Proof.
  assert ("f1" ∉ cancelledTransfersRef (sys_app (H := toy_crypto) initial_sys))
    as H1 by set_solver.
  assert (0 < blob_size (fe_data (encryptFile Byte.x2a [] sample_file)))%Z
    as H2 by (vm_compute; reflexivity).
  assert (totalChunks_of
            (blob_size (fe_data (encryptFile Byte.x2a [] sample_file)))
          < 2 ^ 32)%Z as H3 by (vm_compute; reflexivity).
  assert (length [1%Q]
          = Z.to_nat
              (totalChunks_of
                 (blob_size (fe_data (encryptFile Byte.x2a [] sample_file)))))
    as H4 by (vm_compute; reflexivity).
  do 4 (split; [assumption|]).
  destruct (literal_key_transfer_downloads (aes_laws := toy_aes_laws)
              initial_sys [] 0 0 Byte.x2a [] sample_file "f1" [1%Q] ∅
              H1 H2 H3 H4) as (t & Ht & _ & _ & _ & Hd).
  by exists t.
Defined.

Lemma secure_transfer_download_fails_witness :
  connected (initial_app (H := toy_crypto) true) = true
  ∧ ("f1" ∉ cancelledTransfersRef (sys_app (H := toy_crypto) initial_sys))
  ∧ [(1%Q, [Byte.x2a; Byte.x68])] ≠ []
  ∧ (0 ≤ totalChunks_of (blob_size (new_Blob [[Byte.x2a; Byte.x68]] ""))
     < 2 ^ 32)%Z
  ∧ (Z.of_nat (length [(1%Q, [Byte.x2a; Byte.x68])]) < 2 ^ 32)%Z
  ∧ ∃ t,
      transfers
        (sys_app
           (run initial_sys
              (Recv [] 0 0
                 (file_start "f1" "a.txt"
                    (blob_size (new_Blob [[Byte.x2a; Byte.x68]] ""))
                    "text/plain" None (Some [1%Z]) (Some "ab") true)
               :: chunk_events [] "f1"
                    (Z.of_nat (length [(1%Q, [Byte.x2a; Byte.x68])])) 0
                    [(1%Q, [Byte.x2a; Byte.x68])])))
      !! length (transfers (sys_app (H := toy_crypto) initial_sys)) = Some t
      ∧ handleDownload {[ "ab" := Byte.x2a ]} t
        = Some (Throw MissingEncryptionInfo).
Proof.
  assert (connected (initial_app (H := toy_crypto) true) = true) as H0
    by reflexivity.
  assert ("f1" ∉ cancelledTransfersRef (sys_app (H := toy_crypto) initial_sys))
    as H1 by set_solver.
  assert ([(1%Q, [Byte.x2a; Byte.x68])] ≠ []) as H2 by done.
  assert (0 ≤ totalChunks_of (blob_size (new_Blob [[Byte.x2a; Byte.x68]] ""))
          < 2 ^ 32)%Z as H3
    by (vm_compute; split; [discriminate|reflexivity]).
  assert (Z.of_nat (length [(1%Q, [Byte.x2a; Byte.x68])]) < 2 ^ 32)%Z as H4
    by (vm_compute; reflexivity).
  do 5 (split; [assumption|]).
  destruct (secure_transfer_download_fails (initial_app true) [] 0
              (new_Blob [[Byte.x2a; Byte.x68]] "") initial_sys [] 0 0
              "f1" "a.txt" "text/plain" "ab" [1%Z]
              [(1%Q, [Byte.x2a; Byte.x68])] H0 H1 H2 H3 H4)
    as (_ & t & blob & Ht & _ & _ & _ & _ & _ & _ & Hd).
  exists t. split; [exact Ht|apply Hd].
Defined.

(** ** Cancelling on the sending side *)

Lemma filter_insert_length {A} (P : A → Prop) `{!∀ x, Decision (P x)}
    (l : list A) (k : nat) (x y : A) :
  l !! k = Some x →
  length (filter P (<[k := y]> l)) + (if decide (P x) then 1 else 0)
  = length (filter P l) + (if decide (P y) then 1 else 0).
Proof.
  intros Hk.
  rewrite <- (take_drop_middle l k x Hk) at 2.
  rewrite insert_take_drop by (by eapply lookup_lt_Some).
  rewrite !filter_app, !filter_cons, !length_app.
  destruct (decide (P x)), (decide (P y)); simpl; lia.
Qed.

Lemma filter_unique_length {A B} `{EqDecision B} (f : A → B) (b : B)
    (Q : A → Prop) `{!∀ x, Decision (Q x)} (l : list A) :
  NoDup (f <$> l) → length (filter (λ x, f x = b ∧ Q x) l) ≤ 1.
Proof.
  induction l as [|a l IH]; simpl; [lia|].
  intros Hnd. apply NoDup_cons in Hnd as [Hnotin Hnd].
  rewrite filter_cons. destruct (decide (f a = b ∧ Q a)) as [[Ha _]|_];
    [|by apply IH].
  simpl. rewrite filter_nil_Forall; [simpl; lia|].
  apply Forall_forall. intros x Hx [Hfx _]. apply Hnotin.
  rewrite Ha, <- Hfx. by apply list_elem_of_fmap_2.
Qed.

Section CancelSenderFacts.
Context `{WebCrypto}.

Lemma start_pump_cancelled captured now st blob fileId :
  fileId ∈ cancelledTransfersRef st →
  pump_phase (start_pump captured now st blob fileId).2 ≠ Reading.
Proof.
  intros Hc Hr. unfold start_pump in Hr. cbn [snd] in Hr.
  apply loop_head_reading in Hr as (_ & _ & Hnot). by apply Hnot.
Qed.

Lemma handleResponse_cancelled now st l m st' p outcome :
  handleResponse now st l m = (st', Some p, outcome) →
  pump_fileId p ∈ cancelledTransfersRef st → pump_phase p ≠ Reading.
Proof.
  intros Hr. pose proof (handleResponse_window _ _ _ _ _ _ _ Hr) as [_ Hid].
  cbn in Hid. destruct Hid as (Hid & _ & _). rewrite Hid. intros Hc.
  unfold handleResponse in Hr. destruct m; try done.
  - destruct (decide _) as [->|]; [|done].
    destruct (l_secure l && truthy (l_sessionId l)), (l_sessionId l);
      unfold startSecureFileTransfer, startFileTransfer in Hr;
      match type of Hr with
      | context [if connected ?x then _ else _] => destruct (connected x)
      end; try done;
      match type of Hr with
      | context [start_pump ?a ?b ?c ?d ?f] =>
          pose proof (start_pump_cancelled a b c d f) as Hsp;
          destruct (start_pump a b c d f) as [st3 p3]
      end; simplify_eq; apply Hsp;
      by rewrite send_cancelledTransfersRef.
  - destruct (decide _); [|done]. by destruct (connected _).
Qed.

Lemma deliver_cancelled now m fileId ls : ∀ st st' ps keep res,
  deliver now m st ls = (st', ps, keep, res) →
  fileId ∈ cancelledTransfersRef st →
  Forall (λ p, pump_fileId p = fileId → pump_phase p ≠ Reading) ps.
Proof.
  induction ls as [|l ls IH]; intros st st' ps keep res Hd Hc.
  - simpl in Hd. by simplify_eq.
  - simpl in Hd.
    destruct (handleResponse now st l m) as [[st1 started] outcome] eqn:Hr.
    destruct (deliver now m st1 ls) as [[[st2 ps2] keep2] res2] eqn:Hd2.
    pose proof (handleResponse_same_buffers _ _ _ _ _ _ _ Hr) as [Hc1 _].
    assert (Forall (λ p, pump_fileId p = fileId → pump_phase p ≠ Reading)
              (option_list started ++ ps2)) as Hall.
    { apply Forall_app. split.
      - destruct started as [p|]; [|constructor]. repeat constructor.
        intros Hid. eapply handleResponse_cancelled; [exact Hr|].
        by rewrite Hid.
      - eapply IH; [exact Hd2|]. by rewrite Hc1. }
    destruct outcome; by simplify_eq.
Qed.

Lemma reading_pumps_app fileId s ps :
  Forall (λ p, pump_fileId p = fileId → pump_phase p ≠ Reading) ps →
  filter (λ p, pump_fileId p = fileId ∧ pump_phase p = Reading)
    (sys_pumps s ++ ps)
  = reading_pumps fileId s.
Proof.
  intros Hall. rewrite filter_app.
  rewrite (filter_nil_Forall _ ps), app_nil_r; [done|].
  eapply Forall_impl; [exact Hall|]. intros p Hp [Hid Hr]. by apply Hp.
Qed.

Lemma after_read_cancelled now st p :
  pump_fileId p ∈ cancelledTransfersRef st →
  pump_phase (after_read now st p).2 ≠ Reading.
Proof.
  intros Hc. unfold after_read.
  destruct (sendChunk now st p) as [st1 p1] eqn:Hs.
  pose proof (sendChunk_frame now st p) as [Hc1 _].
  pose proof (pump_fileId_sendChunk now st p) as Hid1.
  rewrite Hs in Hc1, Hid1. cbn [fst snd] in Hc1, Hid1.
  cbv zeta. destruct (decide _); cbn [snd].
  - apply pump_phase_loop_exit.
  - intros Hr. apply loop_head_reading in Hr as (_ & _ & Hnot).
    apply Hnot. cbn [setTransfers cancelledTransfersRef].
    by rewrite Hid1, Hc1.
Qed.

(** With the transfer in the cancellation set, every event keeps the sum of
    the chunks sent and the reads outstanding from growing. *)
Lemma step_cancelled_budget s e fileId :
  fileId ∈ cancelledTransfersRef (sys_app s) →
  length (chunks_sent fileId (sys_app (step s e)))
  + length (reading_pumps fileId (step s e))
  ≤ length (chunks_sent fileId (sys_app s)) + length (reading_pumps fileId s).
Proof.
  intros Hc.
  destruct e as [captured now secret m|k|k now|f|f|f|secret sid
                |captured secureMode kex ent file f].
  3:{ (* the read of a pump completes *)
    cbn [step]. destruct (sys_pumps s !! k) as [p|] eqn:Hk; [|done].
    destruct (decide (pump_phase p = Reading)) as [Hr|]; [|done].
    pose proof (after_read_emits now (sys_app s) p) as Hem.
    pose proof (after_read_window now (sys_app s) p) as (Hid & _).
    pose proof (after_read_cancelled now (sys_app s) p) as Hph.
    destruct (after_read now (sys_app s) p) as [st1 p1].
    cbn [fst snd] in *. cbn [sys_app].
    rewrite (chunks_sent_emits fileId _ _ _ Hem).
    unfold reading_pumps. cbn [sys_pumps].
    pose proof (filter_insert_length
                  (λ q, pump_fileId q = fileId ∧ pump_phase q = Reading)
                  (sys_pumps s) k p p1 Hk) as Hlen.
    rewrite length_app.
    destruct (decide (pump_fileId p = fileId)) as [Hp|Hp].
    - rewrite decide_True in Hlen by done.
      rewrite decide_False in Hlen
        by (intros [_ Hr1]; apply Hph; [by rewrite Hp|done]).
      assert (length
                (filter (is_chunk_of fileId)
                   (if connected (sys_app s)
                    then chunk_message p (pump_currentChunk p)
                         :: (if decide (pump_currentChunk p + 1
                                        = pump_totalChunks p)%Z
                             then [file_complete (pump_fileId p)] else [])
                    else [])) ≤ 1) as Hone.
      { destruct (connected (sys_app s)); [|simpl; lia].
        rewrite filter_cons. destruct (decide _); simpl;
          destruct (decide (_ = _)%Z); simpl;
          rewrite ?filter_cons, ?filter_nil; simpl;
          repeat (destruct (decide _); simpl); try lia; done. }
      lia.
    - rewrite decide_False in Hlen by (by intros [? _]).
      rewrite decide_False in Hlen by (intros [? _]; congruence).
      rewrite (filter_nil_Forall (is_chunk_of fileId)); [simpl; lia|].
      destruct (connected (sys_app s)); [|constructor].
      constructor; [simpl; congruence|].
      destruct (decide _); repeat constructor. by intros []. }
  all: rewrite step_chunks_sent_other by done.
  all: apply Nat.add_le_mono_l.
  - (* a message arrives *)
    cbn [step].
    destruct (deliver now m _ (sys_listeners s)) as [[[st1 ps] keep] res]
      eqn:Hd.
    unfold reading_pumps at 1. cbn [sys_pumps].
    rewrite reading_pumps_app; [done|].
    eapply deliver_cancelled; [exact Hd|].
    by apply handleIncomingData_cancelled.
  - (* a timer fires *)
    cbn [step]. destruct (sys_pumps s !! k) as [p|] eqn:Hk; [|done].
    destruct (decide (pump_phase p = Sleeping)) as [Hs|]; [|done].
    unfold reading_pumps. cbn [sys_pumps].
    pose proof (filter_insert_length
                  (λ q, pump_fileId q = fileId ∧ pump_phase q = Reading)
                  (sys_pumps s) k p (loop_head (sys_app s) p) Hk) as Hlen.
    rewrite decide_False in Hlen by (intros [_ ?]; congruence).
    rewrite decide_False in Hlen; [lia|].
    intros [Hid Hr]. apply loop_head_reading in Hr as (_ & _ & Hnot).
    rewrite pump_fileId_loop_head in Hid. apply Hnot. by rewrite Hid.
  - done.
  - done.
  - done.
  - cbn [step]. by destruct (initiateKeyExchange _ _ _).
  - cbn [step]. destruct (sendFile _ _ _ _ _ _ _) as [[st1 l]|]; done.
Qed.

Lemma run_cancelled_budget trace : ∀ s fileId,
  fileId ∈ cancelledTransfersRef (sys_app s) →
  fileId ∈ cancelledTransfersRef (sys_app (run s trace))
  ∧ length (chunks_sent fileId (sys_app (run s trace)))
    + length (reading_pumps fileId (run s trace))
    ≤ length (chunks_sent fileId (sys_app s))
      + length (reading_pumps fileId s).
Proof.
  induction trace as [|e trace IH]; intros s fileId Hc; [by split|].
  cbn [run foldl]. fold (run (step s e) trace).
  pose proof (step_cancelled s e fileId Hc) as [Hc1 _].
  pose proof (step_cancelled_budget s e fileId Hc).
  destruct (IH (step s e) fileId Hc1) as [Hc2 Hle]. split; [done|lia].
Qed.

Lemma run_emits trace : ∀ s,
  ∃ extra, emits (sys_app s) (sys_app (run s trace)) extra.
Proof.
  induction trace as [|e trace IH]; intros s.
  - exists []. apply emits_refl.
  - cbn [run foldl]. fold (run (step s e) trace).
    destruct (step_emits s e) as (x1 & H1 & _).
    destruct (IH (step s e)) as (x2 & H2).
    exists (x1 ++ x2). by eapply emits_trans.
Qed.


(** X4. The user cancels an outbound transfer while the connection is up:
    ['file-cancel'] goes out, the transfer enters the cancellation set, its
    records turn cancelled and its counter goes.  From then on, whatever
    happens, at most one more chunk of the transfer is handed to the
    channel, the one whose read was outstanding, and none if no read was
    outstanding; no pump of the transfer starts a read again. *)
Theorem cancelled_send_stops_after_one_chunk
    (s : Sys) (fileId : string) (trace : list Event) :
  connected (sys_app s) = true →
  NoDup (pump_fileId <$> sys_pumps s) →
  let s1 := step s (CancelClicked fileId) in
  sent (sys_app s1) = sent (sys_app s) ++ [file_cancel fileId]
  ∧ fileId ∈ cancelledTransfersRef (sys_app s1)
  ∧ chunksInFlightRef (sys_app s1) !! fileId = None
  ∧ (∀ t, t ∈ transfers (sys_app s1) → ft_id t = fileId →
          ft_status t = cancelled)
  ∧ length (chunks_sent fileId (sys_app (run s1 trace)))
    ≤ length (chunks_sent fileId (sys_app s)) + 1
  ∧ (reading_pumps fileId s = [] →
     chunks_sent fileId (sys_app (run s1 trace))
     = chunks_sent fileId (sys_app s))
  ∧ ∀ k p,
      sys_pumps (run s1 trace) !! k = Some p → pump_fileId p = fileId →
      pump_phase (loop_head (sys_app (run s1 trace)) p) ≠ Reading.
Proof.
  intros Hconn Hnd s1.
  assert (sys_app s1 = cancelFileTransfer (sys_app s) fileId) as Happ by done.
  assert (sys_pumps s1 = sys_pumps s) as Hpumps by done.
  assert (fileId ∈ cancelledTransfersRef (sys_app s1)) as Hc.
  { rewrite Happ. unfold cancelFileTransfer. rewrite Hconn.
    cbn [set_chunksInFlightRef setTransfers cancelledTransfersRef].
    rewrite send_cancelledTransfersRef.
    cbn [set_cancelledTransfersRef cancelledTransfersRef]. set_solver. }
  assert (chunks_sent fileId (sys_app s1) = chunks_sent fileId (sys_app s))
    as Hsame by (by apply step_chunks_sent_other).
  assert (reading_pumps fileId s1 = reading_pumps fileId s) as Hread
    by (unfold reading_pumps; by rewrite Hpumps).
  destruct (run_cancelled_budget trace s1 fileId Hc) as [Hc' Hle].
  rewrite Hsame, Hread in Hle.
  split.
  { rewrite Happ. pose proof (cancelFileTransfer_emits (sys_app s) fileId)
      as [Hs _]. by rewrite Hconn in Hs. }
  split; [done|]. split.
  { rewrite Happ. unfold cancelFileTransfer. rewrite Hconn.
    cbn [set_chunksInFlightRef chunksInFlightRef]. by rewrite lookup_delete_eq. }
  split.
  { rewrite Happ. unfold cancelFileTransfer. rewrite Hconn.
    cbn [set_chunksInFlightRef setTransfers transfers].
    intros t Ht Hid. apply elem_of_update_transfer in Ht as (t0 & _ & ->).
    destruct (decide (ft_id t0 = fileId)) as [|Hne]; [done|].
    by destruct Hne. }
  split.
  { pose proof (filter_unique_length pump_fileId fileId
                  (λ p, pump_phase p = Reading) (sys_pumps s) Hnd).
    unfold reading_pumps in Hle. lia. }
  split.
  { intros Hnone. rewrite Hnone in Hle. cbn [length] in Hle.
    destruct (run_emits trace s1) as (extra & Hem).
    rewrite (chunks_sent_emits fileId _ _ _ Hem), Hsame in Hle |- *.
    rewrite length_app in Hle.
    destruct (filter (is_chunk_of fileId) extra); [by rewrite app_nil_r|].
    simpl in Hle. lia. }
  intros k p Hk Hid Hr. apply loop_head_reading in Hr as (_ & _ & Hnot).
  apply Hnot. by rewrite Hid.
Qed.

End CancelSenderFacts.

Lemma cancelled_send_stops_after_one_chunk_witness :
  connected
    (sys_app (run (H := toy_crypto) initial_sys
                [FileSent [] false (KexResolved false) sample_entropy
                   sample_file "f1";
                 Recv [] 0 0 (file_accepted "f1")])) = true
  ∧ NoDup
      (pump_fileId
         <$> sys_pumps
               (run (H := toy_crypto) initial_sys
                  [FileSent [] false (KexResolved false) sample_entropy
                     sample_file "f1";
                   Recv [] 0 0 (file_accepted "f1")]))
  ∧ length
      (chunks_sent "f1"
         (sys_app
            (run
               (step
                  (run (H := toy_crypto) initial_sys
                     [FileSent [] false (KexResolved false) sample_entropy
                        sample_file "f1";
                      Recv [] 0 0 (file_accepted "f1")])
                  (CancelClicked "f1"))
               [ReadDone 0 1; TimerFires 0; Recv [] 2 0 (chunk_ack "f1" 0)])))
    ≤ length
        (chunks_sent "f1"
           (sys_app
              (run (H := toy_crypto) initial_sys
                 [FileSent [] false (KexResolved false) sample_entropy
                    sample_file "f1";
                  Recv [] 0 0 (file_accepted "f1")])))
      + 1.
Proof.
  assert (connected
            (sys_app (run (H := toy_crypto) initial_sys
                        [FileSent [] false (KexResolved false) sample_entropy
                           sample_file "f1";
                         Recv [] 0 0 (file_accepted "f1")])) = true) as H1
    by (vm_compute; reflexivity).
  assert (NoDup
            (pump_fileId
               <$> sys_pumps
                     (run (H := toy_crypto) initial_sys
                        [FileSent [] false (KexResolved false) sample_entropy
                           sample_file "f1";
                         Recv [] 0 0 (file_accepted "f1")]))) as H2
    by (vm_compute; apply NoDup_singleton).
  do 2 (split; [assumption|]).
  pose proof (cancelled_send_stops_after_one_chunk _ "f1"
                [ReadDone 0 1; TimerFires 0; Recv [] 2 0 (chunk_ack "f1" 0)]
                H1 H2) as (_ & _ & _ & _ & Hle & _).
  exact Hle.
Defined.

(** ** Keys on the wire *)

Lemma parity_aes_laws : @AesGcmLaws parity_crypto.
Proof.
  split; simpl.
  - done.
  - done.
  - intros k iv p. by destruct (Byte.byte_eq_dec k k).
  - intros k k' iv p Hne. by destruct (Byte.byte_eq_dec k k').
Qed.

Lemma parity_curve_laws : @CurveLaws parity_crypto.
Proof. split; simpl; intros; [by rewrite xorb_assoc|done]. Qed.

Lemma parity_spki_laws : @SpkiLaws parity_crypto.
Proof. split. by intros []. Qed.

Section KeysOnTheWire.
Context `{WebCrypto}.

Lemma importPublicKey_exportPublicKey {spki_laws : SpkiLaws} P :
  importPublicKey (exportPublicKey P) = Ok P.
Proof.
  unfold importPublicKey, exportPublicKey.
  by rewrite atob_btoa, spki_import_export.
Qed.

(** X5. An AES-GCM key exported by [exportKey] comes back from [importKey]:
    the string is never empty and determines the key. *)
Theorem exported_key_imports_back {aes_laws : AesGcmLaws} (key : AesKey) :
  importKey (exportKey key) = Ok key
  ∧ exportKey key ≠ ""
  ∧ ∀ key', exportKey key' = exportKey key → key' = key.
Proof.
  split; [apply importKey_exportKey|]. split; [apply exportKey_nonempty|].
  intros key' Heq.
  pose proof (importKey_exportKey key') as H1.
  rewrite Heq, importKey_exportKey in H1. by simplify_eq.
Qed.

(** X6. A public key exported by [exportPublicKey] comes back from
    [importPublicKey], and the string determines the key. *)
Theorem exported_public_key_imports_back {spki_laws : SpkiLaws} (P : Point) :
  importPublicKey (exportPublicKey P) = Ok P
  ∧ ∀ P', exportPublicKey P' = exportPublicKey P → P' = P.
Proof.
  split; [apply importPublicKey_exportPublicKey|].
  intros P' Heq.
  pose proof (importPublicKey_exportPublicKey P') as H1.
  rewrite Heq, importPublicKey_exportPublicKey in H1. by simplify_eq.
Qed.

End KeysOnTheWire.

Lemma exported_key_imports_back_witness :
  importKey (H := toy_crypto) (exportKey Byte.x2a) = Ok Byte.x2a
  ∧ exportKey (H := toy_crypto) Byte.x2a ≠ ""
  ∧ ∀ key', exportKey (H := toy_crypto) key' = exportKey Byte.x2a →
            key' = Byte.x2a.
Proof.
  exact (exported_key_imports_back (aes_laws := toy_aes_laws) Byte.x2a).
Defined.

Lemma exported_public_key_imports_back_witness :
  importPublicKey (H := parity_crypto)
    (exportPublicKey (H := parity_crypto) true) = Ok true
  ∧ ∀ P', exportPublicKey (H := parity_crypto) P'
          = exportPublicKey (H := parity_crypto) true →
          P' = true.
Proof.
  exact (exported_public_key_imports_back (H := parity_crypto)
           (spki_laws := parity_spki_laws) true).
Defined.

(** ** Session ids *)

Lemma hex_digit_index d :
  (0 ≤ d < 16)%Z →
  index_from (hex_digit d) (String.list_ascii_of_string "0123456789abcdef") 0
  = Some d.
Proof.
  intros Hd.
  assert (d ∈ seqZ 0 16) as Hin by (apply elem_of_seqZ; lia).
  revert Hin. generalize d.
  apply Forall_forall. by vm_compute; repeat constructor.
Qed.

Lemma hex_digit_inj d d' :
  (0 ≤ d < 16)%Z → (0 ≤ d' < 16)%Z → hex_digit d = hex_digit d' → d = d'.
Proof.
  intros Hd Hd' Heq. pose proof (hex_digit_index d Hd) as H1.
  rewrite Heq, hex_digit_index in H1 by done. by simplify_eq.
Qed.

Lemma byte_to_Z_inj b b' : byte_to_Z b = byte_to_Z b' → b = b'.
Proof.
  intros Heq. by rewrite <- (Z_to_byte_to_Z b), Heq, Z_to_byte_to_Z.
Qed.

Lemma hex_byte_inj b b' : hex_byte b = hex_byte b' → b = b'.
Proof.
  unfold hex_byte. intros Heq.
  pose proof (byte_to_Z_octet b) as Hb. pose proof (byte_to_Z_octet b') as Hb'.
  unfold is_octet in *.
  injection Heq as H1 H2.
  apply hex_digit_inj in H1; [|Z.div_mod_to_equations; lia..].
  apply hex_digit_inj in H2; [|Z.div_mod_to_equations; lia..].
  apply byte_to_Z_inj. Z.div_mod_to_equations; lia.
Qed.

Lemma hex_digit_hex d :
  hex_digit d ∈ String.list_ascii_of_string "0123456789abcdef".
Proof.
  unfold hex_digit.
  destruct (String.list_ascii_of_string "0123456789abcdef" !! Z.to_nat d)
    as [c|] eqn:Hc; simpl.
  - by eapply list_elem_of_lookup_2.
  - vm_compute. apply list_elem_of_here.
Qed.

Lemma concat_hex_byte_inj l : ∀ l',
  length l = length l' →
  concat (map hex_byte l) = concat (map hex_byte l') → l = l'.
Proof.
  induction l as [|b l IH]; intros [|b' l'] Hlen Heq; try done.
  simpl in Heq. injection Heq as H1 H2 H3.
  f_equal.
  - apply hex_byte_inj. unfold hex_byte. by rewrite H1, H2.
  - apply IH; [simpl in Hlen; lia|done].
Qed.

(** X7. A session id is 32 lower-case hexadecimal digits, two for each of
    the 16 random bytes, most significant first; it is never the empty
    string, and two ids are equal only if the 16 bytes are. *)
Theorem session_id_is_32_hex_digits (entropy entropy' : list byte) :
  length (String.list_ascii_of_string (generateSessionId entropy)) = 32
  ∧ Forall (λ c, c ∈ String.list_ascii_of_string "0123456789abcdef")
      (String.list_ascii_of_string (generateSessionId entropy))
  ∧ generateSessionId entropy ≠ ""
  ∧ (generateSessionId entropy = generateSessionId entropy' →
     getRandomValues 16 entropy = getRandomValues 16 entropy').
Proof.
  unfold generateSessionId.
  rewrite String.list_ascii_of_string_of_list_ascii.
  assert (length (concat (map hex_byte (getRandomValues 16 entropy))) = 32)
    as Hlen.
  { pose proof (getRandomValues_length 16 entropy) as Hl.
    revert Hl. generalize (getRandomValues 16 entropy). intros l Hl.
    assert (∀ k : list byte, length (concat (map hex_byte k)) = 2 * length k)
      as Hk by (induction k; simpl; lia).
    rewrite Hk, Hl. done. }
  split; [done|]. split.
  { apply Forall_concat, Forall_forall. intros x Hx.
    apply list_elem_of_fmap in Hx as (b & -> & _).
    unfold hex_byte. repeat (constructor; [apply hex_digit_hex|]).
    constructor. }
  split.
  { intros Heq.
    apply (f_equal String.list_ascii_of_string) in Heq.
    rewrite String.list_ascii_of_string_of_list_ascii in Heq.
    rewrite Heq in Hlen. done. }
  intros Heq.
  apply (f_equal String.list_ascii_of_string) in Heq.
  rewrite !String.list_ascii_of_string_of_list_ascii in Heq.
  apply concat_hex_byte_inj; [by rewrite !getRandomValues_length|done].
Qed.

(** ** The session-key store *)

Section SessionStore.
Context `{WebCrypto}.


End SessionStore.

(** ** The handshake *)

Section Handshake.
Context `{WebCrypto}.

Lemma connection_open_connected st :
  connection_open st = true → connected st = true.
Proof. unfold connection_open, connected. by destruct (connRef st). Qed.

Lemma initiateKeyExchange_spec secret st sessionId :
  connection_open st = true → key_pair_valid st →
  ∃ st' kp,
    initiateKeyExchange secret st sessionId = Ok st'
    ∧ keyPairRef st' = Some kp
    ∧ publicKey kp = point_mul (privateKey kp) point_base
    ∧ sent st'
      = sent st ++ [key_exchange_init (exportPublicKey (publicKey kp))
                      sessionId]
    ∧ connected st' = true
    ∧ pendingKeyExchangeRef st' = {[sessionId]} ∪ pendingKeyExchangeRef st
    ∧ resolvedKeyExchanges st' = resolvedKeyExchanges st
    ∧ sessionKeys st' = sessionKeys st.
Proof.
  intros Hopen Hv. unfold initiateKeyExchange, connection_open in *.
  destruct (connRef st) as [c|] eqn:Hc; [|done]. rewrite Hopen.
  unfold ensure_key_pair, key_pair_valid in *.
  destruct (keyPairRef st) as [kp|] eqn:Hkp.
  - eexists _, kp. split; [reflexivity|].
    unfold sent, send, connected. rewrite Hc. cbn. rewrite Hkp.
    repeat split. by apply Hv.
  - eexists _, (generateKeyPair secret). split; [reflexivity|].
    unfold sent, send, connected. cbn. rewrite Hc. cbn.
    repeat split.
Qed.

Lemma on_key_exchange_init_spec secret st publicKeyStr sessionId P :
  importPublicKey publicKeyStr = Ok P →
  key_pair_valid st → connected st = true →
  ∃ kp,
    publicKey kp = point_mul (privateKey kp) point_base
    ∧ sent (on_key_exchange_init secret st publicKeyStr sessionId)
      = sent st ++ [key_exchange_reply (exportPublicKey (publicKey kp))
                      sessionId]
    ∧ sessionKeys (on_key_exchange_init secret st publicKeyStr sessionId)
      = storeSessionKey (sessionKeys st) sessionId
          (deriveSharedSecret (privateKey kp) P).
Proof.
  intros Himp Hv Hconn. unfold on_key_exchange_init.
  unfold ensure_key_pair, key_pair_valid, connected in *.
  destruct (connRef st) as [c|] eqn:Hc; [|done].
  destruct (keyPairRef st) as [kp|] eqn:Hkp.
  - exists kp. rewrite Himp. unfold sent, send. cbn. rewrite Hc. cbn.
    repeat split. by apply Hv.
  - exists (generateKeyPair secret). rewrite Himp.
    unfold sent, send. cbn. rewrite Hc. cbn. repeat split.
Qed.

Lemma on_key_exchange_reply_spec st publicKeyStr sessionId P kp :
  importPublicKey publicKeyStr = Ok P →
  keyPairRef st = Some kp → connected st = true →
  sessionId ∈ pendingKeyExchangeRef st →
  sent (on_key_exchange_reply st publicKeyStr sessionId)
  = sent st ++ [key_exchange_complete sessionId]
  ∧ sessionKeys (on_key_exchange_reply st publicKeyStr sessionId)
    = storeSessionKey (sessionKeys st) sessionId
        (deriveSharedSecret (privateKey kp) P)
  ∧ resolvedKeyExchanges (on_key_exchange_reply st publicKeyStr sessionId)
    = resolvedKeyExchanges st ++ [(sessionId, true)]
  ∧ pendingKeyExchangeRef (on_key_exchange_reply st publicKeyStr sessionId)
    = pendingKeyExchangeRef st ∖ {[sessionId]}.
Proof.
  intros Himp Hkp Hconn Hpend. unfold on_key_exchange_reply.
  rewrite Himp, Hkp. unfold connected in *.
  destruct (connRef st) as [c|] eqn:Hc; [|done].
  unfold resolve_key_exchange, sent, send.
  repeat first [rewrite Hc | rewrite decide_True by done | progress cbn].
  done.
Qed.

End Handshake.

Section Handshake2.
Context `{WebCrypto} {curve_laws : CurveLaws} {spki_laws : SpkiLaws}
  {aes_laws : AesGcmLaws}.

(** X9. The key exchange between a peer [a] whose connection is open and a
    peer [b]: [initiateKeyExchange] sends ['key-exchange-init'] with the
    public key of [a]; [b] answers it with ['key-exchange-reply'] and its
    own public key; on the reply [a] sends ['key-exchange-complete'] and
    resolves the pending handle with [true].  Both stores then hold the
    same key under the session id, so that what [a] encrypts with
    [secureEncryptFile] for the session, [b] decrypts with
    [secureDecryptFile]. *)
Theorem key_exchange_completes
    (a b : AppState) (secretA secretB secretA' : nat)
    (capturedA capturedB : list FileTransfer) (nowA nowB : Q)
    (sessionId : string) :
  connection_open a = true → connected b = true →
  key_pair_valid a → key_pair_valid b →
  ∃ a1 pkA pkB key,
    initiateKeyExchange secretA a sessionId = Ok a1
    ∧ sent a1 = sent a ++ [key_exchange_init pkA sessionId]
    ∧ sessionId ∈ pendingKeyExchangeRef a1
    ∧ let b1 :=
        handleIncomingData capturedB nowB secretB b
          (key_exchange_init pkA sessionId) in
      let a2 :=
        handleIncomingData capturedA nowA secretA' a1
          (key_exchange_reply pkB sessionId) in
      sent b1 = sent b ++ [key_exchange_reply pkB sessionId]
      ∧ sent a2 = sent a1 ++ [key_exchange_complete sessionId]
      ∧ resolvedKeyExchanges a2
        = resolvedKeyExchanges a ++ [(sessionId, true)]
      ∧ (sessionId ∉ pendingKeyExchangeRef a2)
      ∧ getSessionKey (sessionKeys a2) sessionId = Some key
      ∧ getSessionKey (sessionKeys b1) sessionId = Some key
      ∧ ∀ entropy file type,
          ∃ e, secureEncryptFile (sessionKeys a2) entropy file sessionId
               = Ok e
               ∧ secureDecryptFile (sessionKeys b1) (sfe_data e) sessionId
                   (sfe_iv e) type
                 = Ok (new_Blob [file_bytes file] type).
Proof.
  intros Hopen Hconn Hva Hvb.
  destruct (initiateKeyExchange_spec secretA a sessionId Hopen Hva)
    as (a1 & kpA & Hinit & Hka & Hpa & Hsa & Hca & Hpe & Hre & Hke).
  destruct (on_key_exchange_init_spec secretB b
              (exportPublicKey (publicKey kpA)) sessionId (publicKey kpA)
              (importPublicKey_exportPublicKey _) Hvb Hconn)
    as (kpB & Hpb & Hsb & Hkb).
  assert (sessionId ∈ pendingKeyExchangeRef a1) as Hin
    by (rewrite Hpe; apply elem_of_union_l; by apply elem_of_singleton).
  destruct (on_key_exchange_reply_spec a1 (exportPublicKey (publicKey kpB))
              sessionId (publicKey kpB) kpA
              (importPublicKey_exportPublicKey _) Hka Hca Hin)
    as (Hs2 & Hk2 & Hr2 & Hp2).
  assert (deriveSharedSecret (privateKey kpB) (publicKey kpA)
          = deriveSharedSecret (privateKey kpA) (publicKey kpB)) as Hshared.
  { unfold deriveSharedSecret. rewrite Hpa, Hpb. f_equal.
    apply point_mul_comm. }
  exists a1, (exportPublicKey (publicKey kpA)),
    (exportPublicKey (publicKey kpB)),
    (deriveSharedSecret (privateKey kpA) (publicKey kpB)).
  split; [done|]. split; [done|]. split; [done|].
  cbn zeta. cbn [handleIncomingData].
  split; [done|]. split; [done|]. split; [by rewrite Hr2, Hre|].
  split.
  { rewrite Hp2. intros Hx. apply elem_of_difference in Hx as [_ Hx].
    apply Hx. by apply elem_of_singleton. }
  rewrite Hk2, Hkb, Hshared. unfold getSessionKey, storeSessionKey.
  rewrite !lookup_insert_eq. split; [done|]. split; [done|].
  intros entropy file type.
  unfold secureEncryptFile, secureDecryptFile, getSessionKey.
  rewrite !lookup_insert_eq. eexists. split; [reflexivity|].
  cbn [sfe_data sfe_iv].
  by rewrite Uint8Array_Array_from, blob_bytes_new_Blob_1,
    aes_gcm_decrypt_encrypt.
Qed.

End Handshake2.

Lemma key_exchange_completes_witness :
  connection_open (H := parity_crypto) (initial_app true) = true
  ∧ connected (H := parity_crypto) (initial_app true) = true
  ∧ key_pair_valid (H := parity_crypto) (initial_app true)
  ∧ ∃ a1 pkA,
      initiateKeyExchange (H := parity_crypto) 3 (initial_app true) "0a0b"
      = Ok a1
      ∧ sent a1 = [key_exchange_init pkA "0a0b"].
Proof.
  assert (connection_open (H := parity_crypto) (initial_app true) = true)
    as H1 by reflexivity.
  assert (connected (H := parity_crypto) (initial_app true) = true) as H2
    by reflexivity.
  assert (key_pair_valid (H := parity_crypto) (initial_app true)) as H3
    by (intros kp Hkp; discriminate).
  do 3 (split; [assumption|]).
  destruct (key_exchange_completes (H := parity_crypto)
              (curve_laws := parity_curve_laws)
              (spki_laws := parity_spki_laws) (aes_laws := parity_aes_laws)
              (initial_app true) (initial_app true) 3 5 0 [] [] 0 0 "0a0b"
              H1 H2 H3 H3) as (a1 & pkA & pkB & key & Hinit & Hsent & _).
  by exists a1, pkA.
Defined.

(** ** The key pair of the component *)

Section KeyPairInvariant.
Context `{WebCrypto}.

Lemma key_pair_valid_same st st' :
  keyPairRef st' = keyPairRef st → key_pair_valid st → key_pair_valid st'.
Proof. unfold key_pair_valid. by intros ->. Qed.

Lemma handleIncomingData_key_pair captured now secret st m :
  key_pair_valid st →
  key_pair_valid (handleIncomingData captured now secret st m).
Proof.
  intros Hv. destruct m; cbn [handleIncomingData]; try done.
  - (* key-exchange-init *)
    unfold on_key_exchange_init, ensure_key_pair.
    destruct (keyPairRef st) as [kp|] eqn:Hkp.
    + destruct (importPublicKey _); [|done].
      apply (key_pair_valid_same st); [|done].
      unfold send. by destruct (connRef _).
    + assert (key_pair_valid
                (set_keys (Some (generateKeyPair secret))
                   (pendingKeyExchangeRef st) (resolvedKeyExchanges st)
                   (sessionKeys st) st)) as Hv'
        by (intros kp [= <-]; reflexivity).
      destruct (importPublicKey _); [|done].
      eapply key_pair_valid_same; [|exact Hv'].
      unfold send. by destruct (connRef _).
  - (* key-exchange-reply *)
    apply (key_pair_valid_same st); [|done].
    unfold on_key_exchange_reply, resolve_key_exchange.
    repeat case_match; try done; unfold send in *;
      repeat case_match; simplify_eq; done.
  - apply (key_pair_valid_same st); [|done].
    unfold on_file_start. by case_decide.
  - apply (key_pair_valid_same st); [|done].
    unfold on_file_chunk, updateSpeed_download, send.
    repeat case_match; done.
  - apply (key_pair_valid_same st); [|done].
    unfold on_chunk_ack. by case_match.
  - apply (key_pair_valid_same st); [|done].
    unfold on_file_cancel, send. by case_match.
Qed.

Lemma handleResponse_keyPairRef now st l m st' started outcome :
  handleResponse now st l m = (st', started, outcome) →
  keyPairRef st' = keyPairRef st.
Proof.
  intros Hr. unfold handleResponse in Hr.
  destruct m; simplify_eq; try done.
  - case_decide; [|by simplify_eq].
    destruct (l_secure l && truthy (l_sessionId l)), (l_sessionId l);
      unfold startSecureFileTransfer, startFileTransfer, start_pump, send
        in Hr;
      repeat case_match; by simplify_eq.
  - case_decide; by simplify_eq.
Qed.

Lemma deliver_keyPairRef now m ls : ∀ st st' ps keep res,
  deliver now m st ls = (st', ps, keep, res) →
  keyPairRef st' = keyPairRef st.
Proof.
  induction ls as [|l ls IH]; intros st st' ps keep res Hd.
  - simpl in Hd. by simplify_eq.
  - simpl in Hd.
    destruct (handleResponse now st l m) as [[st1 started] outcome] eqn:Hr.
    destruct (deliver now m st1 ls) as [[[st2 ps2] keep2] res2] eqn:Hd2.
    apply handleResponse_keyPairRef in Hr. apply IH in Hd2.
    destruct outcome; simplify_eq; congruence.
Qed.

Lemma after_read_keyPairRef now st p :
  keyPairRef (after_read now st p).1 = keyPairRef st.
Proof.
  unfold after_read, sendChunk, send. repeat case_match; by simplify_eq.
Qed.

(** X10. The key pair the component holds is always one that
    [generateKeyPair] made: no event stores another. *)
Theorem key_pair_comes_from_generateKeyPair (s : Sys) (trace : list Event) :
  key_pair_valid (sys_app s) → key_pair_valid (sys_app (run s trace)).
Proof.
  revert s. induction trace as [|e trace IH]; intros s Hv; [done|].
  cbn [run foldl]. fold (run (step s e) trace). apply IH.
  destruct e as [captured now secret m|k|k now|f|f|f|secret sid
                |captured secureMode kex ent file f]; cbn [step].
  - destruct (deliver now m _ (sys_listeners s)) as [[[st1 ps] keep] res]
      eqn:Hd.
    apply deliver_keyPairRef in Hd. cbn [sys_app].
    eapply key_pair_valid_same; [exact Hd|].
    by apply handleIncomingData_key_pair.
  - destruct (sys_pumps s !! k); [|done]. by case_decide.
  - destruct (sys_pumps s !! k) as [p|]; [|done]. case_decide; [|done].
    pose proof (after_read_keyPairRef now (sys_app s) p) as Hk.
    destruct (after_read now (sys_app s) p). cbn [sys_app fst] in *.
    by eapply key_pair_valid_same.
  - apply (key_pair_valid_same (sys_app s)); [|done].
    cbn [set_app sys_app]. unfold acceptFileTransfer, send.
    repeat case_match; done.
  - apply (key_pair_valid_same (sys_app s)); [|done].
    cbn [set_app sys_app]. unfold rejectFileTransfer, send.
    repeat case_match; done.
  - apply (key_pair_valid_same (sys_app s)); [|done].
    cbn [set_app sys_app]. unfold cancelFileTransfer, send.
    repeat case_match; done.
  - unfold initiateKeyExchange, ensure_key_pair.
    destruct (connRef (sys_app s)) as [c|] eqn:Hc; [|done].
    destruct (conn_open c); [|done].
    destruct (keyPairRef (sys_app s)) as [kp|] eqn:Hkp; cbn [set_app sys_app].
    + apply (key_pair_valid_same (sys_app s)); [|done].
      unfold send. rewrite Hc. cbn. by rewrite Hkp.
    + intros kp Hkp'. unfold send in Hkp'. cbn in Hkp'. rewrite Hc in Hkp'.
      cbn in Hkp'. by simplify_eq.
  - unfold sendFile. destruct (connRef (sys_app s)) as [c|] eqn:Hc; [|done].
    destruct (conn_open c); [|done]. cbn [sys_app].
    apply (key_pair_valid_same (sys_app s)); [|done].
    unfold send. by rewrite Hc.
Qed.

End KeyPairInvariant.

Lemma key_pair_comes_from_generateKeyPair_witness :
  key_pair_valid (sys_app (H := toy_crypto) initial_sys)
  ∧ key_pair_valid
      (sys_app
         (run (H := toy_crypto) initial_sys
            [KeyExchangeStarted 3 "0a0b";
             Recv [] 0 5 (key_exchange_init "AA==" "0c0d")])).
Proof.
  assert (key_pair_valid (sys_app (H := toy_crypto) initial_sys)) as H1
    by (intros kp Hkp; discriminate).
  split; [assumption|].
  exact (key_pair_comes_from_generateKeyPair initial_sys
           [KeyExchangeStarted 3 "0a0b";
            Recv [] 0 5 (key_exchange_init "AA==" "0c0d")] H1).
Defined.

(** ** A send under a session key *)

Lemma generateSessionId_nonempty entropy : generateSessionId entropy ≠ "".
Proof.
  unfold generateSessionId.
  pose proof (getRandomValues_length 16 entropy) as Hl.
  destruct (getRandomValues 16 entropy) as [|b l]; [done|]. done.
Qed.

Section SecureSend.
Context `{WebCrypto}.

(** X11. A send in secure mode whose key exchange succeeded, the session key
    being in the store: the file is encrypted under the session key, and
    neither the ['file-request'] nor the ['file-start'] carries a key; both
    name the session and say [secure = true], and the record the sender
    keeps names the session too. *)
Theorem secure_send_carries_no_key
    (captured : list FileTransfer) (ent : SendEntropy) (st : AppState)
    (file : File) (fileId : string) (key : AesKey) :
  connection_open st = true →
  getSessionKey (sessionKeys st) (generateSessionId (ent_sessionId ent))
  = Some key →
  let sessionId := generateSessionId (ent_sessionId ent) in
  let iv := getRandomValues 12 (ent_iv ent) in
  let data := new_Blob [aes_gcm_encrypt key iv (file_bytes file)] "" in
  ∃ st' l,
    sendFile captured true (KexResolved true) ent st file fileId
    = Ok (st', l)
    ∧ sent st'
      = sent st
        ++ [file_request fileId (file_name file) (blob_size data)
              (file_type file) None (Some (Array_from iv)) (Some sessionId)
              true]
    ∧ l_encryptedData l = data
    ∧ l_key l = None
    ∧ ∀ now st2, connected st2 = true →
        ∃ st3 p,
          handleResponse now st2 l (file_accepted fileId)
          = (st3, Some p, Resolved true)
          ∧ sent st3
            = sent st2
              ++ [file_start fileId (file_name file) (blob_size data)
                    (file_type file) None (Some (Array_from iv))
                    (Some sessionId) true]
          ∧ transfers st3
            = transfers st2
              ++ [ {| ft_id := fileId; ft_name := file_name file;
                      ft_size := blob_size data; ft_type := file_type file;
                      ft_progress := 0; ft_status := pending;
                      ft_blob := None; ft_key := None;
                      ft_iv := Some (Array_from iv);
                      ft_sessionId := Some sessionId;
                      ft_estimatedTimeRemaining := None;
                      ft_secure := Some true |} ].
Proof.
  intros Hopen Hkey sessionId iv data.
  unfold sendFile, connection_open in *.
  destruct (connRef st) as [c|] eqn:Hc; [|done]. rewrite Hopen.
  unfold sendFile_encrypt, secureEncryptFile. rewrite Hkey.
  do 2 eexists. split; [reflexivity|].
  cbn [request_of listener_of sfe_data sfe_iv l_encryptedData l_key].
  split; [unfold sent, send; by rewrite Hc|].
  split; [done|]. split; [done|].
  intros now st2 Hconn.
  cbn [handleResponse l_fileId l_secure l_sessionId l_encryptedData l_file
         l_iv l_transfers truthy andb].
  rewrite decide_True by done.
  rewrite bool_decide_true by apply generateSessionId_nonempty.
  unfold startSecureFileTransfer.
  change (connected (setTransfers ?f st2)) with (connected st2).
  rewrite Hconn.
  match goal with
  | |- context [start_pump ?a ?b ?c ?d ?f] =>
      pose proof (start_pump_emits a b c d f) as Hem;
      assert (transfers (start_pump a b c d f).1 = transfers c) as Htr
        by done;
      destruct (start_pump a b c d f) as [st3 p]
  end.
  do 2 eexists. split; [reflexivity|].
  cbn [fst] in *. rewrite (connRef_sent _ _ Hem), Htr, send_transfers.
  split; [|done].
  by rewrite sent_send by done.
Qed.

End SecureSend.

Lemma secure_send_carries_no_key_witness :
  connection_open (H := toy_crypto)
    (set_keys None ∅ []
       {[ generateSessionId (ent_sessionId sample_entropy) := Byte.x2a ]}
       (initial_app true)) = true
  ∧ getSessionKey
      (sessionKeys
         (set_keys (H := toy_crypto) None ∅ []
            {[ generateSessionId (ent_sessionId sample_entropy) := Byte.x2a ]}
            (initial_app true)))
      (generateSessionId (ent_sessionId sample_entropy)) = Some Byte.x2a
  ∧ ∃ st' l,
      sendFile (H := toy_crypto) [] true (KexResolved true) sample_entropy
        (set_keys None ∅ []
           {[ generateSessionId (ent_sessionId sample_entropy) := Byte.x2a ]}
           (initial_app true)) sample_file "f1" = Ok (st', l)
      ∧ l_key l = None.
Proof.
  assert (connection_open (H := toy_crypto)
            (set_keys None ∅ []
               {[ generateSessionId (ent_sessionId sample_entropy) := Byte.x2a ]}
               (initial_app true)) = true) as H1 by reflexivity.
  assert (getSessionKey
            (sessionKeys
               (set_keys (H := toy_crypto) None ∅ []
                  {[ generateSessionId (ent_sessionId sample_entropy)
                     := Byte.x2a ]}
                  (initial_app true)))
            (generateSessionId (ent_sessionId sample_entropy))
          = Some Byte.x2a) as H2 by apply lookup_singleton_eq.
  do 2 (split; [assumption|]).
  destruct (secure_send_carries_no_key [] sample_entropy _ sample_file "f1"
              Byte.x2a H1 H2) as (st' & l & Hs & _ & _ & Hk & _).
  by exists st', l.
Defined.

(** ** The connection quality *)






(** ** The estimate and the progress *)

(** X13. With a positive sample and a size that is not negative, the
    estimate does not grow when the progress does, and it is 0 from the
    progress 100 on. *)
Theorem estimate_shrinks_as_progress_grows
    (speeds : gmap string Q) (fileId : string) (totalSize p1 p2 : Z)
    (rate : Q) :
  speeds !! fileId = Some rate → (0 < rate)%Q →
  (0 ≤ totalSize)%Z → (p1 ≤ p2)%Z →
  ∃ t1 t2,
    calculateEstimatedTimeRemaining speeds fileId p1 totalSize = Some t1
    ∧ calculateEstimatedTimeRemaining speeds fileId p2 totalSize = Some t2
    ∧ (0 ≤ t2 ≤ t1)%Z
    ∧ ((100 ≤ p2)%Z → t2 = 0%Z).
Proof.
  intros Hr Hpos Hsize Hp.
  unfold calculateEstimatedTimeRemaining, speed_of. rewrite Hr. simpl.
  assert (Qle_bool rate 0 = false) as -> by by apply Qle_bool_false.
  do 2 eexists. split; [reflexivity|]. split; [reflexivity|].
  rewrite Zle_Qle in Hsize, Hp.
  assert (0 <= / rate)%Q as Hinv
    by apply Qlt_le_weak, Qinv_lt_0_compat, Hpos.
  assert (remainingBytes totalSize p2 <= remainingBytes totalSize p1)%Q as Hrem.
  { unfold remainingBytes.
    rewrite !(Qmult_comm (inject_Z totalSize)).
    apply Qmult_le_compat_r; [|done].
    assert (inject_Z p1 / 100 <= inject_Z p2 / 100)%Q as Hd
      by (apply Qmult_le_compat_r; [done|discriminate]).
    revert Hd. generalize (inject_Z p1 / 100)%Q (inject_Z p2 / 100)%Q.
    intros; lra. }
  assert (remainingBytes totalSize p2 / rate * 1000
          <= remainingBytes totalSize p1 / rate * 1000)%Q as Hms.
  { apply Qmult_le_compat_r; [|lra]. by apply Qmult_le_compat_r. }
  split.
  - split; [lia|]. apply Z.max_le_compat_l. unfold Math_round.
    apply Qfloor_resp_le. lra.
  - intros H100. rewrite Zle_Qle in H100.
    assert (remainingBytes totalSize p2 <= 0)%Q as Hle.
    { unfold remainingBytes.
      rewrite (Qmult_comm (inject_Z totalSize)).
      assert ((1 - inject_Z p2 / 100) * inject_Z totalSize
              <= 0 * inject_Z totalSize)%Q as Hz.
      { apply Qmult_le_compat_r; [|done].
        assert (inject_Z 100 / 100 <= inject_Z p2 / 100)%Q as Hd
          by (apply Qmult_le_compat_r; [done|discriminate]).
        assert (inject_Z 100 / 100 == 1)%Q as Hone by reflexivity.
        rewrite Hone in Hd.
        revert Hd. generalize (inject_Z p2 / 100)%Q. intros; lra. }
      lra. }
    assert (remainingBytes totalSize p2 / rate * 1000 <= 0)%Q as Hneg.
    { unfold Qdiv.
      assert (remainingBytes totalSize p2 * / rate <= 0 * / rate)%Q
        by by apply Qmult_le_compat_r.
      lra. }
    apply Z.max_l. unfold Math_round.
    pose proof (Qfloor_le
                  (remainingBytes totalSize p2 / rate * 1000 + (1 # 2))) as Hf.
    assert (Qfloor (remainingBytes totalSize p2 / rate * 1000 + (1 # 2)) < 1)%Z;
      [|lia].
    rewrite Zlt_Qlt. change (inject_Z 1) with 1%Q.
    revert Hf Hneg.
    generalize (remainingBytes totalSize p2 / rate * 1000)%Q. intros y.
    generalize (inject_Z (Qfloor (y + (1 # 2)))). intros; lra.
Qed.

Lemma estimate_shrinks_as_progress_grows_witness :
  ({[ "f" := 1000%Q ]} : gmap string Q) !! "f" = Some 1000%Q
  ∧ (0 < 1000)%Q ∧ (0 ≤ 5000)%Z ∧ (20 ≤ 60)%Z
  ∧ ∃ t1 t2,
      calculateEstimatedTimeRemaining {[ "f" := 1000%Q ]} "f" 20 5000
      = Some t1
      ∧ calculateEstimatedTimeRemaining {[ "f" := 1000%Q ]} "f" 60 5000
        = Some t2
      ∧ (0 ≤ t2 ≤ t1)%Z.
Proof.
  assert (({[ "f" := 1000%Q ]} : gmap string Q) !! "f" = Some 1000%Q) as H1
    by apply lookup_singleton_eq.
  assert (0 < 1000)%Q as H2 by reflexivity.
  assert (0 ≤ 5000)%Z as H3 by lia.
  assert (20 ≤ 60)%Z as H4 by lia.
  do 4 (split; [assumption|]).
  destruct (estimate_shrinks_as_progress_grows _ "f" 5000 20 60 1000
              H1 H2 H3 H4) as (t1 & t2 & Ht1 & Ht2 & Hle & _).
  by exists t1, t2.
Defined.

(** ** The times shown *)

(** X14. [formatTimeRemaining] below a second says so; from a second on it
    shows the whole seconds of the time split into hours, minutes below 60
    and seconds below 60: the seconds alone under a minute, minutes and
    seconds under an hour, and hours and minutes, without the seconds, from
    an hour on. *)
Theorem formatTimeRemaining_splits_the_time (timeMs : Z) :
  ((timeMs < 1000)%Z → formatTimeRemaining timeMs = "Less than 1s")
  ∧ ((1000 ≤ timeMs)%Z →
     ∃ h m s,
       (timeMs `div` 1000 = h * 3600 + m * 60 + s)%Z
       ∧ (0 ≤ h)%Z ∧ (0 ≤ m < 60)%Z ∧ (0 ≤ s < 60)%Z
       ∧ formatTimeRemaining timeMs
         = if decide (h = 0%Z) then
             if decide (m = 0%Z) then pretty s +:+ "s remaining"
             else pretty m +:+ "m " +:+ pretty s +:+ "s remaining"
           else pretty h +:+ "h " +:+ pretty m +:+ "m remaining").
Proof.
  unfold formatTimeRemaining. split.
  - intros Hlt. by rewrite (proj2 (Z.ltb_lt _ _)).
  - intros Hge. rewrite (proj2 (Z.ltb_ge _ _)) by done. cbv zeta.
    set (seconds := (timeMs `div` 1000)%Z).
    assert (1 ≤ seconds)%Z as Hs by (subst seconds; Z.div_mod_to_equations; lia).
    exists (seconds `div` 3600)%Z, ((seconds `div` 60) `mod` 60)%Z,
      (seconds `mod` 60)%Z.
    split; [Z.div_mod_to_equations; lia|].
    split; [Z.div_mod_to_equations; lia|].
    split; [Z.div_mod_to_equations; lia|].
    split; [Z.div_mod_to_equations; lia|].
    destruct (Z.ltb_spec seconds 60) as [H60|H60].
    + rewrite decide_True by (Z.div_mod_to_equations; lia).
      rewrite decide_True by (Z.div_mod_to_equations; lia).
      by rewrite Z.mod_small by lia.
    + destruct (Z.ltb_spec (seconds `div` 60) 60) as [H3600|H3600].
      * rewrite decide_True by (Z.div_mod_to_equations; lia).
        rewrite decide_False by (Z.div_mod_to_equations; lia).
        by rewrite (Z.mod_small (seconds `div` 60)) by
          (Z.div_mod_to_equations; lia).
      * rewrite decide_False by (Z.div_mod_to_equations; lia).
        by rewrite Z.div_div by lia.
Qed.

(** X15. [formatTransferTime]: once an end time is recorded the text is the
    duration, whatever the status of the transfer: the milliseconds under a
    second, else the whole seconds, split into minutes and seconds below 60
    from a minute on.  Without an end time a transferring transfer shows
    its estimate, or that it is being calculated; a pending one waits, a
    cancelled one says so, and every other one, a rejected one too, is
    'In progress'. *)
Theorem formatTransferTime_shows_the_duration
    (transfer : FileTransfer) (start end_ : Z) :
  (end_ ≠ 0%Z → (end_ - start < 1000)%Z →
   formatTransferTime transfer (Some (Some start, Some end_))
   = pretty (end_ - start)%Z +:+ "ms")
  ∧ (end_ ≠ 0%Z → (1000 ≤ end_ - start)%Z →
     ∃ m s,
       ((end_ - start) `div` 1000 = m * 60 + s)%Z
       ∧ (0 ≤ m)%Z ∧ (0 ≤ s < 60)%Z
       ∧ formatTransferTime transfer (Some (Some start, Some end_))
         = if decide (m = 0%Z) then pretty s +:+ "s"
           else pretty m +:+ "m " +:+ pretty s +:+ "s")
  ∧ formatTransferTime transfer (Some (Some start, None))
    = formatTransferTime transfer None
  ∧ formatTransferTime transfer (Some (Some start, Some 0%Z))
    = formatTransferTime transfer None
  ∧ formatTransferTime transfer None
    = match ft_status transfer with
      | transferring =>
          match ft_estimatedTimeRemaining transfer with
          | Some timeMs => formatTimeRemaining timeMs
          | None => "Calculating time..."
          end
      | pending => "Waiting to start..."
      | cancelled => "Cancelled"
      | completed | error | rejected => "In progress"
      end.
Proof.
  unfold formatTransferTime. split; [|split; [|split; [|split]]].
  - intros Hne Hlt. rewrite decide_False by done.
    by rewrite (proj2 (Z.ltb_lt _ _)).
  - intros Hne Hge. rewrite decide_False by done.
    rewrite (proj2 (Z.ltb_ge _ _)) by done. cbv zeta.
    set (seconds := ((end_ - start) `div` 1000)%Z).
    assert (1 ≤ seconds)%Z as Hs by (subst seconds; Z.div_mod_to_equations; lia).
    exists (seconds `div` 60)%Z, (seconds `mod` 60)%Z.
    split; [Z.div_mod_to_equations; lia|].
    split; [Z.div_mod_to_equations; lia|].
    split; [Z.div_mod_to_equations; lia|].
    destruct (Z.ltb_spec seconds 60) as [H60|H60].
    + rewrite decide_True by (Z.div_mod_to_equations; lia).
      by rewrite Z.mod_small by lia.
    + by rewrite decide_False by (Z.div_mod_to_equations; lia).
  - done.
  - done.
  - by destruct (ft_status transfer).
Qed.

(** ** What the handlers send *)

Section Handlers.
Context `{WebCrypto}.

Lemma handleIncomingData_at_most_one captured now secret st m :
  ∃ extra,
    emits st (handleIncomingData captured now secret st m) extra
    ∧ length extra ≤ 1.
Proof.
  destruct m; simpl;
    try (exists []; split; [apply emits_refl|simpl; lia]).
  - (* key-exchange-init *)
    unfold on_key_exchange_init.
    pose proof (connRef_ensure_key_pair secret st) as He.
    destruct (ensure_key_pair secret st) as [st1 kp]. simpl in He.
    destruct (importPublicKey _).
    + eexists. split.
      * eapply emits_silent_l; [|apply emits_send]. done.
      * case_match; simpl; lia.
    + exists []. split; [by apply emits_same|simpl; lia].
  - (* key-exchange-reply *)
    unfold on_key_exchange_reply.
    destruct (importPublicKey _) as [P|];
      [destruct (keyPairRef st) as [kp|] eqn:Hkp|].
    + match goal with |- context [connected ?s] => set (st1 := s) end.
      destruct (connected st1) eqn:Hc.
      * exists [key_exchange_complete sessionId]. split; [|simpl; lia].
        eapply (emits_silent_l _ st1); [done|].
        eapply emits_silent_r; [by apply emits_send_connected|].
        apply connRef_resolve_key_exchange.
      * exists []. split; [|simpl; lia].
        apply emits_same. by rewrite connRef_resolve_key_exchange.
    + exists []. split; [|simpl; lia].
      apply emits_same, connRef_resolve_key_exchange.
    + exists []. split; [|simpl; lia].
      apply emits_same, connRef_resolve_key_exchange.
  - exists []. split; [by apply emits_same|simpl; lia].
  - exists []. split; [|simpl; lia].
    unfold on_file_start. case_decide; by apply emits_same.
  - (* file-chunk *)
    unfold on_file_chunk. case_decide as Hcan.
    { exists []. split; [apply emits_refl|simpl; lia]. }
    match goal with
    | |- context [send (chunk_ack fileId chunk) ?s] => set (st1 := s)
    end.
    assert (connRef st1 = connRef st ∧
            cancelledTransfersRef st1 = cancelledTransfersRef st) as [Hc1 Hx1].
    { unfold st1, updateSpeed_download. by repeat case_match. }
    assert (fileId ∉ cancelledTransfersRef st1) as Hcan1 by by rewrite Hx1.
    rewrite (decide_False (P := fileId ∈ cancelledTransfersRef st1)) by done.
    exists (if connected st1 then [chunk_ack fileId chunk] else []). split.
    + eapply (emits_silent_l _ st1); [done|].
      eapply emits_silent_r; [apply emits_send|].
      by case_decide.
    + case_match; simpl; lia.
  - exists []. split; [|simpl; lia].
    unfold on_chunk_ack. case_match; by apply emits_same.
  - unfold on_file_cancel.
    match goal with |- context [send _ ?s] => set (st1 := s) end.
    exists (if connected st1 then [file_cancel_ack fileId] else []). split.
    + eapply (emits_silent_l _ st1); [done|apply emits_send].
    + case_match; simpl; lia.
Qed.

(** X16. The ['data'] handler sends at most one message for a message it
    receives, and only an answer to it: never a request, the start or a
    chunk of a transfer, a completion notice, a rejection or a
    cancellation of its own. *)
Theorem data_handler_only_answers
    (captured : list FileTransfer) (now : Q) (secret : nat) (st : AppState)
    (m : Msg) :
  ∃ extra,
    sent (handleIncomingData captured now secret st m) = sent st ++ extra
    ∧ connected (handleIncomingData captured now secret st m) = connected st
    ∧ length extra ≤ 1
    ∧ Forall (answers st m) extra.
Proof.
  destruct (handleIncomingData_at_most_one captured now secret st m)
    as (extra & [Hs Hc] & Hlen).
  destruct (handleIncomingData_emits captured now secret st m)
    as (extra' & [Hs' _] & Hall).
  assert (extra' = extra) as ->
    by (rewrite Hs in Hs'; by apply app_inv_head in Hs').
  exists extra. split; [done|]. split; [done|]. split; [done|].
  eapply Forall_impl; [exact Hall|].
  intros x Hx. destruct x; try done; unfold answers.
  - destruct Hx as [pk ->]. by eexists.
  - by destruct Hx as [pk ->].
  - by destruct Hx as [(total & data & ->) Hnot].
  - by rewrite Hx.
Qed.

(** X17. Without a connection object the user's actions do nothing: nothing
    is sent, no request is taken off the pending list, and a cancellation
    is not recorded, so that a pump of the transfer is not stopped by it;
    [sendFile] and [initiateKeyExchange] throw 'No active connection', as
    they also do on a connection that is not open, and register nothing. *)
Theorem nothing_happens_without_a_connection
    (s : Sys) (fileId : string) :
  (connected (sys_app s) = false →
   acceptFileTransfer (sys_app s) fileId = sys_app s
   ∧ rejectFileTransfer (sys_app s) fileId = sys_app s
   ∧ cancelFileTransfer (sys_app s) fileId = sys_app s
   ∧ step s (CancelClicked fileId) = s
   ∧ ∀ p, fileId ∉ cancelledTransfersRef (sys_app s) →
          sees_cancelled (sys_app (step s (CancelClicked fileId))) p
          = sees_cancelled (sys_app s) p)
  ∧ (connection_open (sys_app s) = false →
     ∀ captured secureMode kex ent file secret,
       sendFile captured secureMode kex ent (sys_app s) file fileId
       = Throw NoActiveConnection
       ∧ initiateKeyExchange secret (sys_app s) fileId
         = Throw NoActiveConnection
       ∧ step s (FileSent captured secureMode kex ent file fileId) = s
       ∧ step s (KeyExchangeStarted secret fileId) = s).
Proof.
  split.
  - intros Hc. cbn [step].
    unfold acceptFileTransfer, rejectFileTransfer, cancelFileTransfer.
    rewrite Hc. destruct s. cbn. split; [by case_match|]. by repeat split.
  - intros Hc captured secureMode kex ent file secret. cbn [step].
    unfold sendFile, initiateKeyExchange, connection_open in *.
    destruct (connRef (sys_app s)) as [c|]; [rewrite Hc|]; by repeat split.
Qed.

(** X18. [acceptFileTransfer] needs a pending request of that id: without one
    it does nothing.  With one, on a connection, it sends
    ['file-accepted'], takes the requests of that id off the pending list
    and creates neither a record nor a buffer; [rejectFileTransfer] sends
    ['file-rejected'] even when no request of that id is pending. *)
Theorem accept_needs_a_pending_request (st : AppState) (fileId : string) :
  (Forall (λ p, pt_fileId p ≠ fileId) (pendingTransfers st) →
   acceptFileTransfer st fileId = st)
  ∧ (connected st = true →
     Exists (λ p, pt_fileId p = fileId) (pendingTransfers st) →
     sent (acceptFileTransfer st fileId) = sent st ++ [file_accepted fileId]
     ∧ pendingTransfers (acceptFileTransfer st fileId)
       = filter (λ p, pt_fileId p ≠ fileId) (pendingTransfers st)
     ∧ transfers (acceptFileTransfer st fileId) = transfers st
     ∧ fileChunksRef (acceptFileTransfer st fileId) = fileChunksRef st)
  ∧ (connected st = true →
     sent (rejectFileTransfer st fileId) = sent st ++ [file_rejected fileId]
     ∧ pendingTransfers (rejectFileTransfer st fileId)
       = filter (λ p, pt_fileId p ≠ fileId) (pendingTransfers st)
     ∧ transfers (rejectFileTransfer st fileId) = transfers st
     ∧ fileChunksRef (rejectFileTransfer st fileId) = fileChunksRef st).
Proof.
  split; [|split].
  - intros Hall. unfold acceptFileTransfer.
    destruct (list_find _ _) as [[i p]|] eqn:Hf; [|done].
    apply list_find_Some in Hf as (Hi & Hp & _).
    rewrite Forall_forall in Hall.
    destruct (Hall p); [by eapply list_elem_of_lookup_2|done].
  - intros Hc Hex. unfold acceptFileTransfer.
    destruct (list_find _ _) as [[i p]|] eqn:Hf.
    + rewrite Hc.
      cbn [setPendingTransfers pendingTransfers transfers fileChunksRef].
      rewrite send_transfers, send_fileChunksRef.
      split; [|split; [|done]].
      * unfold sent at 1. cbn [connRef].
        fold (sent (send (file_accepted fileId) st)). by apply sent_send.
      * unfold send. by destruct (connRef st).
    + apply list_find_None in Hf. apply Exists_exists in Hex as (p & Hp & Hid).
      rewrite Forall_forall in Hf. by destruct (Hf p Hp).
  - intros Hc. unfold rejectFileTransfer. rewrite Hc.
    cbn [setPendingTransfers pendingTransfers transfers fileChunksRef].
    rewrite send_transfers, send_fileChunksRef.
    split; [|split; [|done]].
    + unfold sent at 1. cbn [connRef].
      fold (sent (send (file_rejected fileId) st)). by apply sent_send.
    + unfold send. by destruct (connRef st).
Qed.

End Handlers.

(** ** The window fills *)

Section WindowFills.
Context `{WebCrypto}.

Lemma is_chunk_of_chunk_message p i :
  is_chunk_of (pump_fileId p) (chunk_message p i).
Proof. done. Qed.

(** One iteration with [n] chunks in flight. *)
Lemma after_read_in_flight now st p n :
  chunksInFlightRef st !! pump_fileId p = Some (JNum n) →
  sees_cancelled st p = false →
  (pump_currentChunk p + 1 < pump_totalChunks p)%Z →
  let st' := (after_read now st p).1 in
  let p' := (after_read now st p).2 in
  sees_cancelled st' p' = false
  ∧ chunksInFlightRef st' !! pump_fileId p = Some (JNum (n + 1))
  ∧ pump_phase p'
    = (if (n + 1 <? MAX_CHUNKS_IN_FLIGHT)%Z then Reading else Sleeping)
  ∧ pump_currentChunk p' = (pump_currentChunk p + 1)%Z
  ∧ pump_totalChunks p' = pump_totalChunks p
  ∧ pump_fileId p' = pump_fileId p
  ∧ pump_blob p' = pump_blob p.
Proof.
  intros Hc Hs Hlt.
  pose proof (after_read_pump now st p) as (Hcur' & Htot' & Hblob' & Hid' & _).
  cbv zeta. rewrite Hcur', Htot', Hid', Hblob'.
  unfold after_read.
  pose proof (sendChunk_pump now st p) as (Hcur & Htot & Hblob & _).
  pose proof (pump_fileId_sendChunk now st p) as Hid.
  pose proof (sendChunk_chunksInFlightRef now st p) as Hcnt.
  pose proof (sendChunk_frame now st p) as [Hcan Htr].
  destruct (sendChunk now st p) as [st1 p1]. simpl in *.
  rewrite Hc in Hcnt. simpl in Hcnt. rewrite Hcur, Htot.
  rewrite decide_False by lia. simpl.
  match goal with |- context [loop_head ?s p1] => set (st2 := s) end.
  assert (sees_cancelled st2 p1 = false) as Hs2.
  { rewrite <- Hs. by apply sees_cancelled_ext. }
  assert (loop_head st2 p1
          = if (n + 1 <? MAX_CHUNKS_IN_FLIGHT)%Z then set_phase Reading p1
            else set_phase Sleeping p1) as ->.
  { unfold loop_head, loop_guard, loop_exit. simpl.
    rewrite Hs2, Hcur, Htot, Hid, Hcnt.
    rewrite lookup_insert_eq. simpl.
    rewrite (proj2 (Z.ltb_lt _ _)) by lia. simpl.
    by destruct (n + 1 <? MAX_CHUNKS_IN_FLIGHT)%Z. }
  split.
  { rewrite <- Hs2. apply sees_cancelled_ext; [done| |];
      by destruct (n + 1 <? MAX_CHUNKS_IN_FLIGHT)%Z. }
  split; [by rewrite Hcnt, lookup_insert_eq|].
  split; [by destruct (n + 1 <? MAX_CHUNKS_IN_FLIGHT)%Z|done].
Qed.

(** [m] reads complete in a row, no acknowledgement arriving in between. *)
Lemma reads_without_acks k now : ∀ (m : nat) (s : Sys) (p : Pump) (n : Z),
  sys_pumps s !! k = Some p → pump_phase p = Reading →
  chunksInFlightRef (sys_app s) !! pump_fileId p = Some (JNum n) →
  sees_cancelled (sys_app s) p = false →
  connected (sys_app s) = true →
  (pump_currentChunk p + Z.of_nat (S m) < pump_totalChunks p)%Z →
  (n + Z.of_nat (S m) ≤ MAX_CHUNKS_IN_FLIGHT)%Z →
  let s' := run s (replicate (S m) (ReadDone k now)) in
  ∃ p',
    sys_pumps s' !! k = Some p'
    ∧ pump_phase p'
      = (if (n + Z.of_nat (S m) <? MAX_CHUNKS_IN_FLIGHT)%Z
         then Reading else Sleeping)
    ∧ pump_currentChunk p' = (pump_currentChunk p + Z.of_nat (S m))%Z
    ∧ pump_totalChunks p' = pump_totalChunks p
    ∧ pump_fileId p' = pump_fileId p
    ∧ pump_blob p' = pump_blob p
    ∧ chunksInFlightRef (sys_app s') !! pump_fileId p
      = Some (JNum (n + Z.of_nat (S m)))
    ∧ sees_cancelled (sys_app s') p' = false
    ∧ connected (sys_app s') = true
    ∧ chunks_sent (pump_fileId p) (sys_app s')
      = chunks_sent (pump_fileId p) (sys_app s)
        ++ (chunk_message p <$> seqZ (pump_currentChunk p) (Z.of_nat (S m))).
Proof.
  induction m as [|m IH]; intros s p n Hk Hph Hc Hs Hconn Hlt Hwin.
  - cbn [replicate run foldl]. rewrite (step_ReadDone s k now p Hk Hph).
    destruct (after_read_in_flight now (sys_app s) p n Hc Hs)
      as (Hs' & Hc' & Hph' & Hcur' & Htot' & Hid' & Hblob'); [lia|].
    pose proof (after_read_emits now (sys_app s) p) as Hem.
    rewrite Hconn, decide_False in Hem by lia.
    eexists. cbn [sys_pumps sys_app].
    split; [apply list_lookup_insert_eq; by eapply lookup_lt_Some|].
    split; [done|]. split; [done|]. split; [done|]. split; [done|].
    split; [done|]. split; [done|]. split; [done|].
    split; [destruct Hem as [_ Hcn]; by rewrite Hcn|].
    rewrite (chunks_sent_emits _ _ _ _ Hem), filter_cons, filter_nil.
    by rewrite decide_True by apply is_chunk_of_chunk_message.
  - assert (replicate (S (S m)) (ReadDone k now)
            = [ReadDone k now] ++ replicate (S m) (ReadDone k now)) as ->
      by done.
    cbv zeta. rewrite run_app.
    change (run s [ReadDone k now]) with (step s (ReadDone k now)).
    rewrite (step_ReadDone s k now p Hk Hph).
    destruct (after_read_in_flight now (sys_app s) p n Hc Hs)
      as (Hs' & Hc' & Hph' & Hcur' & Htot' & Hid' & Hblob'); [lia|].
    pose proof (after_read_emits now (sys_app s) p) as Hem.
    rewrite Hconn, decide_False in Hem by lia.
    rewrite (proj2 (Z.ltb_lt _ _)) in Hph' by lia.
    set (s1 := {| sys_app := (after_read now (sys_app s) p).1;
                  sys_pumps := <[k := (after_read now (sys_app s) p).2]>
                                 (sys_pumps s);
                  sys_listeners := sys_listeners s;
                  sys_resolved := sys_resolved s |}).
    destruct (IH s1 (after_read now (sys_app s) p).2 (n + 1)%Z)
      as (p' & Hk2 & Hph2 & Hcur2 & Htot2 & Hid2 & Hblob2 & Hc2 & Hs2 & Hcn2
          & Hsent2).
    { apply list_lookup_insert_eq. by eapply lookup_lt_Some. }
    { done. }
    { cbn [s1 sys_app]. by rewrite Hid'. }
    { done. }
    { cbn [s1 sys_app]. destruct Hem as [_ Hcn]. by rewrite Hcn. }
    { rewrite Hcur', Htot'. lia. }
    { lia. }
    exists p'. split; [done|].
    replace (n + Z.of_nat (S (S m)))%Z with (n + 1 + Z.of_nat (S m))%Z by lia.
    split; [done|]. split; [rewrite Hcur2, Hcur'; lia|].
    split; [congruence|]. split; [congruence|]. split; [congruence|].
    split; [by rewrite <- Hid'|]. split; [done|]. split; [done|].
    rewrite Hid' in Hsent2. rewrite Hsent2. cbn [s1 sys_app].
    rewrite (chunks_sent_emits _ _ _ _ Hem), filter_cons, filter_nil.
    rewrite decide_True by apply is_chunk_of_chunk_message.
    rewrite <- app_assoc. f_equal. cbn [app].
    rewrite (seqZ_cons (pump_currentChunk p)) by lia.
    cbn [fmap list_fmap]. f_equal. rewrite Hcur'.
    rewrite (chunk_message_ext p (after_read now (sys_app s) p).2) by done.
    f_equal. f_equal; lia.
Qed.


Lemma set_phase_same p : set_phase (pump_phase p) p = p.
Proof. by destruct p. Qed.

(** A waiting pump with a full window: its timer changes nothing; one
    acknowledgement and the next timer set it reading again. *)
Lemma full_window_waits
    (s30 : Sys) (k : nat) (p30 : Pump) (captured : list FileTransfer)
    (now' : Q) (secret : nat) (chunk : Z) :
  sys_pumps s30 !! k = Some p30 →
  pump_phase p30 = Sleeping →
  (pump_currentChunk p30 < pump_totalChunks p30)%Z →
  chunksInFlightRef (sys_app s30) !! pump_fileId p30 = Some (JNum 30) →
  sees_cancelled (sys_app s30) p30 = false →
  step s30 (TimerFires k) = s30
  ∧ sys_pumps
      (run s30 [Recv captured now' secret (chunk_ack (pump_fileId p30) chunk);
                TimerFires k]) !! k = Some (set_phase Reading p30)
  ∧ chunksInFlightRef
      (sys_app
         (run s30
            [Recv captured now' secret (chunk_ack (pump_fileId p30) chunk);
             TimerFires k])) !! pump_fileId p30 = Some (JNum 29)
  ∧ chunks_sent (pump_fileId p30)
      (sys_app
         (run s30
            [Recv captured now' secret (chunk_ack (pump_fileId p30) chunk);
             TimerFires k]))
    = chunks_sent (pump_fileId p30) (sys_app s30).
Proof.
  intros Hk30 Hph30 Hlt30 Hc30 Hs30.
  assert (loop_head (sys_app s30) p30 = p30) as Hhead.
  { unfold loop_head, loop_guard. rewrite Hc30. cbn [js_lt].
    change (30 <? MAX_CHUNKS_IN_FLIGHT)%Z with false.
    rewrite andb_false_r. cbn [andb]. unfold loop_exit.
    rewrite (proj2 (Z.ltb_lt _ _)) by lia.
    rewrite <- Hph30. apply set_phase_same. }
  split.
  { cbn [step]. rewrite Hk30. rewrite decide_True by exact Hph30.
    rewrite Hhead. rewrite list_insert_id by exact Hk30. by destruct s30. }
  cbn [run foldl].
  rewrite step_Recv_chunk_ack.
  assert (chunksInFlightRef (on_chunk_ack (sys_app s30) (pump_fileId p30))
            !! pump_fileId p30 = Some (JNum 29)
          ∧ connRef (on_chunk_ack (sys_app s30) (pump_fileId p30))
            = connRef (sys_app s30)) as [Hc31 Hn31].
  { unfold on_chunk_ack. rewrite Hc30. cbn [js_decr_if_truthy].
    rewrite decide_False by discriminate.
    cbn [set_chunksInFlightRef chunksInFlightRef connRef].
    by rewrite lookup_insert_eq. }
  destruct (on_chunk_ack_ready (sys_app s30) (pump_fileId p30))
    as (Hcan31 & _).
  revert Hc31 Hn31 Hcan31.
  generalize (on_chunk_ack (sys_app s30) (pump_fileId p30)).
  intros st31 Hc31 Hn31 Hcan31.
  cbn [step sys_pumps sys_app]. rewrite Hk30.
  rewrite decide_True by exact Hph30.
  cbn [sys_pumps sys_app].
  assert (loop_head st31 p30 = set_phase Reading p30) as ->.
  { unfold loop_head, loop_guard. rewrite Hc31. cbn [js_lt].
    change (29 <? MAX_CHUNKS_IN_FLIGHT)%Z with true.
    rewrite (proj2 (Z.ltb_lt _ _)) by lia. cbn [andb].
    rewrite (sees_cancelled_ext (sys_app s30) st31 p30 p30), Hs30;
      [reflexivity|exact Hcan31|reflexivity|reflexivity]. }
  split; [apply list_lookup_insert_eq; by eapply lookup_lt_Some|].
  split; [exact Hc31|].
  unfold chunks_sent. by rewrite (connRef_sent _ _ Hn31).
Qed.

(** X19. A pump that is about to read, with nothing in flight and more than
    30 chunks to go, on a connection: when 30 reads complete and no
    acknowledgement arrives, the 30 chunks have gone out in order, the
    counter stands at 30 and the pump waits; its timer leaves everything as
    it is.  One acknowledgement brings the counter to 29, and at the next
    timer the pump starts to read again. *)
Theorem window_stalls_until_an_ack
    (s : Sys) (k : nat) (p : Pump) (now : Q) (captured : list FileTransfer)
    (now' : Q) (secret : nat) (chunk : Z) :
  ready_to_pump s k p →
  connected (sys_app s) = true →
  (pump_currentChunk p + MAX_CHUNKS_IN_FLIGHT < pump_totalChunks p)%Z →
  let s30 := run s (replicate 30 (ReadDone k now)) in
  let s31 :=
    run s30
      [Recv captured now' secret (chunk_ack (pump_fileId p) chunk);
       TimerFires k] in
  ∃ p30 p31,
    sys_pumps s30 !! k = Some p30
    ∧ pump_phase p30 = Sleeping
    ∧ pump_currentChunk p30 = (pump_currentChunk p + 30)%Z
    ∧ chunksInFlightRef (sys_app s30) !! pump_fileId p = Some (JNum 30)
    ∧ chunks_sent (pump_fileId p) (sys_app s30)
      = chunks_sent (pump_fileId p) (sys_app s)
        ++ (chunk_message p <$> seqZ (pump_currentChunk p) 30)
    ∧ step s30 (TimerFires k) = s30
    ∧ sys_pumps s31 !! k = Some p31
    ∧ pump_phase p31 = Reading
    ∧ pump_currentChunk p31 = (pump_currentChunk p + 30)%Z
    ∧ chunksInFlightRef (sys_app s31) !! pump_fileId p = Some (JNum 29)
    ∧ chunks_sent (pump_fileId p) (sys_app s31)
      = chunks_sent (pump_fileId p) (sys_app s30).
Proof.
  intros (Hk & Hph & Hc & Hs) Hconn Hlt. cbv zeta.
  change MAX_CHUNKS_IN_FLIGHT with 30%Z in Hlt.
  pose proof (reads_without_acks k now 29 s p 0 Hk Hph Hc Hs Hconn) as Hrun.
  cbv zeta in Hrun.
  revert Hrun. generalize (run s (replicate 30 (ReadDone k now))).
  intros s30 Hrun.
  destruct Hrun
    as (p30 & Hk30 & Hph30 & Hcur30 & Htot30 & Hid30 & Hblob30 & Hc30 & Hs30
        & Hconn30 & Hsent30).
  { change (Z.of_nat 30) with 30%Z. lia. }
  { change MAX_CHUNKS_IN_FLIGHT with 30%Z. change (Z.of_nat 30) with 30%Z.
    lia. }
  change (Z.of_nat 30) with 30%Z in *.
  change (0 + 30)%Z with 30%Z in *.
  change (30 <? MAX_CHUNKS_IN_FLIGHT)%Z with false in Hph30.
  rewrite <- Hid30 in Hc30.
  destruct (full_window_waits s30 k p30 captured now' secret chunk
              Hk30 Hph30 ltac:(lia) Hc30 Hs30)
    as (Htimer & Hk31 & Hc31 & Hsent31).
  rewrite Hid30 in *.
  exists p30, (set_phase Reading p30).
  split; [exact Hk30|]. split; [exact Hph30|]. split; [exact Hcur30|].
  split; [exact Hc30|]. split; [exact Hsent30|]. split; [exact Htimer|].
  split; [exact Hk31|]. split; [reflexivity|]. split; [exact Hcur30|].
  split; [exact Hc31|]. exact Hsent31.
Qed.

End WindowFills.

Lemma window_stalls_until_an_ack_witness :
  ready_to_pump (streaming_sys big_blob) 0 (streaming_pump big_blob)
  ∧ connected (sys_app (streaming_sys big_blob)) = true
  ∧ (pump_currentChunk (streaming_pump big_blob) + MAX_CHUNKS_IN_FLIGHT
     < pump_totalChunks (streaming_pump big_blob))%Z
  ∧ step (run (streaming_sys big_blob) (replicate 30 (ReadDone 0 1)))
      (TimerFires 0)
    = run (streaming_sys big_blob) (replicate 30 (ReadDone 0 1))
  ∧ chunksInFlightRef
      (sys_app
         (run (run (streaming_sys big_blob) (replicate 30 (ReadDone 0 1)))
            [Recv [] 2 0 (chunk_ack "f1" 0); TimerFires 0])) !! "f1"
    = Some (JNum 29).
Proof.
  assert (totalChunks_of (blob_size big_blob) = 31%Z) as Hn.
  { unfold blob_size, big_blob. cbn [blob_bytes].
    rewrite length_replicate, Z2Nat.id by lia. reflexivity. }
  revert Hn. generalize big_blob. intros blob Hn.
  assert (ready_to_pump (streaming_sys blob) 0 (streaming_pump blob)) as H1.
  { unfold ready_to_pump, streaming_sys, startFileTransfer, start_pump.
    cbn [connected setTransfers initial_app connRef fst snd option_list].
    unfold loop_head, loop_guard, sees_cancelled, streaming_pump.
    cbn. rewrite Hn. cbn. repeat split; reflexivity. }
  assert (connected (sys_app (streaming_sys blob)) = true) as H2
    by reflexivity.
  assert (pump_currentChunk (streaming_pump blob) + MAX_CHUNKS_IN_FLIGHT
          < pump_totalChunks (streaming_pump blob))%Z as H3.
  { cbn [streaming_pump pump_currentChunk pump_totalChunks]. rewrite Hn.
    reflexivity. }
  destruct (window_stalls_until_an_ack (H := toy_crypto) (streaming_sys blob)
              0 (streaming_pump blob) 1 [] 2 0 0 H1 H2 H3)
    as (p30 & p31 & _ & _ & _ & _ & _ & Htimer & _ & _ & _ & Hc31 & _).
  split; [exact H1|]. split; [exact H2|]. split; [exact H3|].
  split; [exact Htimer|exact Hc31].
Defined.

(** ** The sender's last chunk *)

Section SenderCompletes.
Context `{WebCrypto}.

Lemma sendChunk_transfers now st p :
  transfers (sendChunk now st p).1 = transfers st.
Proof.
  unfold sendChunk, send.
  case_match; destruct (connRef st); reflexivity.
Qed.

Lemma lookup_update_transfer fileId f ts i :
  update_transfer fileId f ts !! i
  = (λ t, if decide (ft_id t = fileId) then f t else t) <$> ts !! i.
Proof.
  unfold update_transfer. revert i.
  induction ts as [|t ts IH]; intros [|i]; try reflexivity. apply IH.
Qed.

(** The records after the iteration that sends the last chunk. *)
Lemma after_read_last_transfers now st p :
  (pump_currentChunk p + 1 = pump_totalChunks p)%Z →
  ∃ progress eta,
    transfers (after_read now st p).1
    = update_transfer (pump_fileId p) (λ t, ft_completed (ft_blob t) t)
        (update_transfer (pump_fileId p) (ft_transferring_eta progress eta)
           (transfers st)).
Proof.
  intros Hlast. unfold after_read.
  pose proof (sendChunk_pump now st p) as (Hcur & Htot & _).
  pose proof (sendChunk_transfers now st p) as Htr.
  destruct (sendChunk now st p) as [st1 p1]. cbn [fst snd] in *.
  rewrite decide_True by lia.
  cbn [fst]. eexists _, _.
  cbn [set_chunksInFlightRef transfers setTransfers].
  rewrite send_transfers. cbn [setTransfers transfers].
  by rewrite Htr.
Qed.

(** X20. When the read of the last chunk of a transfer completes on a
    connection, the chunk and then the completion notice go out, every
    record of the transfer reads completed at 100 while the other records
    stay as they were, the counter of the transfer is deleted and its pump
    has finished — whatever number of chunks is still unacknowledged.  From
    then on an acknowledgement for the transfer, a timer of the pump or a
    completed read of the pump leaves the whole state as it is. *)
Theorem sender_completes_on_last_send
    (s : Sys) (k : nat) (p : Pump) (now : Q) (captured : list FileTransfer)
    (now' : Q) (secret : nat) (chunk : Z) :
  sys_pumps s !! k = Some p →
  pump_phase p = Reading →
  connected (sys_app s) = true →
  (pump_currentChunk p + 1 = pump_totalChunks p)%Z →
  let s1 := step s (ReadDone k now) in
  sent (sys_app s1)
  = sent (sys_app s)
    ++ [chunk_message p (pump_currentChunk p); file_complete (pump_fileId p)]
  ∧ length (transfers (sys_app s1)) = length (transfers (sys_app s))
  ∧ (∀ i t, transfers (sys_app s) !! i = Some t →
       ∃ t', transfers (sys_app s1) !! i = Some t'
             ∧ if decide (ft_id t = pump_fileId p)
               then ft_id t' = ft_id t ∧ ft_status t' = completed
                    ∧ ft_progress t' = 100%Z ∧ ft_blob t' = ft_blob t
                    ∧ ft_key t' = ft_key t ∧ ft_iv t' = ft_iv t
               else t' = t)
  ∧ chunksInFlightRef (sys_app s1) !! pump_fileId p = None
  ∧ (∃ p1, sys_pumps s1 !! k = Some p1 ∧ pump_phase p1 = Finished)
  ∧ step s1 (Recv captured now' secret (chunk_ack (pump_fileId p) chunk)) = s1
  ∧ step s1 (TimerFires k) = s1
  ∧ step s1 (ReadDone k now') = s1.
Proof.
  intros Hk Hph Hconn Hlast s1. subst s1.
  rewrite (step_ReadDone s k now p Hk Hph).
  pose proof (after_read_emits now (sys_app s) p) as Hem.
  rewrite Hconn, decide_True in Hem by exact Hlast.
  destruct Hem as [Hsent Hcn].
  destruct (after_read_last_transfers now (sys_app s) p Hlast)
    as (progress & eta & Htr).
  pose proof (after_read_pump now (sys_app s) p)
    as (Hcur1 & Htot1 & _ & Hid1 & _ & _).
  assert (chunksInFlightRef (after_read now (sys_app s) p).1 !! pump_fileId p
          = None
          ∧ pump_phase (after_read now (sys_app s) p).2 = Finished)
    as [Hcnt Hfin].
  { unfold after_read.
    pose proof (sendChunk_pump now (sys_app s) p) as (Hcur & Htot & _).
    destruct (sendChunk now (sys_app s) p) as [st1 p1]. cbn [fst snd] in *.
    rewrite decide_True by lia. cbn [fst snd].
    cbn [set_chunksInFlightRef chunksInFlightRef].
    split; [apply lookup_delete_eq|].
    unfold loop_exit. rewrite (proj2 (Z.ltb_ge _ _)) by lia. reflexivity. }
  revert Hsent Hcn Htr Hcur1 Htot1 Hid1 Hcnt Hfin.
  generalize (after_read now (sys_app s) p). intros [st1 p1].
  cbn [fst snd]. intros Hsent Hcn Htr Hcur1 Htot1 Hid1 Hcnt Hfin.
  cbn [sys_app sys_pumps].
  assert (<[k:=p1]> (sys_pumps s) !! k = Some p1) as Hk1.
  { apply list_lookup_insert_eq. by eapply lookup_lt_Some. }
  split; [exact Hsent|].
  split; [rewrite Htr; unfold update_transfer; by rewrite !length_map|].
  split.
  { intros i t Hi. rewrite Htr.
    rewrite !lookup_update_transfer, Hi. cbn [fmap option_fmap option_map].
    eexists; split; [reflexivity|].
    destruct (decide (ft_id t = pump_fileId p)) as [Heq|Hne].
    - cbv beta. rewrite (decide_True (P := ft_id t = pump_fileId p)) by done.
      by repeat split.
    - cbv beta. rewrite (decide_False (P := ft_id t = pump_fileId p)) by done.
      reflexivity. }
  split; [exact Hcnt|].
  split; [by exists p1|].
  split.
  { rewrite step_Recv_chunk_ack. cbn [sys_app sys_pumps sys_listeners
                                        sys_resolved].
    destruct (on_chunk_ack_ready st1 (pump_fileId p)) as (_ & _ & Hnone).
    by rewrite (Hnone Hcnt). }
  split.
  { cbn [step sys_pumps]. rewrite Hk1.
    rewrite decide_False; [reflexivity|]. rewrite Hfin. discriminate. }
  cbn [step sys_pumps]. rewrite Hk1.
  rewrite decide_False; [reflexivity|]. rewrite Hfin. discriminate.
Qed.

End SenderCompletes.

Lemma sender_completes_on_last_send_witness :
  sys_pumps (run (H := toy_crypto) initial_sys
               [FileSent [] false (KexResolved false) sample_entropy
                  sample_file "f1";
                Recv [] 0 0 (file_accepted "f1")]) !! 0%nat
  = Some
      {| pump_blob :=
           {| blob_bytes := [Byte.x2a; Byte.x68; Byte.x69; Byte.x21];
              blob_type := "" |};
         pump_fileId := "f1";
         pump_totalChunks := 1; pump_currentChunk := 0;
         pump_lastUpdateTime := 0; pump_bytesTransferred := 0;
         pump_transfers := []; pump_phase := Reading |}
  ∧ chunksInFlightRef
      (sys_app
         (step
            (run (H := toy_crypto) initial_sys
               [FileSent [] false (KexResolved false) sample_entropy
                  sample_file "f1";
                Recv [] 0 0 (file_accepted "f1")])
            (ReadDone 0 1))) !! "f1" = None.
Proof.
  assert (sys_pumps (run (H := toy_crypto) initial_sys
               [FileSent [] false (KexResolved false) sample_entropy
                  sample_file "f1";
                Recv [] 0 0 (file_accepted "f1")]) !! 0%nat
          = Some
              {| pump_blob :=
           {| blob_bytes := [Byte.x2a; Byte.x68; Byte.x69; Byte.x21];
              blob_type := "" |};
         pump_fileId := "f1";
                 pump_totalChunks := 1; pump_currentChunk := 0;
                 pump_lastUpdateTime := 0; pump_bytesTransferred := 0;
                 pump_transfers := []; pump_phase := Reading |}) as H1
    by (vm_compute; reflexivity).
  split; [exact H1|].
  refine (proj1 (proj2 (proj2 (proj2
    (sender_completes_on_last_send (H := toy_crypto) _ 0 _ 1 [] 2 0 0 H1
       eq_refl _ eq_refl))))).
  vm_compute; reflexivity.
Defined.

(** ** The peer cancels *)

Section PeerCancel.
Context `{WebCrypto}.

(** X21. When the peer's ['file-cancel'] for a transfer arrives at its sender,
    no pump is added or removed and, whatever happens next, at most one more
    chunk of the transfer is handed to the channel (the one whose read was
    under way), none if no pump of the transfer was reading, and no pump of
    the transfer starts another read. *)
Theorem peer_cancel_stops_the_sender
    (s : Sys) (captured : list FileTransfer) (now : Q) (secret : nat)
    (fileId : string) (trace : list Event) :
  NoDup (pump_fileId <$> sys_pumps s) →
  let s1 := step s (Recv captured now secret (file_cancel fileId)) in
  sys_pumps s1 = sys_pumps s
  ∧ length (chunks_sent fileId (sys_app (run s1 trace)))
    ≤ length (chunks_sent fileId (sys_app s)) + 1
  ∧ (reading_pumps fileId s = [] →
     chunks_sent fileId (sys_app (run s1 trace))
     = chunks_sent fileId (sys_app s))
  ∧ ∀ k p,
      sys_pumps (run s1 trace) !! k = Some p → pump_fileId p = fileId →
      pump_phase (loop_head (sys_app (run s1 trace)) p) ≠ Reading.
Proof.
  intros Hnd s1.
  assert (s1 = set_app (on_file_cancel (sys_app s) fileId) s) as Hs1.
  { subst s1. by rewrite step_Recv_data. }
  assert (sys_pumps s1 = sys_pumps s) as Hpumps by (by rewrite Hs1).
  assert (fileId ∈ cancelledTransfersRef (sys_app s1)) as Hc.
  { rewrite Hs1. cbn [set_app sys_app]. unfold on_file_cancel.
    rewrite send_cancelledTransfersRef.
    cbn [set_chunksInFlightRef set_fileChunksRef setTransfers
         set_cancelledTransfersRef cancelledTransfersRef].
    apply elem_of_union_l, elem_of_singleton. reflexivity. }
  assert (chunks_sent fileId (sys_app s1) = chunks_sent fileId (sys_app s))
    as Hsame by (by apply step_chunks_sent_other).
  assert (reading_pumps fileId s1 = reading_pumps fileId s) as Hread
    by (unfold reading_pumps; by rewrite Hpumps).
  destruct (run_cancelled_budget trace s1 fileId Hc) as [Hc' Hle].
  rewrite Hsame, Hread in Hle.
  split; [exact Hpumps|].
  split.
  { pose proof (filter_unique_length pump_fileId fileId
                  (λ p, pump_phase p = Reading) (sys_pumps s) Hnd).
    unfold reading_pumps in Hle. lia. }
  split.
  { intros Hnone. rewrite Hnone in Hle. cbn [length] in Hle.
    destruct (run_emits trace s1) as (extra & Hem).
    rewrite (chunks_sent_emits fileId _ _ _ Hem), Hsame in Hle |- *.
    rewrite length_app in Hle.
    destruct (filter (is_chunk_of fileId) extra); [by rewrite app_nil_r|].
    simpl in Hle. lia. }
  intros k p Hk Hid Hr. apply loop_head_reading in Hr as (_ & _ & Hnot).
  apply Hnot. by rewrite Hid.
Qed.

End PeerCancel.

Lemma peer_cancel_stops_the_sender_witness :
  NoDup
    (pump_fileId
       <$> sys_pumps
             (run (H := toy_crypto) initial_sys
                [FileSent [] false (KexResolved false) sample_entropy
                   sample_file "f1";
                 Recv [] 0 0 (file_accepted "f1")]))
  ∧ length
      (chunks_sent "f1"
         (sys_app
            (run
               (step
                  (run (H := toy_crypto) initial_sys
                     [FileSent [] false (KexResolved false) sample_entropy
                        sample_file "f1";
                      Recv [] 0 0 (file_accepted "f1")])
                  (Recv [] 1 0 (file_cancel "f1")))
               [ReadDone 0 1; TimerFires 0; Recv [] 2 0 (chunk_ack "f1" 0)])))
    ≤ length
        (chunks_sent "f1"
           (sys_app
              (run (H := toy_crypto) initial_sys
                 [FileSent [] false (KexResolved false) sample_entropy
                    sample_file "f1";
                  Recv [] 0 0 (file_accepted "f1")])))
      + 1.
Proof.
  assert (NoDup
            (pump_fileId
               <$> sys_pumps
                     (run (H := toy_crypto) initial_sys
                        [FileSent [] false (KexResolved false) sample_entropy
                           sample_file "f1";
                         Recv [] 0 0 (file_accepted "f1")]))) as H1.
  { vm_compute. apply NoDup_singleton. }
  split; [exact H1|].
  exact (proj1 (proj2
    (peer_cancel_stops_the_sender (H := toy_crypto) _ [] 1 0 "f1"
       [ReadDone 0 1; TimerFires 0; Recv [] 2 0 (chunk_ack "f1" 0)] H1))).
Defined.
